(** * The article-sourcing hook [useWikiArticles]

    A shallow embedding of [frontend/src/hooks/useWikiArticles.ts]: the
    in-place shuffle, the category-member resolver with its cache and status
    map, the detail fetcher, the production cycle and the consumer call.
    Line numbers are those of that file.  An earlier variant of the hook
    ([unnamed/part_001]) differs in how it shuffles; its sampler is embedded
    as well.  The code around the hook follows it: the category search
    hook ([unnamed/part_000]), the category selector
    ([frontend/src/components/CategorySelector.tsx]) and the feed component
    ([unnamed/part_002]).

    Conventions of the embedding.
    - A JavaScript array is a [list]; reading and writing by index are
      stdpp's [!!] and [<[_:=_]>].
    - [Record<string, V>] is a [gmap string]; a missing key is [undefined]
      (the keys are category titles and status keys, none of which names a
      property that a JavaScript object inherits).  A value that may be
      [null] or absent is an [option].
    - [Set<number>] is a [gset Z] (only [has], [add] and [clear] are used).
    - [Math.floor(Math.random() * (i + 1))] is read from an oracle of index
      draws; [Math.random()] lies in [0, 1), so such a draw [j] satisfies
      [0 <= j <= i].
    - An [async] function is cut at its [await]s: the code up to the first
      request, and the code that runs when a reply arrives.  A reply is
      either a rejected request or the parsed JSON body.
    - React state ([articles], [loading], [buffer]) and the refs live in one
      record; the values a callback closes over are explicit arguments. *)

From stdpp Require Import gmap strings list fin_maps sets.
From Stdlib Require Import ZArith Lia Permutation.

Set Default Proof Using "Type*".

(** * Part I: the program *)

(** ** Constants (lines 5-8) *)

Definition BATCH_SIZE : nat := 40.
Definition SUBCAT_SAMPLE_SIZE : nat := 5.

Global Arguments BATCH_SIZE : simpl never.
Global Arguments SUBCAT_SAMPLE_SIZE : simpl never.

(** ** [shuffleArray] (lines 77-84) *)

Section shuffle.
Context {A : Type}.

(** [[array[i], array[j]] = [array[j], array[i]]]: the right-hand side is
    read first, then [array[i]] and [array[j]] are written in that order.
    Both indices are inside the array whenever [shuffleArray] runs
    ([0 <= j <= i < array.length]); outside it JavaScript would read
    [undefined] and grow the array, which the embedding does not follow:
    there the array is left as it is. *)
Definition swap (array : list A) (i j : nat) : list A :=
  match array !! i, array !! j with
  | Some ai, Some aj => <[j := ai]> (<[i := aj]> array)
  | _, _ => array
  end.

(** The loop [for (let i = ...; i > 0; i--)], started at [i]; [rnd] holds
    the successive values of [Math.floor(Math.random() * (i + 1))]. *)
Fixpoint shuffle_from (i : nat) (rnd : list nat) (array : list A) : list A :=
  match i, rnd with
  | S i', j :: rnd' => shuffle_from i' rnd' (swap array i j)
  | _, _ => array
  end.

Definition shuffleArray (rnd : list nat) (array : list A) : list A :=
  shuffle_from (length array - 1) rnd array.
End shuffle.

(** ** Types of the remote API (lines 19-75) *)

Inductive MemberType := page | subcat.
Inductive FetchStatus := pending | done | error.

Global Instance MemberType_eq_dec : EqDecision MemberType.
Proof. solve_decision. Defined.
Global Instance FetchStatus_eq_dec : EqDecision FetchStatus.
Proof. solve_decision. Defined.

Module CategoryMember.
Record t := { pageid : Z; ns : Z; title : string }.
End CategoryMember.

Module CategoryMembersQuery.
Record t := { categorymembers : list CategoryMember.t }.
End CategoryMembersQuery.

Module ApiContinue.
Record t := { cmcontinue : string; continue : string }.
End ApiContinue.

Module ApiError.
Record t := { code : string; info : string; star : string }.
End ApiError.

Module CategoryMembersApiResponse.
Record t := {
  batchcomplete : option string;
  continue : option ApiContinue.t;
  query : option CategoryMembersQuery.t;
  error : option ApiError.t;
}.
End CategoryMembersApiResponse.

Module PageThumbnail.
Record t := { source : option string; width : Z; height : Z }.
End PageThumbnail.

(** [fetchArticleDetails] reads a page as [any] and tests its fields for
    presence, so every field it tests may be absent. *)
Module PageInfo.
Record t := {
  pageid : option Z;
  ns : Z;
  title : option string;
  extract : option string;
  canonicalurl : option string;
  varianttitles : option (gmap string string);
  thumbnail : option PageThumbnail.t;
}.
End PageInfo.

(** [pages] is kept as the sequence [Object.values] enumerates, each value
    with its key. *)
Module PagesQuery.
Record t := { pages : list (string * PageInfo.t) }.
End PagesQuery.

Module PageDetailsApiResponse.
Record t := {
  batchcomplete : option string;
  query : option PagesQuery.t;
  error : option ApiError.t;
}.
End PageDetailsApiResponse.

(** Modelled from the spec: the type [WikiArticle], declared in
    [components/WikiCard], is not part of the sources.  Its fields are those
    of the spec's ArticleRecord, as the object literal of
    [fetchArticleDetails] (lines 232-239) fills them. *)
Module WikiArticle.
Record t := {
  title : string;
  displaytitle : string;
  extract : string;
  pageid : Z;
  thumbnail : option PageThumbnail.t;
  url : string;
}.
End WikiArticle.

(** What [await fetch(...)] followed by [await response.json()] gives. *)
Inductive Reply (D : Type) :=
  | Rejected
  | Json (data : D).
Global Arguments Rejected {D}.
Global Arguments Json {D} data.

(** The calls of [fetch], by their query parameters. *)
Inductive Request :=
  | CategoryMembersRequest (cmtype : MemberType) (cmtitle : string) (cmcontinue : option string)
  | PageDetailsRequest (pageids : list Z).

(** ** JavaScript truthiness of the tested values *)

Definition truthy_string (s : option string) : bool :=
  match s with
  | Some EmptyString | None => false
  | Some (String _ _) => true
  end.

Definition truthy_number (n : option Z) : bool :=
  match n with
  | Some n => negb (n =? 0)%Z
  | None => false
  end.

(** ** State of the hook (lines 93-102), the random oracle and the log of
    requests *)

Record Hook := {
  articles : list WikiArticle.t;
  loading : bool;
  buffer : list WikiArticle.t;
  categoryPageIds : gmap string (option (list Z));
  categorySubcats : gmap string (option (list string));
  shownPageIds : gset Z;
  fetchingStatus : gmap string FetchStatus;
  random : nat → nat;
  requests : list Request;
}.

(** The hook as [useState] and [useRef] initialise it. *)
Definition mount (rnd : nat → nat) : Hook :=
  {| articles := []; loading := false; buffer := [];
     categoryPageIds := ∅; categorySubcats := ∅; shownPageIds := ∅;
     fetchingStatus := ∅; random := rnd; requests := [] |}.

Definition M (X : Type) : Type := Hook → X * Hook.

Global Instance M_ret : MRet M := λ _ x h, (x, h).
Global Instance M_bind : MBind M := λ _ _ f m h, let '(x, h') := m h in f x h'.

Definition gets {X} (f : Hook → X) : M X := λ h, (f h, h).
Definition modify (f : Hook → Hook) : M () := λ h, ((), f h).

Definition setArticles (f : list WikiArticle.t → list WikiArticle.t) : M () :=
  modify (λ h,
    {| articles := f (articles h); loading := loading h; buffer := buffer h;
       categoryPageIds := categoryPageIds h; categorySubcats := categorySubcats h;
       shownPageIds := shownPageIds h; fetchingStatus := fetchingStatus h;
       random := random h; requests := requests h |}).

Definition setLoading (b : bool) : M () :=
  modify (λ h,
    {| articles := articles h; loading := b; buffer := buffer h;
       categoryPageIds := categoryPageIds h; categorySubcats := categorySubcats h;
       shownPageIds := shownPageIds h; fetchingStatus := fetchingStatus h;
       random := random h; requests := requests h |}).

Definition setBuffer (b : list WikiArticle.t) : M () :=
  modify (λ h,
    {| articles := articles h; loading := loading h; buffer := b;
       categoryPageIds := categoryPageIds h; categorySubcats := categorySubcats h;
       shownPageIds := shownPageIds h; fetchingStatus := fetchingStatus h;
       random := random h; requests := requests h |}).

Definition set_categoryPageIds (f : gmap string (option (list Z)) → gmap string (option (list Z))) : M () :=
  modify (λ h,
    {| articles := articles h; loading := loading h; buffer := buffer h;
       categoryPageIds := f (categoryPageIds h); categorySubcats := categorySubcats h;
       shownPageIds := shownPageIds h; fetchingStatus := fetchingStatus h;
       random := random h; requests := requests h |}).

Definition set_categorySubcats (f : gmap string (option (list string)) → gmap string (option (list string))) : M () :=
  modify (λ h,
    {| articles := articles h; loading := loading h; buffer := buffer h;
       categoryPageIds := categoryPageIds h; categorySubcats := f (categorySubcats h);
       shownPageIds := shownPageIds h; fetchingStatus := fetchingStatus h;
       random := random h; requests := requests h |}).

Definition set_shownPageIds (f : gset Z → gset Z) : M () :=
  modify (λ h,
    {| articles := articles h; loading := loading h; buffer := buffer h;
       categoryPageIds := categoryPageIds h; categorySubcats := categorySubcats h;
       shownPageIds := f (shownPageIds h); fetchingStatus := fetchingStatus h;
       random := random h; requests := requests h |}).

Definition set_fetchingStatus (f : gmap string FetchStatus → gmap string FetchStatus) : M () :=
  modify (λ h,
    {| articles := articles h; loading := loading h; buffer := buffer h;
       categoryPageIds := categoryPageIds h; categorySubcats := categorySubcats h;
       shownPageIds := shownPageIds h; fetchingStatus := f (fetchingStatus h);
       random := random h; requests := requests h |}).

(** [fetch(url)]: the request leaves; the log keeps it. *)
Definition fetch (req : Request) : M () :=
  modify (λ h,
    {| articles := articles h; loading := loading h; buffer := buffer h;
       categoryPageIds := categoryPageIds h; categorySubcats := categorySubcats h;
       shownPageIds := shownPageIds h; fetchingStatus := fetchingStatus h;
       random := random h; requests := requests h ++ [req] |}).

(** The next [n] values of the oracle, which are then used up. *)
Definition draws (n : nat) : M (list nat) :=
  λ h, (random h <$> seq 0 n,
    {| articles := articles h; loading := loading h; buffer := buffer h;
       categoryPageIds := categoryPageIds h; categorySubcats := categorySubcats h;
       shownPageIds := shownPageIds h; fetchingStatus := fetchingStatus h;
       random := λ k, random h (n + k); requests := requests h |}).

(** [shuffleArray(array)] inside the hook: one draw per iteration. *)
Definition shuffled {A} (array : list A) : M (list A) :=
  rnd ← draws (length array - 1); mret (shuffleArray rnd array).

(** ** [fetchCategoryMembers] (lines 105-194) *)

(** What a resolution yields: [number[]] for pages, [string[]] for
    subcategories (the conditional return type of the source). *)
Definition Member (memberType : MemberType) : Type :=
  match memberType with page => Z | subcat => string end.

Definition memberType_string (memberType : MemberType) : string :=
  match memberType with page => "page" | subcat => "subcat" end.

(** [const cacheRef = memberType === 'page' ? categoryPageIds : categorySubcats] *)
Definition cacheRef (memberType : MemberType) (h : Hook) :
    gmap string (option (list (Member memberType))) :=
  match memberType with
  | page => categoryPageIds h
  | subcat => categorySubcats h
  end.

(** [cacheRef.current[categoryName] = v] *)
Definition cacheRef_store (memberType : MemberType) (categoryName : string) :
    option (list (Member memberType)) → M () :=
  match memberType with
  | page => λ v, set_categoryPageIds (<[categoryName := v]>)
  | subcat => λ v, set_categorySubcats (<[categoryName := v]>)
  end.

(** [`${categoryName}-${memberType}`] *)
Definition cacheKey (categoryName : string) (memberType : MemberType) : string :=
  categoryName +:+ "-" +:+ memberType_string memberType.

(** [m.pageid] or [m.title], by member type. *)
Definition extractedData (memberType : MemberType) (m : CategoryMember.t) : Member memberType :=
  match memberType with
  | page => CategoryMember.pageid m
  | subcat => CategoryMember.title m
  end.

(** Where a call stands when it gives control back: it has returned [v], or
    it waits for the reply to the request it has just sent, holding
    [allMembers]. *)
Inductive Outcome (memberType : MemberType) :=
  | Returned (v : option (list (Member memberType)))
  | Awaiting (allMembers : list (Member memberType)).
Global Arguments Returned {memberType} v.
Global Arguments Awaiting {memberType} allMembers.

(** The [finally] block (lines 188-193). *)
Definition fetchCategoryMembers_finally (categoryName : string) (memberType : MemberType) : M () :=
  status ← gets (λ h, fetchingStatus h !! cacheKey categoryName memberType);
  if decide (status = Some pending)
  then set_fetchingStatus (<[cacheKey categoryName memberType := error]>)
  else mret ().

(** The [catch] block (lines 178-187), followed by [finally]. *)
Definition fetchCategoryMembers_catch (categoryName : string) (memberType : MemberType) :
    M (Outcome memberType) :=
  set_fetchingStatus (<[cacheKey categoryName memberType := error]>);;
  cacheRef_store memberType categoryName None;;
  fetchCategoryMembers_finally categoryName memberType;;
  mret (Returned None).

(** Lines 111-148: the call up to its first [await]. *)
Definition fetchCategoryMembers (categoryName : string) (memberType : MemberType) :
    M (Outcome memberType) :=
  cached ← gets (λ h, cacheRef memberType h !! categoryName);
  status ← gets (λ h, fetchingStatus h !! cacheKey categoryName memberType);
  let resolve : M (Outcome memberType) :=
    if decide (status = Some pending) then mret (Returned None)
    else
      set_fetchingStatus (<[cacheKey categoryName memberType := pending]>);;
      fetch (CategoryMembersRequest memberType categoryName None);;
      mret (Awaiting [])
  in
  match cached with
  | Some v => if decide (status ≠ Some error) then mret (Returned v) else resolve
  | None => resolve
  end.

(** Lines 149-193: what runs when the reply to a request arrives, up to the
    next [await] or the return. *)
Definition fetchCategoryMembers_resume (categoryName : string) (memberType : MemberType)
    (allMembers : list (Member memberType))
    (reply : Reply CategoryMembersApiResponse.t) : M (Outcome memberType) :=
  match reply with
  | Rejected => fetchCategoryMembers_catch categoryName memberType
  | Json data =>
    match CategoryMembersApiResponse.error data with
    | Some _ => fetchCategoryMembers_catch categoryName memberType
    | None =>
      let members :=
        match CategoryMembersApiResponse.query data with
        | Some q => CategoryMembersQuery.categorymembers q
        | None => []
        end in
      let allMembers := allMembers ++ (extractedData memberType <$> members) in
      let cmcontinue :=
        match CategoryMembersApiResponse.continue data with
        | Some c =>
          if truthy_string (Some (ApiContinue.cmcontinue c))
          then Some (ApiContinue.cmcontinue c) else None
        | None => None
        end in
      match cmcontinue with
      | Some c =>
        fetch (CategoryMembersRequest memberType categoryName (Some c));;
        mret (Awaiting allMembers)
      | None =>
        cacheRef_store memberType categoryName (Some allMembers);;
        set_fetchingStatus (<[cacheKey categoryName memberType := done]>);;
        fetchCategoryMembers_finally categoryName memberType;;
        mret (Returned (Some allMembers))
      end
    end
  end.

(** *** Calls in flight

    Between its requests and their replies a call is suspended and other
    code runs.  The calls in flight and the hook form a transition system:
    an event is a new call, or a reply reaching one of the suspended calls. *)

Record Flight := {
  flight_name : string;
  flight_type : MemberType;
  flight_members : list (Member flight_type);
}.

Definition flight_key (f : Flight) : string := cacheKey (flight_name f) (flight_type f).

Record Resolver := { hook : Hook; flights : list Flight }.

Inductive Event :=
  | Call (categoryName : string) (memberType : MemberType)
  | Deliver (n : nat) (reply : Reply CategoryMembersApiResponse.t).

Definition step (r : Resolver) (e : Event) : Resolver :=
  match e with
  | Call categoryName memberType =>
    match fetchCategoryMembers categoryName memberType (hook r) with
    | (Returned _, h) => {| hook := h; flights := flights r |}
    | (Awaiting allMembers, h) =>
      {| hook := h; flights := flights r ++ [Build_Flight categoryName memberType allMembers] |}
    end
  | Deliver n reply =>
    match flights r !! n with
    | Some f =>
      match fetchCategoryMembers_resume (flight_name f) (flight_type f) (flight_members f) reply (hook r) with
      | (Returned _, h) => {| hook := h; flights := delete n (flights r) |}
      | (Awaiting allMembers, h) =>
        {| hook := h;
           flights := <[n := Build_Flight (flight_name f) (flight_type f) allMembers]> (flights r) |}
      end
    | None => r
    end
  end.

Definition run (rnd : nat → nat) (events : list Event) : Resolver :=
  foldl step {| hook := mount rnd; flights := [] |} events.

(** *** A call run to its end on a script of replies

    The replies of the remote side to the successive requests of one call;
    when the script is used up the next request is rejected. *)
Fixpoint fetchCategoryMembers_settle (categoryName : string) (memberType : MemberType)
    (script : list (Reply CategoryMembersApiResponse.t))
    (allMembers : list (Member memberType)) : M (option (list (Member memberType))) :=
  match script with
  | [] =>
    o ← fetchCategoryMembers_resume categoryName memberType allMembers Rejected;
    mret (match o with Returned v => v | Awaiting _ => None end)
  | reply :: script' =>
    o ← fetchCategoryMembers_resume categoryName memberType allMembers reply;
    match o with
    | Returned v => mret v
    | Awaiting allMembers' =>
      fetchCategoryMembers_settle categoryName memberType script' allMembers'
    end
  end.

(** ** [fetchArticleDetails] (lines 196-254) *)

(** The callback of [.map] (lines 227-240): [null] when a tested field is
    falsy. *)
Definition toArticle (currentLanguage_id : string) (page : PageInfo.t) : option WikiArticle.t :=
  if negb (truthy_number (PageInfo.pageid page))
     || negb (truthy_string (PageInfo.title page))
     || negb (truthy_string (PageInfo.extract page))
     || negb (truthy_string (PageInfo.canonicalurl page))
  then None
  else
    match PageInfo.pageid page, PageInfo.title page,
          PageInfo.extract page, PageInfo.canonicalurl page with
    | Some pageid, Some title, Some extract, Some canonicalurl =>
      Some {| WikiArticle.title := title;
              WikiArticle.displaytitle :=
                default title (PageInfo.varianttitles page ≫= (.!! currentLanguage_id));
              WikiArticle.extract := extract;
              WikiArticle.pageid := pageid;
              WikiArticle.thumbnail := PageInfo.thumbnail page;
              WikiArticle.url := canonicalurl |}
    | _, _, _, _ => None
    end.

(** The predicate of [.filter] (line 241):
    [article !== null && !!article.thumbnail?.source]. *)
Definition keepArticle (article : option WikiArticle.t) : bool :=
  match article with
  | Some a => truthy_string (WikiArticle.thumbnail a ≫= PageThumbnail.source)
  | None => false
  end.

(** Lines 226-241. *)
Definition fetchedArticles (currentLanguage_id : string) (data : PageDetailsApiResponse.t) :
    list WikiArticle.t :=
  let values :=
    match PageDetailsApiResponse.query data with
    | Some q => snd <$> PagesQuery.pages q
    | None => []
    end in
  omap id (filter (λ article, keepArticle article = true) (toArticle currentLanguage_id <$> values)).

(** Lines 220-253: what runs when the reply arrives.  Preloading the images
    ([Promise.allSettled]) changes neither the list nor the hook. *)
Definition fetchArticleDetails_resume (currentLanguage_id : string)
    (reply : Reply PageDetailsApiResponse.t) : list WikiArticle.t :=
  match reply with
  | Rejected => []
  | Json data =>
    match PageDetailsApiResponse.error data with
    | Some _ => []
    | None => fetchedArticles currentLanguage_id data
    end
  end.

(** ** The remote side during one call of the hook

    [listing categoryName memberType] is the script of replies to the
    successive [categorymembers] requests of a resolution; [details pageIds]
    is the reply to the detail request for [pageIds]. *)
Record Remote := {
  listing : string → MemberType → list (Reply CategoryMembersApiResponse.t);
  details : list Z → Reply PageDetailsApiResponse.t;
}.

Definition fetchArticleDetails (remote : Remote) (currentLanguage_id : string)
    (pageIds : list Z) : M (list WikiArticle.t) :=
  if length pageIds =? 0 then mret []
  else
    fetch (PageDetailsRequest pageIds);;
    mret (fetchArticleDetails_resume currentLanguage_id (details remote pageIds)).

(** ** [fetchAndProcessArticles] (lines 256-353) *)

(** [await Promise.all(calls)]: every call runs up to its first request, in
    the order of the array; then the replies come in and each suspended call
    runs to its end.  Suspended calls work on different keys, so the order
    in which they are settled does not matter; they are settled in the order
    of the array. *)
Definition awaitAll (remote : Remote) (calls : list (string * MemberType)) : M () :=
  started ← mapM (λ c : string * MemberType,
    o ← fetchCategoryMembers c.1 c.2;
    mret (match o with
          | Returned _ => None
          | Awaiting allMembers => Some (Build_Flight c.1 c.2 allMembers)
          end)) calls;
  mapM (λ s : option Flight,
    match s with
    | None => mret ()
    | Some f =>
      fetchCategoryMembers_settle (flight_name f) (flight_type f)
        (listing remote (flight_name f) (flight_type f)) (flight_members f);;
      mret ()
    end) started;;
  mret ().

(** Step 2 (lines 270-279): the loop over [targetCategories]. *)
Fixpoint aggregate (targetCategories : list string)
    (directPageIds : list Z) (allSubcatNames : list string) : M (list Z * list string) :=
  match targetCategories with
  | [] => mret (directPageIds, allSubcatNames)
  | catName :: rest =>
    pages ← gets (λ h, categoryPageIds h !! catName);
    subcats ← gets (λ h, categorySubcats h !! catName);
    directPageIds ←
      match pages with
      | Some (Some pages) => s ← shuffled pages; mret (directPageIds ++ s)
      | _ => mret directPageIds
      end;
    aggregate rest directPageIds
      match subcats with
      | Some (Some subcats) => allSubcatNames ++ subcats
      | _ => allSubcatNames
      end
  end.

(** Steps 3 and 4 (lines 281-287). *)
Definition subcatSample (allSubcatNames : list string) : M (list string) :=
  allSubcatNames ← shuffled allSubcatNames;
  mret (take SUBCAT_SAMPLE_SIZE allSubcatNames).

(** Step 6 (lines 295-300). *)
Definition subcatPageIds (subcatSample : list string) : M (list Z) :=
  gets (λ h, subcatName ← subcatSample;
             match categoryPageIds h !! subcatName with
             | Some (Some pages) => pages
             | _ => []
             end).

(** [[...new Set(ids)]]: the values in the order of their first insertion. *)
Fixpoint spread_set `{Countable K} (seen : gset K) (ids : list K) : list K :=
  match ids with
  | [] => []
  | id :: ids' =>
    if decide (id ∈ seen) then spread_set seen ids'
    else id :: spread_set ({[id]} ∪ seen) ids'
  end.

(** Line 312. *)
Definition potentialIds (allAvailableIds : list Z) (shown : gset Z) : list Z :=
  filter (λ id, id ∉ shown) allAvailableIds.

(** Line 315: the test of the reset. *)
Definition exhausted (allAvailableIds : list Z) (shown : gset Z) : bool :=
  (length (potentialIds allAvailableIds shown) =? 0) && (0 <? length allAvailableIds).

(** Step 8 (lines 311-323): the batch selection. *)
Definition selectBatch (allAvailableIds : list Z) : M (list Z) :=
  shown ← gets shownPageIds;
  potentialIds ←
    (if exhausted allAvailableIds shown
     then set_shownPageIds (λ _, ∅);; mret allAvailableIds
     else mret (potentialIds allAvailableIds shown));
  shuffledIds ← shuffled potentialIds;
  mret (take BATCH_SIZE shuffledIds).

(** Steps 9 and 10 and the end of the cycle (lines 331-352).  [again] is the
    call [fetchAndProcessArticles(true)] of line 345. *)
Definition deliver (again : M ()) (remote : Remote) (currentLanguage_id : string)
    (forBuffer : bool) (idsToFetch : list Z) : M () :=
  newArticles ← fetchArticleDetails remote currentLanguage_id idsToFetch;
  set_shownPageIds (λ shown, list_to_set idsToFetch ∪ shown);;
  (if 0 <? length newArticles
   then
     if forBuffer then setBuffer newArticles
     else setArticles (λ prev, prev ++ newArticles);; again
   else mret ());;
  setLoading false.

(** One production cycle past its guard (lines 260-352). *)
Definition production (again : M ()) (remote : Remote) (currentLanguage_id : string)
    (targetCategories : list string) (forBuffer : bool) : M () :=
  setLoading true;;
  awaitAll remote (catName ← targetCategories; [(catName, page); (catName, subcat)]);;
  '(directPageIds, allSubcatNames) ← aggregate targetCategories [] [];
  subcatSample ← subcatSample allSubcatNames;
  awaitAll remote ((., page) <$> subcatSample);;
  subcatPageIds ← subcatPageIds subcatSample;
  let allAvailableIds := spread_set ∅ (directPageIds ++ subcatPageIds) in
  if length allAvailableIds =? 0 then setLoading false;; setLoading false
  else
    idsToFetch ← selectBatch allAvailableIds;
    if length idsToFetch =? 0 then setLoading false;; setLoading false
    else deliver again remote currentLanguage_id forBuffer idsToFetch.

(** The guard of line 259 and the cycle.  [loading] and [targetCategories]
    are the values the callback closes over. *)
Definition cycle (again : M ()) (remote : Remote) (currentLanguage_id : string)
    (loading : bool) (targetCategories : list string) (forBuffer : bool) : M () :=
  if loading || (length targetCategories =? 0) then mret ()
  else production again remote currentLanguage_id targetCategories forBuffer.

(** The call of line 345 is made by the same closure, whose [loading] is
    still the one of the render; it is a buffered cycle, which makes no
    further call.  It is run to its end before the [finally] of the caller;
    on the hook this differs from the real interleaving only in when
    [loading] is set. *)
Definition fetchAndProcessArticles (remote : Remote) (currentLanguage_id : string)
    (loading : bool) (targetCategories : list string) (forBuffer : bool) : M () :=
  cycle (cycle (mret ()) remote currentLanguage_id loading targetCategories true)
    remote currentLanguage_id loading targetCategories forBuffer.

(** ** [getMoreArticles] (lines 355-365); [buffer] is the value the callback
    closes over. *)
Definition getMoreArticles (remote : Remote) (currentLanguage_id : string)
    (loading : bool) (targetCategories : list string)
    (buffer : list WikiArticle.t) : M () :=
  if 0 <? length buffer
  then
    setArticles (λ prev, prev ++ buffer);;
    setBuffer [];;
    fetchAndProcessArticles remote currentLanguage_id loading targetCategories true
  else fetchAndProcessArticles remote currentLanguage_id loading targetCategories false.

(** [fetchArticles] as the current render hands it out (line 377): the
    callbacks close over the state of that render. *)
Definition fetchArticles (remote : Remote) (currentLanguage_id : string)
    (targetCategories : list string) : M () :=
  λ h, getMoreArticles remote currentLanguage_id (loading h) targetCategories (buffer h) h.

(** The effect of lines 367-375, run by a render. *)
Definition initialFetch (remote : Remote) (currentLanguage_id : string)
    (targetCategories : list string) : M () :=
  λ h,
    if (0 <? length targetCategories) && (length (articles h) =? 0)
       && (length (buffer h) =? 0) && negb (loading h)
    then fetchAndProcessArticles remote currentLanguage_id (loading h) targetCategories false h
    else ((), h).

(** ** A session of the hook

    What happens to a mounted hook, one thing after the other: the effect
    runs, or the consumer calls [fetchArticles]; [remote] is how the remote
    side answers meanwhile. *)
Inductive Action :=
  | Effect (remote : Remote)
  | Advance (remote : Remote).

Definition act (currentLanguage_id : string) (targetCategories : list string)
    (h : Hook) (a : Action) : Hook :=
  match a with
  | Effect remote => (initialFetch remote currentLanguage_id targetCategories h).2
  | Advance remote => (fetchArticles remote currentLanguage_id targetCategories h).2
  end.

Definition session (rnd : nat → nat) (currentLanguage_id : string)
    (targetCategories : list string) (history : list Action) : Hook :=
  foldl (act currentLanguage_id targetCategories) (mount rnd) history.

(** ** The sampler of the earlier variant of the hook ([unnamed/part_001],
    lines 273-277)

    That variant has no [shuffleArray]; it shuffles with
    [.sort(() => 0.5 - Math.random())]. *)

Section comparator_sort.
Context {A : Type}.

(** [Array.prototype.sort(comparefn)] is the engine's.  Whatever it does on
    a given array, it asks for comparisons one after the other, goes on
    according to the sign of each answer, and ends with an array. *)
Inductive Sorting :=
  | Sorted (result : list A)
  | Compare (a b : A) (negative zero positive : Sorting).

(** The comparison [() => 0.5 - Math.random()] ignores its arguments; its
    value is positive when the draw is below [0.5] and negative when it is
    above, and it is zero for the one draw [0.5] only.  [signs] holds the
    successive answers, [true] for a positive one; [None] when the answers
    run out before the sort ends. *)
Fixpoint sort_result (s : Sorting) (signs : list bool) : option (list A) :=
  match s with
  | Sorted result => Some result
  | Compare a b negative zero positive =>
    match signs with
    | true :: signs' => sort_result positive signs'
    | false :: signs' => sort_result negative signs'
    | [] => None
    end
  end.
End comparator_sort.
Global Arguments Sorting A : clear implicits.

Definition sampledSubcats (sort : list string → Sorting string) (signs : list bool)
    (allSubcatNames : list string) : option (list string) :=
  let uniqueSubcats := spread_set ∅ allSubcatNames in
  take SUBCAT_SAMPLE_SIZE <$> sort_result (sort uniqueSubcats) signs.

(** ** The category search hook [useCategorySearch] ([unnamed/part_000])

    The hook behind the category selector; line numbers are those of
    [unnamed/part_000].  The characters of the query matter here
    ([query.trim()]), so the query is the list of its UTF-16 code units. *)

(** [WhiteSpace] and [LineTerminator] of ECMAScript: the code units that
    [String.prototype.trim] strips. *)
Definition isWhiteSpace (c : N) : bool :=
  bool_decide (c ∈ [0x9; 0xA; 0xB; 0xC; 0xD; 0x20; 0xA0; 0x1680; 0x2028; 0x2029;
                    0x202F; 0x205F; 0x3000; 0xFEFF]%N)
  || ((0x2000 <=? c) && (c <=? 0x200A))%N.

Fixpoint trimStart (s : list N) : list N :=
  match s with
  | c :: s' => if isWhiteSpace c then trimStart s' else s
  | [] => []
  end.

Definition trimEnd (s : list N) : list N := reverse (trimStart (reverse s)).

Definition trim (s : list N) : list N := trimEnd (trimStart s).

Module WikiCategorySearchResult.
Record t := {
  ns : Z;
  title : string;
  pageid : Z;
  size : Z;
  wordcount : Z;
  snippet : string;
  timestamp : string;
}.
End WikiCategorySearchResult.

(** [search] is read with [?.] (line 80): it may be missing. *)
Module WikiCategorySearchQuery.
Record t := {
  totalhits : Z;
  search : option (list WikiCategorySearchResult.t);
}.
End WikiCategorySearchQuery.

Module WikiCategorySearchResponse.
Record t := {
  batchcomplete : string;
  continue : option (Z * string);
  query : option WikiCategorySearchQuery.t;
  error : option ApiError.t;
}.
End WikiCategorySearchResponse.

(** State of the hook (lines 46-48) and the [srsearch] of the requests it
    has sent. *)
Module CategorySearch.
Record t := {
  searchResults : list string;
  loading : bool;
  error : option string;
  searches : list (list N);
}.
End CategorySearch.

Definition useCategorySearch : CategorySearch.t :=
  {| CategorySearch.searchResults := []; CategorySearch.loading := false;
     CategorySearch.error := None; CategorySearch.searches := [] |}.

(** What the [try] block meets: [fetch] or [response.json()] rejects, with
    an [Error] of message [message] or, for [None], with a value that is no
    [Error]; or the body is parsed. *)
Inductive SearchReply :=
  | SearchRejected (message : option string)
  | SearchJson (data : WikiCategorySearchResponse.t).

(** [`API Error: ${data.error.info} [${data.error.code}]`] (line 77) *)
Definition apiErrorMessage (e : ApiError.t) : string :=
  "API Error: " +:+ ApiError.info e +:+ " [" +:+ ApiError.code e +:+ "]".

(** Lines 52-73: the call up to its [await]; [true] when a request has
    left. *)
Definition searchCategories (query : list N) (s : CategorySearch.t) : bool * CategorySearch.t :=
  if length (trim query) =? 0
  then
    (false,
     {| CategorySearch.searchResults := []; CategorySearch.loading := false;
        CategorySearch.error := None; CategorySearch.searches := CategorySearch.searches s |})
  else
    (true,
     {| CategorySearch.searchResults := CategorySearch.searchResults s;
        CategorySearch.loading := true; CategorySearch.error := None;
        CategorySearch.searches := CategorySearch.searches s ++ [query] |}).

(** The [catch] block (lines 83-86), followed by [finally] (lines 87-89). *)
Definition searchCategories_catch (message : option string) (s : CategorySearch.t) :
    CategorySearch.t :=
  {| CategorySearch.searchResults := []; CategorySearch.loading := false;
     CategorySearch.error := Some (default "Failed to fetch categories." message);
     CategorySearch.searches := CategorySearch.searches s |}.

(** Lines 74-89: what runs when the reply arrives. *)
Definition searchCategories_resume (reply : SearchReply) (s : CategorySearch.t) :
    CategorySearch.t :=
  match reply with
  | SearchRejected message => searchCategories_catch message s
  | SearchJson data =>
    match WikiCategorySearchResponse.error data with
    | Some e => searchCategories_catch (Some (apiErrorMessage e)) s
    | None =>
      let categoryTitles :=
        match WikiCategorySearchResponse.query data ≫= WikiCategorySearchQuery.search with
        | Some results => WikiCategorySearchResult.title <$> results
        | None => []
        end in
      {| CategorySearch.searchResults := categoryTitles; CategorySearch.loading := false;
         CategorySearch.error := CategorySearch.error s;
         CategorySearch.searches := CategorySearch.searches s |}
    end
  end.

(** A call run to its end: [reply] is what the request, if one leaves, is
    answered with. *)
Definition searchCategories_settle (query : list N) (reply : SearchReply)
    (s : CategorySearch.t) : CategorySearch.t :=
  match searchCategories query s with
  | (true, s') => searchCategories_resume reply s'
  | (false, s') => s'
  end.

(** ** The category selector ([frontend/src/components/CategorySelector.tsx]) *)

(** Lines 74-76. *)
Definition filteredSearchResults (apiSearchResults chosenCategories : list string) :
    list string :=
  filter (λ cat, cat ∉ chosenCategories) apiSearchResults.

(** The search that the effect of lines 79-90 asks the debounced
    [searchCategories] for, if any. *)
Definition searchEffect (searchTerm : list N) : option (list N) :=
  if 0 <? length (trim searchTerm) then Some (trim searchTerm) else None.

(** [handleAddCategory] (lines 92-98): the test reads the [chosenCategories]
    the handler closes over, the update the state [prev] at that time. *)
Definition handleAddCategory (chosenCategories : list string) (category : string)
    (prev : list string) : list string :=
  if decide (category ∈ chosenCategories) then prev else prev ++ [category].

(** [handleRemoveCategory] (lines 100-102). *)
Definition handleRemoveCategory (categoryToRemove : string) (prev : list string) :
    list string :=
  filter (λ cat, cat ≠ categoryToRemove) prev.

(** [handleConfirm] (lines 104-108): what [onCategoriesSelected] is called
    with, if it is called. *)
Definition handleConfirm (chosenCategories : list string) : option (list string) :=
  if 0 <? length chosenCategories then Some chosenCategories else None.

(** What the user does in the selector, one click after the other, each
    handler being the one of the render before the click. *)
Inductive Choice :=
  | Add (category : string)
  | Remove (category : string).

Definition choose (chosenCategories : list string) (c : Choice) : list string :=
  match c with
  | Add category => handleAddCategory chosenCategories category chosenCategories
  | Remove category => handleRemoveCategory category chosenCategories
  end.

Definition chosenAfter (choices : list Choice) : list string := foldl choose [] choices.

(** ** The feed ([unnamed/part_002], the component [App]) *)

(** [handleObserver] (lines 13-21); [isIntersecting] is that of
    [entries[0]], and [loading], [articles] and [fetchArticles] are those of
    the current render. *)
Definition handleObserver (remote : Remote) (currentLanguage_id : string)
    (selectedCategories : list string) (isIntersecting : bool) : M () :=
  λ h,
    if isIntersecting && negb (loading h) && (0 <? length (articles h))
    then fetchArticles remote currentLanguage_id selectedCategories h
    else ((), h).

(** The component: its state [selectedCategories] (line 9) and the hook it
    uses (line 10). *)
Record App := { selectedCategories : list string; wiki : Hook }.

(** What happens to the component: the selector, which is rendered while no
    category is selected (line 45), confirms a choice; a render runs the
    effect of the hook; the observer fires. *)
Inductive AppEvent :=
  | Confirm (chosenCategories : list string)
  | Render (remote : Remote)
  | Intersect (isIntersecting : bool) (remote : Remote).

Definition app_step (currentLanguage_id : string) (a : App) (e : AppEvent) : App :=
  match e with
  | Confirm chosenCategories =>
    if length (selectedCategories a) =? 0
    then
      match handleConfirm chosenCategories with
      | Some categories => {| selectedCategories := categories; wiki := wiki a |}
      | None => a
      end
    else a
  | Render remote =>
    {| selectedCategories := selectedCategories a;
       wiki := (initialFetch remote currentLanguage_id (selectedCategories a) (wiki a)).2 |}
  | Intersect isIntersecting remote =>
    {| selectedCategories := selectedCategories a;
       wiki := (handleObserver remote currentLanguage_id (selectedCategories a)
                  isIntersecting (wiki a)).2 |}
  end.

Definition app_run (rnd : nat → nat) (currentLanguage_id : string)
    (events : list AppEvent) : App :=
  foldl (app_step currentLanguage_id) {| selectedCategories := []; wiki := mount rnd |} events.

(** ** Notions used to state the properties *)

Section draws.
Context {A : Type} `{EqDecision A}.

(** What [Math.random] guarantees about the draws of a loop started at
    [i]: one draw per iteration, the draw of iteration [i] at most [i]. *)
Fixpoint index_draws (i : nat) (rnd : list nat) : Prop :=
  match i, rnd with
  | 0, [] => True
  | S i', j :: rnd' => j ≤ i ∧ index_draws i' rnd'
  | _, _ => False
  end.

(** Every sequence of draws of a loop started at [i], each one once.
    Uniform independent draws make these sequences equally likely. *)
Fixpoint all_draws (i : nat) : list (list nat) :=
  match i with
  | 0 => [[]]
  | S i' => j ← seq 0 (S i); (j ::.) <$> all_draws i'
  end.

(** Number of draw sequences on which [shuffleArray array] comes out as [p]. *)
Definition outcomes (array p : list A) : nat :=
  length (filter (λ rnd, shuffleArray rnd array = p) (all_draws (length array - 1))).

(** Number of positions of [l] that hold [x]. *)
Definition occurrences (x : A) (l : list A) : nat := length (filter (x =.) l).

(** Number of rearrangements of the positions of [l] that leave [l] as it
    is: the product of the factorials of the multiplicities. *)
Fixpoint stabilizers (l : list A) : nat :=
  match l with
  | [] => 1
  | x :: l' => S (occurrences x l') * stabilizers l'
  end.
End draws.

Section signs.
Context {A : Type}.

(** The largest number of comparisons a sort asks for. *)
Fixpoint sort_depth (s : Sorting A) : nat :=
  match s with
  | Sorted _ => 0
  | Compare _ _ negative _ positive => S (sort_depth negative `max` sort_depth positive)
  end.

(** The arrays a sort can end with on answers that are never zero. *)
Fixpoint sort_results (s : Sorting A) : list (list A) :=
  match s with
  | Sorted result => [result]
  | Compare _ _ negative _ positive => sort_results negative ++ sort_results positive
  end.
End signs.

(** Every sequence of [m] answers, each one once.  Uniform independent
    draws make these sequences equally likely. *)
Fixpoint all_signs (m : nat) : list (list bool) :=
  match m with
  | 0 => [[]]
  | S m' => sign ← [true; false]; (sign ::.) <$> all_signs m'
  end.

(** Number of sequences of [m] answers on which the earlier sampler comes
    out as [p]. *)
Definition sample_outcomes (sort : list string → Sorting string) (m : nat)
    (allSubcatNames p : list string) : nat :=
  length (filter (λ signs, sampledSubcats sort signs allSubcatNames = Some p) (all_signs m)).

(** A resolution error: the request failed, or the body carries an [error]
    object. *)
Definition resolution_error (reply : Reply CategoryMembersApiResponse.t) : Prop :=
  match reply with
  | Rejected => True
  | Json data => is_Some (CategoryMembersApiResponse.error data)
  end.

(** What holds of the hook and the calls in flight at every moment:
    suspended calls have different keys, the key of a suspended call is
    [pending], and a key whose cache holds a list is [done]. *)
Definition resolver_inv (r : Resolver) : Prop :=
  NoDup (flight_key <$> flights r)
  ∧ (∀ f, f ∈ flights r → fetchingStatus (hook r) !! flight_key f = Some pending)
  ∧ (∀ categoryName memberType l,
       cacheRef memberType (hook r) !! categoryName = Some (Some l) →
       fetchingStatus (hook r) !! cacheKey categoryName memberType = Some done).

(** A response page that has a page identifier, a title, an extract, a
    canonical URL and a thumbnail source.  A field is had when the value
    read from it is truthy: present, and not [0] or the empty string. *)
Definition wellFormed (page : PageInfo.t) : Prop :=
  truthy_number (PageInfo.pageid page) = true
  ∧ truthy_string (PageInfo.title page) = true
  ∧ truthy_string (PageInfo.extract page) = true
  ∧ truthy_string (PageInfo.canonicalurl page) = true
  ∧ truthy_string (PageInfo.thumbnail page ≫= PageThumbnail.source) = true.

Global Instance wellFormed_dec page : Decision (wellFormed page).
Proof. unfold wellFormed. apply _. Defined.

(** The ArticleRecord of a page: its fields, the display title being the
    variant title of the active language when there is one. *)
Definition articleRecord (currentLanguage_id : string) (page : PageInfo.t) : WikiArticle.t :=
  {| WikiArticle.title := default EmptyString (PageInfo.title page);
     WikiArticle.displaytitle :=
       default (default EmptyString (PageInfo.title page))
               (PageInfo.varianttitles page ≫= (.!! currentLanguage_id));
     WikiArticle.extract := default EmptyString (PageInfo.extract page);
     WikiArticle.pageid := default 0%Z (PageInfo.pageid page);
     WikiArticle.thumbnail := PageInfo.thumbnail page;
     WikiArticle.url := default EmptyString (PageInfo.canonicalurl page) |}.

(** The candidates of a batch: the unseen identifiers of the pool, or the
    whole pool after the reset. *)
Definition candidates (allAvailableIds : list Z) (shown : gset Z) : list Z :=
  if exhausted allAvailableIds shown then allAvailableIds
  else potentialIds allAvailableIds shown.

(** A computation that leaves the displayed list as it is. *)
Definition keeps_articles {X} (m : M X) : Prop := ∀ h, articles (m h).2 = articles h.

(** A computation that ends with [loading] false. *)
Definition ends_idle {X} (m : M X) : Prop := ∀ h, loading (m h).2 = false.

(** ** Further notions, for the properties of Part IV *)

(** A computation that leaves the part [f] of the hook as it is. *)
Definition stays {X Y} (f : Hook → Y) (m : M X) : Prop := ∀ h, f (m h).2 = f h.

(** A computation that keeps [I] true. *)
Definition preserves {X} (I : Hook → Prop) (m : M X) : Prop := ∀ h, I h → I (m h).2.

(** The records the hook holds: the displayed ones and the buffered ones. *)
Definition held (h : Hook) : list WikiArticle.t * list WikiArticle.t :=
  (articles h, buffer h).

(** What lies outside the resolver: the React state, the shown set and the
    random source. *)
Definition outside_resolver (h : Hook) :
    list WikiArticle.t * bool * list WikiArticle.t * gset Z * (nat → nat) :=
  (articles h, loading h, buffer h, shownPageIds h, random h).

(** The members that a listing page adds to [allMembers] (lines 155-160),
    and the token of the page after it, [data.continue?.cmcontinue || null]
    (line 161). *)
Definition page_members (memberType : MemberType) (data : CategoryMembersApiResponse.t) :
    list (Member memberType) :=
  extractedData memberType <$>
    match CategoryMembersApiResponse.query data with
    | Some q => CategoryMembersQuery.categorymembers q
    | None => []
    end.

Definition page_continue (data : CategoryMembersApiResponse.t) : option string :=
  match CategoryMembersApiResponse.continue data with
  | Some c =>
    if truthy_string (Some (ApiContinue.cmcontinue c))
    then Some (ApiContinue.cmcontinue c) else None
  | None => None
  end.

(** A listing page without [error] that announces a further page. *)
Definition continuing (data : CategoryMembersApiResponse.t) : Prop :=
  CategoryMembersApiResponse.error data = None ∧ is_Some (page_continue data).

(** The requests of the log that list the members of one kind of one
    category. *)
Definition request_of (categoryName : string) (memberType : MemberType) (req : Request) : bool :=
  match req with
  | CategoryMembersRequest cmtype cmtitle _ =>
    bool_decide (cmtype = memberType ∧ cmtitle = categoryName)
  | PageDetailsRequest _ => false
  end.

(** How the status of a key, its cache entry and the calls in flight go
    together. *)
Definition status_agrees (r : Resolver) : Prop :=
  ∀ categoryName memberType,
    let cached := cacheRef memberType (hook r) !! categoryName in
    match fetchingStatus (hook r) !! cacheKey categoryName memberType with
    | Some done => ∃ l, cached = Some (Some l)
    | Some error => cached = Some None
    | Some pending =>
      (cached = None ∨ cached = Some None)
      ∧ ∃ f, f ∈ flights r ∧ flight_name f = categoryName ∧ flight_type f = memberType
    | None => cached = None
    end.

(** A record that has all that a card shows: an identifier that is not
    [0], a title, an extract and a URL that are not empty, and a thumbnail
    with a source that is not empty. *)
Definition complete (article : WikiArticle.t) : Prop :=
  WikiArticle.pageid article ≠ 0%Z
  ∧ WikiArticle.title article ≠ EmptyString
  ∧ WikiArticle.extract article ≠ EmptyString
  ∧ WikiArticle.url article ≠ EmptyString
  ∧ ∃ thumbnail source,
      WikiArticle.thumbnail article = Some thumbnail
      ∧ PageThumbnail.source thumbnail = Some source
      ∧ source ≠ EmptyString.

(** A detail reply that is an error: the request failed, or the body
    carries an [error] object. *)
Definition details_error (reply : Reply PageDetailsApiResponse.t) : Prop :=
  match reply with
  | Rejected => True
  | Json data => is_Some (PageDetailsApiResponse.error data)
  end.

(** The hook without its log of requests. *)
Definition apart_from_requests (h : Hook) :
    list WikiArticle.t * bool * list WikiArticle.t * gmap string (option (list Z))
    * gmap string (option (list string)) * gset Z * gmap string FetchStatus * (nat → nat) :=
  (articles h, loading h, buffer h, categoryPageIds h, categorySubcats h,
   shownPageIds h, fetchingStatus h, random h).

(** The list a cache holds for [name]; nothing when the entry is missing or
    [null] ([Array.isArray] of lines 277, 278 and 299). *)
Definition cachedList {V} (cache : gmap string (option (list V))) (name : string) : list V :=
  match cache !! name with
  | Some (Some l) => l
  | _ => []
  end.

(** The hook without its random source. *)
Definition apart_from_random (h : Hook) :
    list WikiArticle.t * bool * list WikiArticle.t * gmap string (option (list Z))
    * gmap string (option (list string)) * gset Z * gmap string FetchStatus * list Request :=
  (articles h, loading h, buffer h, categoryPageIds h, categorySubcats h,
   shownPageIds h, fetchingStatus h, requests h).

(** A query made of white space only, or empty. *)
Definition blank (query : list N) : Prop := Forall (λ c, isWhiteSpace c = true) query.

(** A search reply that is a failure: the request or the parsing failed, or
    the body carries an [error] object. *)
Definition search_failed (reply : SearchReply) : Prop :=
  match reply with
  | SearchRejected _ => True
  | SearchJson data => is_Some (WikiCategorySearchResponse.error data)
  end.

(** Whether a request is a detail request. *)
Definition is_details (req : Request) : bool :=
  match req with
  | PageDetailsRequest _ => true
  | CategoryMembersRequest _ _ _ => false
  end.

(** A request as a cycle may send it: a listing request, or a detail
    request for at least one and at most [BATCH_SIZE] identifiers, none of
    them twice. *)
Definition request_ok (req : Request) : Prop :=
  match req with
  | PageDetailsRequest pageids =>
    pageids ≠ [] ∧ NoDup pageids ∧ length pageids ≤ BATCH_SIZE
  | CategoryMembersRequest _ _ _ => True
  end.

(** A computation that only adds to the log of requests, and adds requests
    that a cycle may send, at most [n] detail requests among them. *)
Definition sends {X} (n : nat) (m : M X) : Prop :=
  ∀ h, ∃ added,
    requests (m h).2 = requests h ++ added
    ∧ Forall request_ok added
    ∧ length (filter is_details added) ≤ n.

(** Every identifier of the shown set was asked for in a detail request. *)
Definition attempted (h : Hook) : Prop :=
  ∀ id, id ∈ shownPageIds h →
    ∃ pageids, PageDetailsRequest pageids ∈ requests h ∧ id ∈ pageids.

(** A hook without a call in flight: no key is [pending], and the status
    of every key tells what its cache entry is. *)
Definition settled (h : Hook) : Prop := status_agrees {| hook := h; flights := [] |}.

(** What the resolver works on. *)
Definition resolver_part (h : Hook) :
    gmap string (option (list Z)) * gmap string (option (list string))
    * gmap string FetchStatus :=
  (categoryPageIds h, categorySubcats h, fetchingStatus h).

(** The two halves of [awaitAll]: a call run up to its first request, and
    a suspended call run to its end. *)
Definition awaitAll_start (c : string * MemberType) : M (option Flight) :=
  o ← fetchCategoryMembers c.1 c.2;
  mret (match o with
        | Returned _ => None
        | Awaiting allMembers => Some (Build_Flight c.1 c.2 allMembers)
        end).

Definition awaitAll_finish (remote : Remote) (s : option Flight) : M () :=
  match s with
  | None => mret ()
  | Some f =>
    fetchCategoryMembers_settle (flight_name f) (flight_type f)
      (listing remote (flight_name f) (flight_type f)) (flight_members f);;
    mret ()
  end.

(** A hook whose caches hold no list. *)
Definition no_listing (h : Hook) : Prop :=
  ∀ name, cachedList (categoryPageIds h) name = []
          ∧ cachedList (categorySubcats h) name = [].

(** ** Worked inputs *)

Definition member (pageid : Z) (title : string) : CategoryMember.t :=
  {| CategoryMember.pageid := pageid; CategoryMember.ns := 0; CategoryMember.title := title |}.

(** A listing page without [error]; [cmcontinue] is the token of the next
    page, if any. *)
Definition listing_page (members : list CategoryMember.t) (cmcontinue : option string) :
    Reply CategoryMembersApiResponse.t :=
  Json {| CategoryMembersApiResponse.batchcomplete := None;
          CategoryMembersApiResponse.continue :=
            (λ c, {| ApiContinue.cmcontinue := c; ApiContinue.continue := "-||" |})
              <$> cmcontinue;
          CategoryMembersApiResponse.query :=
            Some {| CategoryMembersQuery.categorymembers := members |};
          CategoryMembersApiResponse.error := None |}.

(** A listing reply that carries an [error] object. *)
Definition listing_error : Reply CategoryMembersApiResponse.t :=
  Json {| CategoryMembersApiResponse.batchcomplete := None;
          CategoryMembersApiResponse.continue := None;
          CategoryMembersApiResponse.query := None;
          CategoryMembersApiResponse.error :=
            Some {| ApiError.code := "invalidcategory";
                    ApiError.info := "The category name you entered is not valid.";
                    ApiError.star := "See the API help." |} |}.

(** The scenario of the specification: "Category:Physics" has the pages 1, 2
    and 3, listed on two pages, and the subcategory "Category:Quantum
    mechanics", which has the pages 3 and 4.  The detail request is
    answered with the pages 10 and 11 of the scenario below it. *)
Definition physics_listing (categoryName : string) (memberType : MemberType) :
    list (Reply CategoryMembersApiResponse.t) :=
  if decide (categoryName = "Category:Physics") then
    match memberType with
    | page => [listing_page [member 1 "One"; member 2 "Two"] (Some "page|3");
               listing_page [member 3 "Three"] None]
    | subcat => [listing_page [member 100 "Category:Quantum mechanics"] None]
    end
  else if decide (categoryName = "Category:Quantum mechanics") then
    match memberType with
    | page => [listing_page [member 3 "Three"; member 4 "Four"] None]
    | subcat => [listing_page [] None]
    end
  else [listing_error].

(** A category of 41 pages and no subcategory, on a network where every
    detail request is rejected. *)
Definition big_category_no_details : Remote :=
  {| listing := λ _ memberType,
       match memberType with
       | page => [listing_page ((λ n, member (Z.of_nat n) "page") <$> seq 1 41) None]
       | subcat => [listing_page [] None]
       end;
     details := λ _, Rejected |}.

Definition thumbnail_800 : PageThumbnail.t :=
  {| PageThumbnail.source := Some "https://upload.wikimedia.org/10.jpg";
     PageThumbnail.width := 800; PageThumbnail.height := 600 |}.

(** The two pages of the scenario of the detail fetch: [11] has no
    thumbnail. *)
Definition page_10 : PageInfo.t :=
  {| PageInfo.pageid := Some 10%Z; PageInfo.ns := 0;
     PageInfo.title := Some "Ten"; PageInfo.extract := Some "Ten is a number.";
     PageInfo.canonicalurl := Some "https://en.wikipedia.org/wiki/Ten";
     PageInfo.varianttitles := None; PageInfo.thumbnail := Some thumbnail_800 |}.

Definition page_11 : PageInfo.t :=
  {| PageInfo.pageid := Some 11%Z; PageInfo.ns := 0;
     PageInfo.title := Some "Eleven"; PageInfo.extract := Some "Eleven is a number.";
     PageInfo.canonicalurl := Some "https://en.wikipedia.org/wiki/Eleven";
     PageInfo.varianttitles := None; PageInfo.thumbnail := None |}.

Definition details_10_11 : PageDetailsApiResponse.t :=
  {| PageDetailsApiResponse.batchcomplete := None;
     PageDetailsApiResponse.query :=
       Some {| PagesQuery.pages := [("10", page_10); ("11", page_11)] |};
     PageDetailsApiResponse.error := None |}.

Definition article_10 : WikiArticle.t :=
  {| WikiArticle.title := "Ten"; WikiArticle.displaytitle := "Ten";
     WikiArticle.extract := "Ten is a number."; WikiArticle.pageid := 10;
     WikiArticle.thumbnail := Some thumbnail_800;
     WikiArticle.url := "https://en.wikipedia.org/wiki/Ten" |}.

Definition physics : Remote :=
  {| listing := physics_listing; details := λ _, Json details_10_11 |}.

(** A sort that inserts one element after the other, on three elements. *)
Definition insertion_sort_3 (names : list string) : Sorting string :=
  match names with
  | [a; b; c] =>
    let a_b :=
      let a_c := Compare a c (Sorted [a; c; b]) (Sorted [a; c; b]) (Sorted [c; a; b]) in
      Compare b c (Sorted [a; b; c]) (Sorted [a; b; c]) a_c in
    let b_a :=
      let b_c := Compare b c (Sorted [b; c; a]) (Sorted [b; c; a]) (Sorted [c; b; a]) in
      Compare a c (Sorted [b; a; c]) (Sorted [b; a; c]) b_c in
    Compare a b a_b a_b b_a
  | _ => Sorted names
  end.

(** ** Further worked inputs *)

(** The body of a listing page without [error]. *)
Definition listing_data (members : list CategoryMember.t) (cmcontinue : option string) :
    CategoryMembersApiResponse.t :=
  {| CategoryMembersApiResponse.batchcomplete := None;
     CategoryMembersApiResponse.continue :=
       (λ c, {| ApiContinue.cmcontinue := c; ApiContinue.continue := "-||" |})
         <$> cmcontinue;
     CategoryMembersApiResponse.query :=
       Some {| CategoryMembersQuery.categorymembers := members |};
     CategoryMembersApiResponse.error := None |}.

(** A detail reply that carries an [error] object beside a page that would
    pass the validation. *)
Definition details_error_10 : PageDetailsApiResponse.t :=
  {| PageDetailsApiResponse.batchcomplete := None;
     PageDetailsApiResponse.query := Some {| PagesQuery.pages := [("10", page_10)] |};
     PageDetailsApiResponse.error :=
       Some {| ApiError.code := "internal_api_error";
               ApiError.info := "Exception caught";
               ApiError.star := "See the API help." |} |}.

(** A search result, of which the hook reads the title. *)
Definition search_result (pageid : Z) (title : string) : WikiCategorySearchResult.t :=
  {| WikiCategorySearchResult.ns := 14; WikiCategorySearchResult.title := title;
     WikiCategorySearchResult.pageid := pageid; WikiCategorySearchResult.size := 0;
     WikiCategorySearchResult.wordcount := 0; WikiCategorySearchResult.snippet := EmptyString;
     WikiCategorySearchResult.timestamp := "2025-01-01T00:00:00Z" |}.

Definition search_physics : SearchReply :=
  SearchJson
    {| WikiCategorySearchResponse.batchcomplete := EmptyString;
       WikiCategorySearchResponse.continue := None;
       WikiCategorySearchResponse.query :=
         Some {| WikiCategorySearchQuery.totalhits := 2;
                 WikiCategorySearchQuery.search :=
                   Some [search_result 691 "Category:Physics";
                         search_result 692 "Category:Physicists"] |};
       WikiCategorySearchResponse.error := None |}.

(** The code units of [" Phys "] and of ["Phys"]. *)
Definition term_Phys_spaced : list N := [32; 80; 104; 121; 115; 32]%N.
Definition term_Phys : list N := [80; 104; 121; 115]%N.

(** A network on which every request is rejected. *)
Definition offline : Remote := {| listing := λ _ _, []; details := λ _, Rejected |}.

(** * Part II: properties *)

(** ** The shuffle *)

Section shuffle_facts.
Context {A : Type}.
Implicit Types (array l p : list A) (rnd : list nat).

Lemma swap_length array i j : length (swap array i j) = length array.
Proof.
  unfold swap. destruct (array !! i), (array !! j); trivial.
  by rewrite !length_insert.
Qed.

Lemma swap_Permutation array i j : swap array i j ≡ₚ array.
Proof.
  unfold swap.
  destruct (array !! i) as [ai|] eqn:Hi, (array !! j) as [aj|] eqn:Hj; trivial.
  by apply Permutation_insert_swap.
Qed.

Lemma shuffle_from_length i rnd array :
  length (shuffle_from i rnd array) = length array.
Proof.
  revert rnd array. induction i as [|i IH]; intros [|j rnd] array; simpl; trivial.
  by rewrite IH, swap_length.
Qed.

Lemma shuffle_from_Permutation i rnd array : shuffle_from i rnd array ≡ₚ array.
Proof.
  revert rnd array. induction i as [|i IH]; intros [|j rnd] array; simpl; trivial.
  by rewrite IH, swap_Permutation.
Qed.

Lemma shuffleArray_length rnd array : length (shuffleArray rnd array) = length array.
Proof. apply shuffle_from_length. Qed.

(** A swap below the end of [l] leaves what follows [l] alone. *)
Lemma swap_app l t i j :
  j ≤ i → i < length l → swap (l ++ t) i j = swap l i j ++ t.
Proof.
  intros Hj Hi. unfold swap.
  rewrite !lookup_app_l by lia.
  destruct (lookup_lt_is_Some_2 l i Hi) as [ai ->].
  destruct (lookup_lt_is_Some_2 l j) as [aj ->]; [lia|].
  rewrite insert_app_l by lia.
  rewrite insert_app_l; [done|]. rewrite length_insert. lia.
Qed.

Lemma shuffle_from_app i rnd l t :
  index_draws i rnd → i < length l →
  shuffle_from i rnd (l ++ t) = shuffle_from i rnd l ++ t.
Proof.
  revert rnd l. induction i as [|i IH]; intros [|j rnd] l; simpl; try done.
  intros [Hj Hrnd] Hi.
  rewrite swap_app by lia. apply IH; [done|]. rewrite swap_length. lia.
Qed.

(** The first iteration on an array [l ++ [z]]: position [j] receives [z]
    and the last position receives what was at [j]. *)
Lemma swap_last l z j y :
  (l ++ [z]) !! j = Some y →
  swap (l ++ [z]) (length l) j = <[j := z]> l ++ [y].
Proof.
  intros Hy. unfold swap. rewrite Hy.
  rewrite lookup_app_r, Nat.sub_diag by lia. simpl.
  rewrite insert_app_r_alt, Nat.sub_diag by lia. simpl.
  apply lookup_app_Some in Hy as [Hy|[Hlen Hy]].
  - rewrite insert_app_l by eauto using lookup_lt_Some. done.
  - apply list_lookup_singleton_Some in Hy as [Hj ->].
    assert (j = length l) as -> by lia.
    rewrite insert_app_r_alt, Nat.sub_diag by lia. simpl.
    by rewrite list_insert_ge.
Qed.

Lemma shuffleArray_step l z j rnd y :
  l ≠ [] → index_draws (length l - 1) rnd →
  (l ++ [z]) !! j = Some y →
  shuffleArray (j :: rnd) (l ++ [z]) = shuffleArray rnd (<[j := z]> l) ++ [y].
Proof.
  intros Hl Hrnd Hy. unfold shuffleArray.
  rewrite length_app, length_insert. simpl.
  assert (length l ≠ 0) by (by destruct l).
  replace (length l + 1 - 1) with (S (length l - 1)) by lia. simpl.
  replace (S (length l - 1)) with (length l) by lia.
  rewrite (swap_last _ _ _ _ Hy).
  apply shuffle_from_app; [done|]. rewrite length_insert. lia.
Qed.

(** [all_draws] lists the admissible draw sequences, each one once. *)
Lemma all_draws_spec i rnd : rnd ∈ all_draws i ↔ index_draws i rnd.
Proof.
  revert rnd. induction i as [|i IH]; intros rnd.
  - simpl. rewrite list_elem_of_singleton. by destruct rnd.
  - change (all_draws (S i)) with (j ← seq 0 (S (S i)); (j ::.) <$> all_draws i).
    rewrite list_elem_of_bind. split.
    + intros (j & Hin & Hj). apply list_elem_of_fmap in Hin as (rnd' & -> & Hin).
      apply elem_of_seq in Hj. simpl. split; [lia|]. by apply IH.
    + destruct rnd as [|j rnd']; [done|]. intros [Hj Hrnd].
      exists j. split.
      * apply list_elem_of_fmap. exists rnd'. split; [done|]. by apply IH.
      * apply elem_of_seq. lia.
Qed.

Lemma length_bind_const {X Y} (f : X → list Y) (xs : list X) c :
  (∀ x, length (f x) = c) → length (xs ≫= f) = length xs * c.
Proof.
  intros Hf. induction xs as [|x xs IH]; [done|].
  rewrite bind_cons, length_app, Hf, IH. simpl. lia.
Qed.

Lemma all_draws_length i : length (all_draws i) = fact (S i).
Proof.
  induction i as [|i IH]; [done|].
  change (all_draws (S i)) with (j ← seq 0 (S (S i)); (j ::.) <$> all_draws i).
  rewrite (length_bind_const _ _ (fact (S i))).
  - rewrite length_seq. done.
  - intros j. by rewrite length_fmap.
Qed.

Lemma all_draws_NoDup i : NoDup (all_draws i).
Proof.
  induction i as [|i IH]; [apply NoDup_singleton|].
  change (all_draws (S i)) with (j ← seq 0 (S (S i)); (j ::.) <$> all_draws i).
  apply NoDup_bind.
  - intros j1 j2 rnd _ _ (r1 & -> & _)%list_elem_of_fmap (r2 & Heq & _)%list_elem_of_fmap.
    congruence.
  - intros j _. apply NoDup_fmap_2; [|done]. by intros ?? [=].
  - apply NoDup_seq.
Qed.
End shuffle_facts.

(** *** Counting the draw sequences behind each outcome *)

Section counting.
Context {A : Type} `{EqDecision A}.
Implicit Types (l p : list A) (rnd : list nat).

Lemma filter_ext_elem {X} (P Q : X → Prop) `{∀ x, Decision (P x), ∀ x, Decision (Q x)}
    (xs : list X) :
  (∀ x, x ∈ xs → P x ↔ Q x) → filter P xs = filter Q xs.
Proof.
  induction xs as [|x xs IH]; intros HPQ; [done|].
  rewrite !filter_cons.
  rewrite IH by (intros; apply HPQ; by right).
  destruct (decide (P x)) as [HP|HP], (decide (Q x)) as [HQ|HQ]; try done;
    exfalso; apply (HPQ x) in HP || apply (HPQ x) in HQ; done || by left.
Qed.

Lemma filter_none {X} (P : X → Prop) `{∀ x, Decision (P x)} (xs : list X) :
  (∀ x, x ∈ xs → ¬ P x) → filter P xs = [].
Proof.
  induction xs as [|x xs IH]; intros HP; [done|].
  rewrite filter_cons, decide_False by (apply HP; left).
  apply IH. intros; apply HP; by right.
Qed.

Lemma filter_fmap_length {X Y} (f : X → Y) (P : Y → Prop) `{∀ y, Decision (P y)}
    (xs : list X) :
  length (filter P (f <$> xs)) = length (filter (P ∘ f) xs).
Proof.
  induction xs as [|x xs IH]; [done|].
  rewrite fmap_cons, !filter_cons. simpl.
  destruct (decide (P (f x))); simpl; by rewrite IH.
Qed.

Lemma filter_bind_length {X Y} (f : X → list Y) (P : Y → Prop) `{∀ y, Decision (P y)}
    (xs : list X) :
  length (filter P (xs ≫= f)) = sum_list_with (λ x, length (filter P (f x))) xs.
Proof.
  induction xs as [|x xs IH]; [done|].
  rewrite bind_cons, filter_app, length_app, IH. done.
Qed.

Lemma sum_list_with_ext_elem {X} (f g : X → nat) (xs : list X) :
  (∀ x, x ∈ xs → f x = g x) → sum_list_with f xs = sum_list_with g xs.
Proof.
  induction xs as [|x xs IH]; intros Hfg; [done|]. simpl.
  rewrite Hfg by left. rewrite IH; [done|]. intros; apply Hfg; by right.
Qed.

Lemma occurrences_app x l1 l2 :
  occurrences x (l1 ++ l2) = occurrences x l1 + occurrences x l2.
Proof. unfold occurrences. by rewrite filter_app, length_app. Qed.

Lemma occurrences_Permutation x l1 l2 :
  l1 ≡ₚ l2 → occurrences x l1 = occurrences x l2.
Proof. intros Hl. unfold occurrences. by rewrite Hl. Qed.

Lemma occurrences_cons x y l :
  occurrences x (y :: l) = (if decide (x = y) then 1 else 0) + occurrences x l.
Proof. unfold occurrences. rewrite filter_cons. by destruct (decide (x = y)). Qed.

Lemma stabilizers_Permutation l1 l2 : l1 ≡ₚ l2 → stabilizers l1 = stabilizers l2.
Proof.
  induction 1 as [|x l1 l2 Hl IH|x y l|l1 l2 l3 _ IH1 _ IH2]; simpl.
  - done.
  - by rewrite IH, (occurrences_Permutation _ _ _ Hl).
  - rewrite !occurrences_cons.
    destruct (decide (y = x)) as [Hyx|], (decide (x = y)) as [Hxy|]; subst; try done; lia.
  - congruence.
Qed.

(** The positions of [l] that hold [x] are as many as its occurrences. *)
Lemma positions_occurrences x l c :
  sum_list_with (λ j, if decide (l !! j = Some x) then c else 0) (seq 0 (length l))
  = occurrences x l * c.
Proof.
  induction l as [|a l IH] using rev_ind; [done|].
  rewrite length_app, Nat.add_comm. simpl length at 1.
  rewrite seq_S, sum_list_with_app, occurrences_app, occurrences_cons. simpl.
  rewrite lookup_app_r, Nat.sub_diag by lia. simpl.
  rewrite (sum_list_with_ext_elem _
    (λ j, if decide (l !! j = Some x) then c else 0)).
  - rewrite IH. unfold occurrences at 3. simpl.
    destruct (decide (Some a = Some x)) as [Hax|Hne], (decide (x = a)) as [Heq|];
      try lia; congruence.
  - intros j Hj%elem_of_seq. by rewrite lookup_app_l by lia.
Qed.

(** How the outcomes of an array of two elements or more come from those
    of the arrays one shorter. *)
Lemma outcomes_snoc l z p x :
  l ≠ [] →
  outcomes (l ++ [z]) (p ++ [x]) =
  sum_list_with
    (λ j, if decide ((l ++ [z]) !! j = Some x) then outcomes (<[j := z]> l) p else 0)
    (seq 0 (length (l ++ [z]))).
Proof.
  intros Hl. unfold outcomes at 1.
  assert (length l ≠ 0) by (by destruct l).
  rewrite length_app. simpl length.
  replace (length l + 1 - 1) with (S (length l - 1)) by lia.
  change (all_draws (S ?i)) with (j ← seq 0 (S (S i)); (j ::.) <$> all_draws i).
  rewrite filter_bind_length.
  replace (S (S (length l - 1))) with (length l + 1) by lia.
  apply sum_list_with_ext_elem. intros j Hj%elem_of_seq.
  rewrite filter_fmap_length.
  destruct (lookup_lt_is_Some_2 (l ++ [z]) j) as [y Hy].
  { rewrite length_app. simpl. lia. }
  rewrite Hy. unfold outcomes. rewrite length_insert.
  destruct (decide (Some y = Some x)) as [[= ->]|Hne].
  - f_equal. apply filter_ext_elem. intros rnd Hrnd%all_draws_spec. simpl.
    rewrite (shuffleArray_step l z j rnd x) by done.
    split; [by intros ?%(inj (.++ [x]))|by intros ->].
  - rewrite filter_none; [done|]. intros rnd Hrnd%all_draws_spec. simpl.
    rewrite (shuffleArray_step l z j rnd y) by done.
    intros [_ ?]%app_inj_tail. congruence.
Qed.

(** Every rearrangement [p] of [l] comes out on the same number of draw
    sequences, the number of [stabilizers] of [l]. *)
Lemma outcomes_Permutation l p : p ≡ₚ l → outcomes l p = stabilizers l.
Proof.
  remember (length l) as n eqn:Hn. revert l p Hn.
  induction n as [|n IH]; intros l p Hn Hp.
  { destruct l; [|done]. apply Permutation_nil_r in Hp as ->. done. }
  destruct l as [|z l _] using rev_ind; [done|].
  rewrite length_app in Hn. simpl in Hn.
  destruct (decide (l = [])) as [->|Hl].
  { apply Permutation_singleton_r in Hp as ->. unfold outcomes. simpl.
    by rewrite filter_cons, decide_True. }
  destruct p as [|x p _] using rev_ind.
  { apply Permutation_nil_l in Hp. by destruct l. }
  rewrite outcomes_snoc by done.
  rewrite (stabilizers_Permutation _ (x :: p)).
  2:{ rewrite <-Hp. by rewrite Permutation_app_comm. }
  rewrite (sum_list_with_ext_elem _
    (λ j, if decide ((l ++ [z]) !! j = Some x) then stabilizers p else 0)).
  - rewrite positions_occurrences. simpl.
    rewrite <-(occurrences_Permutation x _ _ Hp), occurrences_app, occurrences_cons.
    rewrite decide_True by done. unfold occurrences at 2. simpl. lia.
  - intros j Hj%elem_of_seq. destruct (decide _) as [Hx|]; [|done].
    assert (<[j := z]> l ≡ₚ p) as Hperm.
    { apply (inj (.++ [x])). rewrite Hp, <-(swap_last _ _ _ _ Hx).
      apply swap_Permutation. }
    rewrite (IH (<[j := z]> l) p); [|rewrite length_insert; lia|by symmetry].
    by apply stabilizers_Permutation.
Qed.

Lemma stabilizers_pos l : 0 < stabilizers l.
Proof. induction l; simpl; lia. Qed.
End counting.

(** *** The comparison shuffle of the earlier variant *)

Section comparator_facts.
Context {A : Type}.
Implicit Types (s : Sorting A) (signs : list bool).

Lemma all_signs_length m : length (all_signs m) = 2 ^ m.
Proof.
  induction m as [|m IH]; [done|].
  change (all_signs (S m)) with (sign ← [true; false]; (sign ::.) <$> all_signs m).
  rewrite (length_bind_const _ _ (2 ^ m)); [simpl; lia|].
  intros sign. by rewrite length_fmap.
Qed.

Lemma all_signs_elem_length m signs : signs ∈ all_signs m → length signs = m.
Proof.
  revert signs. induction m as [|m IH]; intros signs.
  - by intros ->%list_elem_of_singleton.
  - change (all_signs (S m)) with (sign ← [true; false]; (sign ::.) <$> all_signs m).
    intros (sign & (signs' & -> & Hin)%list_elem_of_fmap & _)%list_elem_of_bind.
    simpl. by rewrite (IH signs').
Qed.

(** With answers enough the sort ends, on one of its results. *)
Lemma sort_result_total s signs :
  sort_depth s ≤ length signs →
  ∃ result, sort_result s signs = Some result ∧ result ∈ sort_results s.
Proof.
  revert signs. induction s as [result|a b neg IHneg zero _ pos IHpos]; intros signs Hlen.
  - exists result. split; [done|]. by apply list_elem_of_singleton.
  - destruct signs as [|[] signs]; simpl in *; [lia| |].
    + destruct (IHpos signs) as (result & -> & Hin); [lia|].
      exists result. split; [done|]. apply elem_of_app. by right.
    + destruct (IHneg signs) as (result & -> & Hin); [lia|].
      exists result. split; [done|]. apply elem_of_app. by left.
Qed.

(** A list whose elements all fall into one of the classes [ys], each
    class counted apart. *)
Lemma length_by_class {X Y} `{EqDecision Y} (f : X → Y) (xs : list X) (ys : list Y) :
  NoDup ys → (∀ x, x ∈ xs → f x ∈ ys) →
  length xs = sum_list_with (λ y, length (filter (λ x, f x = y) xs)) ys.
Proof.
  intros Hnd. induction xs as [|x xs IH]; intros Hin.
  - clear. simpl. induction ys as [|y ys IHys]; simpl; [done|]. apply IHys.
  - rewrite (sum_list_with_ext_elem _
      (λ y, (if decide (f x = y) then 1 else 0) + length (filter (λ x, f x = y) xs))).
    2:{ intros y _. rewrite filter_cons. by destruct (decide (f x = y)). }
    assert (∀ (g1 g2 : Y → nat) l,
              sum_list_with (λ y, g1 y + g2 y) l = sum_list_with g1 l + sum_list_with g2 l)
      as Hadd.
    { intros g1 g2 l. induction l as [|y l IHl]; simpl; [done|]. rewrite IHl. lia. }
    rewrite Hadd, <-IH by (intros; apply Hin; by right).
    assert (f x ∈ ys) as Hfx by (apply Hin; left).
    clear IH Hin Hadd. simpl.
    enough (sum_list_with (λ y, if decide (f x = y) then 1 else 0) ys = 1) as -> by done.
    induction ys as [|y ys IHys]; [by apply elem_of_nil in Hfx|].
    apply NoDup_cons in Hnd as [Hy Hnd]. simpl.
    destruct (decide (f x = y)) as [Heq|Hne].
    + rewrite (sum_list_with_ext_elem _ (λ _, 0)).
      * clear. induction ys as [|y' ys IHys]; simpl; [done|]. apply IHys.
      * intros y' Hy'. rewrite decide_False; [done|]. intros Heq'. apply Hy. congruence.
    + apply elem_of_cons in Hfx as [?|Hfx]; [done|]. by apply IHys.
Qed.

Lemma sum_list_with_same {Y} (g : Y → nat) (ys : list Y) c :
  (∀ y, y ∈ ys → g y = c) → sum_list_with g ys = length ys * c.
Proof.
  intros Hg. induction ys as [|y ys IH]; [done|]. simpl.
  rewrite Hg by left. rewrite IH; [done|]. intros; apply Hg; by right.
Qed.

Lemma pow2_not_multiple_of_3 m c : 2 ^ m ≠ 3 * c.
Proof.
  revert c. induction m as [|m IH]; intros c; simpl; [lia|].
  intros Heq. destruct (Nat.Even_or_Odd c) as [[c' ->]|[c' ->]]; [|lia].
  apply (IH c'). lia.
Qed.
End comparator_facts.

Section three_names.
Implicit Types (a b c : string).

Lemma spread_set_three a b c :
  NoDup [a; b; c] → spread_set ∅ [a; b; c] = [a; b; c].
Proof.
  rewrite !NoDup_cons, !elem_of_cons, elem_of_nil. intros (Ha & Hb & _).
  assert (a ∉ (∅ : gset string)) as H1 by apply not_elem_of_empty.
  assert (b ∉ ({[a]} ∪ ∅ : gset string)) as H2.
  { rewrite elem_of_union, elem_of_singleton, elem_of_empty. intros [->|[]]. tauto. }
  assert (c ∉ ({[b]} ∪ ({[a]} ∪ ∅) : gset string)) as H3.
  { rewrite !elem_of_union, !elem_of_singleton, elem_of_empty.
    intros [->|[->|[]]]; tauto. }
  simpl. by rewrite !decide_False.
Qed.

Lemma permutations_three a b c :
  NoDup [a; b; c] → NoDup (permutations [a; b; c]).
Proof.
  rewrite !NoDup_cons, !elem_of_cons, elem_of_nil. intros (Ha & Hb & _).
  assert (a ≠ b ∧ a ≠ c ∧ b ≠ c) as (Hab & Hac & Hbc) by tauto.
  vm_compute permutations.
  rewrite !NoDup_cons, !elem_of_cons, !elem_of_nil.
  repeat split; try (intros H; decompose [or] H; congruence); apply NoDup_nil_2.
Qed.
End three_names.

(** ** The resolver *)

(** Unfolding the state monad. *)
Ltac run_M :=
  repeat progress (
    unfold set_fetchingStatus, set_categoryPageIds, set_categorySubcats, set_shownPageIds,
      setArticles, setLoading, setBuffer, fetch, draws, shuffled, gets, modify;
    unfold mbind, M_bind, mret, M_ret;
    simpl).

Section keys.
Implicit Types (categoryName : string) (memberType : MemberType).

Lemma list_ascii_of_string_app s1 s2 :
  String.list_ascii_of_string (s1 +:+ s2) = String.list_ascii_of_string s1 ++ String.list_ascii_of_string s2.
Proof. induction s1 as [|a s1 IH]; simpl; [done|]. by rewrite IH. Qed.

(** No two calls share a status key. *)
Lemma cacheKey_inj categoryName1 memberType1 categoryName2 memberType2 :
  cacheKey categoryName1 memberType1 = cacheKey categoryName2 memberType2 →
  categoryName1 = categoryName2 ∧ memberType1 = memberType2.
Proof.
  unfold cacheKey. intros Heq%(f_equal String.list_ascii_of_string).
  rewrite !list_ascii_of_string_app in Heq.
  assert (∀ s1 s2, String.list_ascii_of_string s1 = String.list_ascii_of_string s2 → s1 = s2) as Hinj.
  { intros s1 s2 Hs%(f_equal String.string_of_list_ascii).
    by rewrite !String.string_of_list_ascii_of_string in Hs. }
  destruct memberType1, memberType2; simpl in Heq.
  - split; [|done]. apply Hinj. by apply app_inv_tail in Heq.
  - exfalso. apply (f_equal reverse) in Heq. rewrite !reverse_app in Heq. done.
  - exfalso. apply (f_equal reverse) in Heq. rewrite !reverse_app in Heq. done.
  - split; [|done]. apply Hinj. by apply app_inv_tail in Heq.
Qed.

Lemma cacheKey_ne categoryName1 memberType1 categoryName2 memberType2 :
  (categoryName1, memberType1) ≠ (categoryName2, memberType2) →
  cacheKey categoryName1 memberType1 ≠ cacheKey categoryName2 memberType2.
Proof. intros Hne [-> ->]%cacheKey_inj. done. Qed.
End keys.

Section resolver_facts.
Implicit Types (categoryName : string) (memberType : MemberType) (h : Hook).

(** What [cacheRef_store] and the status writes change. *)
Lemma cacheRef_store_lookup memberType categoryName v h :
  cacheRef memberType (cacheRef_store memberType categoryName v h).2 !! categoryName = Some v.
Proof. destruct memberType; simpl; apply lookup_insert_eq. Qed.

Lemma cacheRef_store_lookup_ne memberType categoryName v h memberType' categoryName' :
  (categoryName, memberType) ≠ (categoryName', memberType') →
  cacheRef memberType' (cacheRef_store memberType categoryName v h).2 !! categoryName'
  = cacheRef memberType' h !! categoryName'.
Proof.
  intros Hne. destruct memberType, memberType'; simpl; try done;
    apply lookup_insert_ne; congruence.
Qed.

Lemma cacheRef_store_fetchingStatus memberType categoryName v h :
  fetchingStatus (cacheRef_store memberType categoryName v h).2 = fetchingStatus h.
Proof. by destruct memberType. Qed.

Lemma cacheRef_store_requests memberType categoryName v h :
  requests (cacheRef_store memberType categoryName v h).2 = requests h.
Proof. by destruct memberType. Qed.

Lemma cacheRef_set_fetchingStatus memberType f h :
  cacheRef memberType (set_fetchingStatus f h).2 = cacheRef memberType h.
Proof. by destruct memberType. Qed.

Lemma cacheRef_fetch memberType req h :
  cacheRef memberType (fetch req h).2 = cacheRef memberType h.
Proof. by destruct memberType. Qed.

(** The [finally] block never leaves the key pending. *)
Lemma fetchCategoryMembers_finally_status categoryName memberType h :
  fetchingStatus (fetchCategoryMembers_finally categoryName memberType h).2
    !! cacheKey categoryName memberType
  = match fetchingStatus h !! cacheKey categoryName memberType with
    | Some pending => Some error
    | s => s
    end.
Proof.
  unfold fetchCategoryMembers_finally. run_M.
  destruct (decide _) as [->|Hne]; simpl.
  - apply lookup_insert_eq.
  - by destruct (fetchingStatus h !! _) as [[]|].
Qed.

Lemma fetchCategoryMembers_finally_id categoryName memberType h :
  fetchingStatus h !! cacheKey categoryName memberType ≠ Some pending →
  fetchCategoryMembers_finally categoryName memberType h = ((), h).
Proof.
  intros Hne. unfold fetchCategoryMembers_finally. run_M.
  by rewrite decide_False.
Qed.

(** The [catch] block, spelled out. *)
Lemma fetchCategoryMembers_catch_eq categoryName memberType h :
  fetchCategoryMembers_catch categoryName memberType h =
  (Returned None,
   (cacheRef_store memberType categoryName None
      (set_fetchingStatus (<[cacheKey categoryName memberType := error]>) h).2).2).
Proof.
  unfold fetchCategoryMembers_catch, fetchCategoryMembers_finally.
  destruct memberType; run_M; by rewrite lookup_insert_eq.
Qed.
End resolver_facts.

Section resolver_steps.
Implicit Types (categoryName : string) (memberType : MemberType) (h : Hook).

(** What the call does up to its first [await]. *)
Lemma fetchCategoryMembers_spec categoryName memberType h :
  let key := cacheKey categoryName memberType in
  match fetchCategoryMembers categoryName memberType h with
  | (Returned v, h') =>
    h' = h ∧
    ((cacheRef memberType h !! categoryName = Some v ∧ fetchingStatus h !! key ≠ Some error)
     ∨ (v = None ∧ fetchingStatus h !! key = Some pending))
  | (Awaiting allMembers, h') =>
    allMembers = []
    ∧ fetchingStatus h !! key ≠ Some pending
    ∧ (cacheRef memberType h !! categoryName = None ∨ fetchingStatus h !! key = Some error)
    ∧ fetchingStatus h' = <[key := pending]> (fetchingStatus h)
    ∧ (∀ memberType', cacheRef memberType' h' = cacheRef memberType' h)
    ∧ requests h' = requests h ++ [CategoryMembersRequest memberType categoryName None]
  end.
Proof.
  intros key. unfold fetchCategoryMembers. run_M. fold key.
  destruct (cacheRef memberType h !! categoryName) as [v|] eqn:Hc.
  - destruct (decide (fetchingStatus h !! key ≠ Some error)) as [Hne|Herr]; simpl.
    { split; [done|]. by left. }
    apply dec_stable in Herr.
    rewrite decide_False by congruence. simpl.
    repeat split; try done; try congruence; try (by right); by intros [].
  - destruct (decide (fetchingStatus h !! key = Some pending)) as [Hp|Hp]; simpl.
    { split; [done|]. by right. }
    repeat split; try done; try (by left); by intros [].
Qed.

(** What the call does when a reply arrives. *)
Lemma fetchCategoryMembers_resume_spec categoryName memberType allMembers reply h :
  let key := cacheKey categoryName memberType in
  match fetchCategoryMembers_resume categoryName memberType allMembers reply h with
  | (Returned v, h') =>
    (match v with None => resolution_error reply | Some _ => ¬ resolution_error reply end)
    ∧ fetchingStatus h' = <[key := match v with Some _ => done | None => error end]> (fetchingStatus h)
    ∧ cacheRef memberType h' !! categoryName = Some v
    ∧ (∀ categoryName' memberType',
         (categoryName, memberType) ≠ (categoryName', memberType') →
         cacheRef memberType' h' !! categoryName' = cacheRef memberType' h !! categoryName')
    ∧ requests h' = requests h
  | (Awaiting _, h') =>
    ¬ resolution_error reply
    ∧ fetchingStatus h' = fetchingStatus h
    ∧ (∀ memberType', cacheRef memberType' h' = cacheRef memberType' h)
    ∧ ∃ c, requests h' = requests h ++ [CategoryMembersRequest memberType categoryName (Some c)]
  end.
Proof.
  intros key. unfold fetchCategoryMembers_resume.
  assert (match fetchCategoryMembers_catch categoryName memberType h with
          | (Returned v, h') =>
            v = None
            ∧ fetchingStatus h' = <[key := error]> (fetchingStatus h)
            ∧ cacheRef memberType h' !! categoryName = Some None
            ∧ (∀ categoryName' memberType',
                 (categoryName, memberType) ≠ (categoryName', memberType') →
                 cacheRef memberType' h' !! categoryName' = cacheRef memberType' h !! categoryName')
            ∧ requests h' = requests h
          | (Awaiting _, _) => False
          end) as Hcatch.
  { rewrite fetchCategoryMembers_catch_eq. split; [done|].
    rewrite cacheRef_store_fetchingStatus, cacheRef_store_lookup, cacheRef_store_requests.
    repeat split; try done.
    intros n' t' Hne. rewrite cacheRef_store_lookup_ne by done.
    by rewrite cacheRef_set_fetchingStatus. }
  destruct reply as [|data].
  { destruct (fetchCategoryMembers_catch _ _ _) as [[v|?] h']; [|done].
    destruct Hcatch as (-> & ? & ? & ? & ?). done. }
  destruct (CategoryMembersApiResponse.error data) as [e|] eqn:He.
  { destruct (fetchCategoryMembers_catch _ _ _) as [[v|?] h']; [|done].
    destruct Hcatch as (-> & ? & ? & ? & ?). simpl. rewrite He. done. }
  clear Hcatch.
  assert (¬ resolution_error (Json data)) as Hok.
  { simpl. rewrite He. by intros []. }
  destruct (CategoryMembersApiResponse.continue data) as [c|];
    [destruct (truthy_string _)|].
  - run_M. repeat split; try done. by eexists.
  - unfold fetchCategoryMembers_finally. destruct memberType; run_M;
      fold key; rewrite lookup_insert_eq; simpl;
      repeat split; try done;
      first [ apply lookup_insert_eq
            | intros n' t' Hne; destruct t'; simpl; try done;
              apply lookup_insert_ne; congruence ].
  - unfold fetchCategoryMembers_finally. destruct memberType; run_M;
      fold key; rewrite lookup_insert_eq; simpl;
      repeat split; try done;
      first [ apply lookup_insert_eq
            | intros n' t' Hne; destruct t'; simpl; try done;
              apply lookup_insert_ne; congruence ].
Qed.
End resolver_steps.

Section resolver_invariant.
Implicit Types (r : Resolver) (f g : Flight).

Lemma resolver_inv_mount rnd : resolver_inv {| hook := mount rnd; flights := [] |}.
Proof.
  split; [apply NoDup_nil_2|]. split.
  - intros f Hf. by apply elem_of_nil in Hf.
  - intros n t l Hl. by destruct t.
Qed.

(** Two suspended calls at different positions have different keys. *)
Lemma flight_key_ne r n m f g :
  NoDup (flight_key <$> flights r) →
  flights r !! n = Some f → flights r !! m = Some g → n ≠ m →
  flight_key g ≠ flight_key f.
Proof.
  intros Hnd Hf Hg Hnm Heq. apply Hnm.
  apply (NoDup_lookup _ _ _ (flight_key f) Hnd); rewrite list_lookup_fmap.
  - by rewrite Hf.
  - rewrite Hg. simpl. by rewrite Heq.
Qed.

Lemma resolver_inv_call r categoryName memberType :
  resolver_inv r → resolver_inv (step r (Call categoryName memberType)).
Proof.
  intros (Hnd & Hpend & Hdone). simpl.
  pose proof (fetchCategoryMembers_spec categoryName memberType (hook r)) as Hspec.
  simpl in Hspec.
  destruct (fetchCategoryMembers categoryName memberType (hook r)) as [[v|allMembers] h'].
  { destruct Hspec as [-> _]. done. }
  destruct Hspec as (-> & Hnp & Hmiss & Hst & Hcache & _).
  set (new := Build_Flight categoryName memberType []).
  assert (∀ f, f ∈ flights r → flight_key f ≠ flight_key new) as Hfresh.
  { intros f Hf Heq. apply Hnp. rewrite <-(Hpend f Hf). by rewrite Heq. }
  split; [|split]; simpl.
  - rewrite fmap_app. apply NoDup_app. split; [done|]. split; [|apply NoDup_singleton].
    intros k (f & -> & Hf)%list_elem_of_fmap Hk%list_elem_of_singleton.
    by apply (Hfresh f).
  - intros f [Hf| ->%list_elem_of_singleton]%elem_of_app; rewrite Hst.
    + rewrite lookup_insert_ne by (by apply not_eq_sym, Hfresh). by apply Hpend.
    + apply lookup_insert_eq.
  - intros n t l Hl. rewrite Hcache in Hl. rewrite Hst.
    destruct (decide ((categoryName, memberType) = (n, t))) as [[= <- <-]|Hne].
    + destruct Hmiss as [Hmiss|Herr]; [congruence|].
      apply Hdone in Hl. congruence.
    + rewrite lookup_insert_ne by (by apply cacheKey_ne). by eapply Hdone.
Qed.

Lemma resolver_inv_deliver r n reply :
  resolver_inv r → resolver_inv (step r (Deliver n reply)).
Proof.
  intros (Hnd & Hpend & Hdone). simpl.
  destruct (flights r !! n) as [f|] eqn:Hf; [|done].
  pose proof (fetchCategoryMembers_resume_spec (flight_name f) (flight_type f)
                (flight_members f) reply (hook r)) as Hspec.
  simpl in Hspec.
  destruct (fetchCategoryMembers_resume _ _ _ reply (hook r)) as [[v|allMembers] h'].
  - destruct Hspec as (_ & Hst & Hhit & Hframe & _).
    split; [|split]; simpl.
    + rewrite list_fmap_delete. apply (sublist_NoDup _ _ Hnd), sublist_delete.
    + intros g [m Hg]%list_elem_of_lookup_1.
      assert (∃ m', m' ≠ n ∧ flights r !! m' = Some g) as (m' & Hm' & Hg').
      { destruct (decide (m < n)).
        - exists m. split; [lia|]. by rewrite list_lookup_delete_lt in Hg.
        - exists (S m). split; [lia|]. by rewrite list_lookup_delete_ge in Hg by lia. }
      rewrite Hst, lookup_insert_ne.
      * apply Hpend. by eapply list_elem_of_lookup_2.
      * apply not_eq_sym. by eapply (flight_key_ne r n m').
    + intros name t l Hl. rewrite Hst.
      destruct (decide ((flight_name f, flight_type f) = (name, t))) as [[= <- <-]|Hne].
      * rewrite Hhit in Hl. injection Hl as ->. apply lookup_insert_eq.
      * rewrite Hframe in Hl by done.
        rewrite lookup_insert_ne by (by apply cacheKey_ne). by eapply Hdone.
  - destruct Hspec as (_ & Hst & Hcache & _).
    set (f' := Build_Flight (flight_name f) (flight_type f) allMembers).
    split; [|split]; simpl.
    + rewrite list_fmap_insert. change (flight_key f') with (flight_key f).
      rewrite list_insert_id; [done|]. by rewrite list_lookup_fmap, Hf.
    + intros g [m Hg]%list_elem_of_lookup_1. rewrite Hst.
      destruct (decide (m = n)) as [->|Hne].
      * rewrite list_lookup_insert_eq in Hg by eauto using lookup_lt_Some.
        injection Hg as <-. change (flight_key f') with (flight_key f).
        apply Hpend. by eapply list_elem_of_lookup_2.
      * rewrite list_lookup_insert_ne in Hg by done.
        apply Hpend. by eapply list_elem_of_lookup_2.
    + intros name t l Hl. rewrite Hcache in Hl. rewrite Hst. by eapply Hdone.
Qed.

Lemma resolver_inv_step r e : resolver_inv r → resolver_inv (step r e).
Proof. destruct e; [apply resolver_inv_call|apply resolver_inv_deliver]. Qed.

Lemma resolver_inv_run rnd events : resolver_inv (run rnd events).
Proof.
  unfold run. induction events as [|e events IH] using rev_ind.
  - apply resolver_inv_mount.
  - rewrite foldl_app. simpl. by apply resolver_inv_step.
Qed.

(** While a call for a key is suspended, a further call for that key
    returns [null] and changes nothing. *)
Lemma pending_call_returns r f :
  resolver_inv r → f ∈ flights r →
  fetchCategoryMembers (flight_name f) (flight_type f) (hook r) = (Returned None, hook r).
Proof.
  intros (Hnd & Hpend & Hdone) Hf.
  pose proof (Hpend f Hf) as Hp. unfold flight_key in Hp.
  pose proof (fetchCategoryMembers_spec (flight_name f) (flight_type f) (hook r)) as Hspec.
  simpl in Hspec.
  destruct (fetchCategoryMembers _ _ (hook r)) as [[v|allMembers] h'].
  - destruct Hspec as [-> [[Hv _]|[-> _]]]; [|done].
    destruct v as [l|]; [|done]. apply Hdone in Hv. congruence.
  - destruct Hspec as (_ & Hnp & _). done.
Qed.
End resolver_invariant.

(** ** The detail fetcher *)

Section details_facts.
Implicit Types (page : PageInfo.t) (currentLanguage_id : string).

(** A page passes the [.map] and the [.filter] exactly when it is well
    formed, and then yields its record. *)
Lemma toArticle_wellFormed currentLanguage_id page :
  wellFormed page →
  toArticle currentLanguage_id page = Some (articleRecord currentLanguage_id page)
  ∧ keepArticle (Some (articleRecord currentLanguage_id page)) = true.
Proof.
  intros (Hid & Ht & He & Hu & Hs). unfold toArticle, articleRecord, keepArticle.
  rewrite Hid, Ht, He, Hu. simpl.
  destruct (PageInfo.pageid page), (PageInfo.title page), (PageInfo.extract page),
    (PageInfo.canonicalurl page); done.
Qed.

Lemma toArticle_not_wellFormed currentLanguage_id page :
  ¬ wellFormed page → keepArticle (toArticle currentLanguage_id page) = false.
Proof.
  intros Hnot. unfold toArticle.
  destruct (truthy_number (PageInfo.pageid page)) eqn:Hid; [|done].
  destruct (truthy_string (PageInfo.title page)) eqn:Ht; [|done].
  destruct (truthy_string (PageInfo.extract page)) eqn:He; [|done].
  destruct (truthy_string (PageInfo.canonicalurl page)) eqn:Hu; [|done].
  assert (truthy_string (PageInfo.thumbnail page ≫= PageThumbnail.source) = false) as Hs.
  { apply not_true_is_false. intros Hs. by apply Hnot. }
  simpl.
  destruct (PageInfo.pageid page), (PageInfo.title page), (PageInfo.extract page),
    (PageInfo.canonicalurl page); done.
Qed.

Lemma fetchedArticles_filter currentLanguage_id (values : list PageInfo.t) :
  omap id (filter (λ article, keepArticle article = true)
             (toArticle currentLanguage_id <$> values))
  = articleRecord currentLanguage_id <$> filter wellFormed values.
Proof.
  induction values as [|page values IH]; [done|].
  rewrite fmap_cons, !filter_cons.
  destruct (decide (wellFormed page)) as [Hwf|Hwf].
  - destruct (toArticle_wellFormed currentLanguage_id page Hwf) as [-> Hkeep].
    rewrite decide_True by done. simpl. f_equal. apply IH.
  - rewrite decide_False; [apply IH|].
    by rewrite (toArticle_not_wellFormed _ _ Hwf).
Qed.
End details_facts.

(** ** The production cycle *)

Section cycle_facts.
Implicit Types (h : Hook) (allAvailableIds idsToFetch : list Z).

(** The batch selection, spelled out. *)
Lemma selectBatch_eq allAvailableIds h :
  ∃ h',
    selectBatch allAvailableIds h =
      (take BATCH_SIZE
         (shuffleArray (random h <$> seq 0 (length (candidates allAvailableIds (shownPageIds h)) - 1))
            (candidates allAvailableIds (shownPageIds h))), h')
    ∧ shownPageIds h' =
        (if exhausted allAvailableIds (shownPageIds h) then ∅ else shownPageIds h)
    ∧ articles h' = articles h ∧ buffer h' = buffer h.
Proof.
  unfold selectBatch, candidates. run_M.
  destruct (exhausted allAvailableIds (shownPageIds h)); run_M; eauto.
Qed.

Lemma potentialIds_spec allAvailableIds shown id :
  id ∈ potentialIds allAvailableIds shown ↔ id ∈ allAvailableIds ∧ id ∉ shown.
Proof. unfold potentialIds. rewrite list_elem_of_filter. tauto. Qed.

Lemma exhausted_true allAvailableIds shown :
  exhausted allAvailableIds shown = true ↔
  allAvailableIds ≠ [] ∧ ∀ id, id ∈ allAvailableIds → id ∈ shown.
Proof.
  unfold exhausted. rewrite andb_true_iff, Nat.eqb_eq, Nat.ltb_lt, length_zero_iff_nil.
  split.
  - intros [Hnil Hlen]. split; [by destruct allAvailableIds; simpl in *; try lia|].
    intros id Hid. destruct (decide (id ∈ shown)) as [|Hnot]; [done|].
    assert (id ∈ potentialIds allAvailableIds shown) as Hin by (by apply potentialIds_spec).
    rewrite Hnil in Hin. by apply elem_of_nil in Hin.
  - intros [Hne Hall]. split.
    + apply elem_of_nil_inv. intros id [Hid Hnot]%potentialIds_spec. by apply Hnot, Hall.
    + destruct allAvailableIds; simpl; [done|lia].
Qed.

(** A batch is a prefix of a rearrangement of the candidates. *)
Lemma batch_elem_of rnd (ids : list Z) n id :
  id ∈ take n (shuffleArray rnd ids) → id ∈ ids.
Proof.
  intros Hin%(subseteq_take n). revert Hin. unfold shuffleArray.
  by rewrite shuffle_from_Permutation.
Qed.

(** What [deliver] does to the shown set, the list and the buffer when the
    detail fetch yields nothing. *)
Lemma deliver_nothing again remote currentLanguage_id forBuffer idsToFetch h :
  (fetchArticleDetails remote currentLanguage_id idsToFetch h).1 = [] →
  let h' := (deliver again remote currentLanguage_id forBuffer idsToFetch h).2 in
  shownPageIds h' = list_to_set idsToFetch ∪ shownPageIds h
  ∧ articles h' = articles h ∧ buffer h' = buffer h ∧ loading h' = false.
Proof.
  unfold deliver, fetchArticleDetails.
  destruct (length idsToFetch =? 0); run_M; [done|].
  intros ->. done.
Qed.

(** What a buffered [deliver] does when the detail fetch yields records. *)
Lemma deliver_buffer again remote currentLanguage_id idsToFetch h :
  let newArticles := (fetchArticleDetails remote currentLanguage_id idsToFetch h).1 in
  let h' := (deliver again remote currentLanguage_id true idsToFetch h).2 in
  shownPageIds h' = list_to_set idsToFetch ∪ shownPageIds h
  ∧ articles h' = articles h
  ∧ buffer h' = (if 0 <? length newArticles then newArticles else buffer h).
Proof.
  unfold deliver, fetchArticleDetails.
  destruct (length idsToFetch =? 0); run_M; [done|].
  by destruct (0 <? length _).
Qed.
End cycle_facts.

(** ** What a buffered cycle leaves alone *)

Section frame.

Lemma keeps_ret {X} (x : X) : keeps_articles (mret x).
Proof. by intros h. Qed.

Lemma keeps_bind {X Y} (m : M X) (k : X → M Y) :
  keeps_articles m → (∀ x, keeps_articles (k x)) → keeps_articles (m ≫= k).
Proof.
  intros Hm Hk h. unfold mbind, M_bind.
  specialize (Hm h). destruct (m h) as [x h1]. simpl in Hm.
  by rewrite Hk.
Qed.

Lemma keeps_gets {X} (f : Hook → X) : keeps_articles (gets f).
Proof. by intros h. Qed.

Lemma keeps_setLoading b : keeps_articles (setLoading b).
Proof. by intros h. Qed.

Lemma keeps_setBuffer b : keeps_articles (setBuffer b).
Proof. by intros h. Qed.

Lemma keeps_set_categoryPageIds f : keeps_articles (set_categoryPageIds f).
Proof. by intros h. Qed.

Lemma keeps_set_categorySubcats f : keeps_articles (set_categorySubcats f).
Proof. by intros h. Qed.

Lemma keeps_set_shownPageIds f : keeps_articles (set_shownPageIds f).
Proof. by intros h. Qed.

Lemma keeps_set_fetchingStatus f : keeps_articles (set_fetchingStatus f).
Proof. by intros h. Qed.

Lemma keeps_fetch req : keeps_articles (fetch req).
Proof. by intros h. Qed.

Lemma keeps_draws n : keeps_articles (draws n).
Proof. by intros h. Qed.

Lemma keeps_mapM {X Y} (f : X → M Y) (xs : list X) :
  (∀ x, keeps_articles (f x)) → keeps_articles (mapM f xs).
Proof.
  intros Hf. induction xs as [|x xs IH]; simpl.
  - apply keeps_ret.
  - apply keeps_bind; [done|]. intros y.
    apply keeps_bind; [done|]. intros ys. apply keeps_ret.
Qed.

Lemma keeps_cacheRef_store memberType categoryName v :
  keeps_articles (cacheRef_store memberType categoryName v).
Proof. by destruct memberType. Qed.
End frame.

Create HintDb frame.
#[export] Hint Resolve keeps_ret keeps_gets keeps_setLoading keeps_setBuffer
  keeps_set_categoryPageIds keeps_set_categorySubcats keeps_set_shownPageIds
  keeps_set_fetchingStatus keeps_fetch keeps_draws keeps_cacheRef_store : frame.

(** Goes through a computation along its binds and case distinctions. *)
Ltac frame :=
  repeat first
    [ progress eauto with frame
    | apply keeps_bind; [|intros ?]
    | apply keeps_mapM; intros ?
    | match goal with
      | |- keeps_articles (match ?x with _ => _ end) => destruct x
      | |- keeps_articles (let 'pair _ _ := ?x in _) => destruct x
      end ].

Section frame_cycle.

Lemma keeps_fetchCategoryMembers_finally categoryName memberType :
  keeps_articles (fetchCategoryMembers_finally categoryName memberType).
Proof. unfold fetchCategoryMembers_finally. frame. Qed.

Lemma keeps_fetchCategoryMembers_catch categoryName memberType :
  keeps_articles (fetchCategoryMembers_catch categoryName memberType).
Proof.
  unfold fetchCategoryMembers_catch.
  pose proof keeps_fetchCategoryMembers_finally. frame.
Qed.

Lemma keeps_fetchCategoryMembers categoryName memberType :
  keeps_articles (fetchCategoryMembers categoryName memberType).
Proof. unfold fetchCategoryMembers. frame. Qed.

Lemma keeps_fetchCategoryMembers_resume categoryName memberType allMembers reply :
  keeps_articles (fetchCategoryMembers_resume categoryName memberType allMembers reply).
Proof.
  unfold fetchCategoryMembers_resume.
  pose proof keeps_fetchCategoryMembers_finally.
  pose proof keeps_fetchCategoryMembers_catch. frame.
Qed.

Lemma keeps_fetchCategoryMembers_settle categoryName memberType script allMembers :
  keeps_articles (fetchCategoryMembers_settle categoryName memberType script allMembers).
Proof.
  revert allMembers. pose proof keeps_fetchCategoryMembers_resume.
  induction script as [|reply script IH]; intros allMembers; simpl; frame.
Qed.

Lemma keeps_awaitAll remote calls : keeps_articles (awaitAll remote calls).
Proof.
  unfold awaitAll.
  pose proof keeps_fetchCategoryMembers. pose proof keeps_fetchCategoryMembers_settle.
  frame.
Qed.

Lemma keeps_shuffled {A} (array : list A) : keeps_articles (shuffled array).
Proof. unfold shuffled. frame. Qed.

Lemma keeps_aggregate targetCategories directPageIds allSubcatNames :
  keeps_articles (aggregate targetCategories directPageIds allSubcatNames).
Proof.
  revert directPageIds allSubcatNames.
  induction targetCategories as [|catName rest IH]; intros directPageIds allSubcatNames;
    simpl; [frame|].
  pose proof (@keeps_shuffled Z). frame.
Qed.

Lemma keeps_selectBatch allAvailableIds : keeps_articles (selectBatch allAvailableIds).
Proof. unfold selectBatch. pose proof (@keeps_shuffled Z). frame. Qed.

Lemma keeps_fetchArticleDetails remote currentLanguage_id pageIds :
  keeps_articles (fetchArticleDetails remote currentLanguage_id pageIds).
Proof. unfold fetchArticleDetails. frame. Qed.

Lemma keeps_deliver_buffer again remote currentLanguage_id idsToFetch :
  keeps_articles (deliver again remote currentLanguage_id true idsToFetch).
Proof. unfold deliver. pose proof keeps_fetchArticleDetails. frame. Qed.

(** A buffered cycle never touches the displayed list. *)
Lemma keeps_cycle_buffer again remote currentLanguage_id loading targetCategories :
  keeps_articles (cycle again remote currentLanguage_id loading targetCategories true).
Proof.
  unfold cycle, production, subcatSample, subcatPageIds.
  pose proof keeps_awaitAll. pose proof keeps_aggregate. pose proof (@keeps_shuffled string).
  pose proof keeps_selectBatch. pose proof keeps_deliver_buffer.
  frame.
Qed.
End frame_cycle.

(** ** Between two calls no cycle is in flight *)

Section idle.

Lemma ends_idle_bind {X Y} (m : M X) (k : X → M Y) :
  (∀ x, ends_idle (k x)) → ends_idle (m ≫= k).
Proof.
  intros Hk h. unfold mbind, M_bind. destruct (m h) as [x h1]. apply Hk.
Qed.

Lemma ends_idle_setLoading : ends_idle (setLoading false).
Proof. by intros h. Qed.

Lemma ends_idle_deliver again remote currentLanguage_id forBuffer idsToFetch :
  ends_idle (deliver again remote currentLanguage_id forBuffer idsToFetch).
Proof.
  unfold deliver. repeat (apply ends_idle_bind; intros ?). apply ends_idle_setLoading.
Qed.

Lemma ends_idle_production again remote currentLanguage_id targetCategories forBuffer :
  ends_idle (production again remote currentLanguage_id targetCategories forBuffer).
Proof.
  unfold production.
  repeat first
    [ apply ends_idle_setLoading
    | apply ends_idle_deliver
    | apply ends_idle_bind; intros ?
    | match goal with
      | |- ends_idle (match ?x with _ => _ end) => destruct x
      | |- ends_idle (let 'pair _ _ := ?x in _) => destruct x
      end ].
Qed.

(** A cycle either stops at its guard and changes nothing, or runs and ends
    with [loading] false. *)
Lemma cycle_cases again remote currentLanguage_id loading0 targetCategories forBuffer h :
  (loading0 = true ∨ targetCategories = []) ∧
    cycle again remote currentLanguage_id loading0 targetCategories forBuffer h = ((), h)
  ∨ (loading0 = false ∧ targetCategories ≠ []) ∧
    cycle again remote currentLanguage_id loading0 targetCategories forBuffer h
    = production again remote currentLanguage_id targetCategories forBuffer h.
Proof.
  unfold cycle. destruct loading0; simpl; [left; eauto|].
  destruct targetCategories; simpl; [left; eauto|right; eauto].
Qed.

Lemma cycle_idle again remote currentLanguage_id targetCategories forBuffer h :
  loading h = false →
  let h' := (cycle again remote currentLanguage_id (loading h) targetCategories forBuffer h).2 in
  loading h' = false ∧ (targetCategories = [] → h' = h).
Proof.
  intros Hidle.
  destruct (cycle_cases again remote currentLanguage_id (loading h) targetCategories
              forBuffer h) as [[_ ->]|[[_ Hne] ->]]; simpl; [done|].
  split; [apply ends_idle_production|done].
Qed.

(** After everything that can happen to the hook, [loading] is false, and
    the buffer is empty unless a category is configured. *)
Lemma session_idle rnd currentLanguage_id targetCategories history :
  let h := session rnd currentLanguage_id targetCategories history in
  loading h = false ∧ (targetCategories = [] → buffer h = []).
Proof.
  unfold session. induction history as [|a history IH] using rev_ind; [done|].
  rewrite foldl_app. simpl.
  set (h := foldl _ (mount rnd) history) in *. destruct IH as [Hidle Hbuf].
  destruct a as [remote|remote]; simpl.
  - unfold initialFetch. destruct (_ && _); [|done].
    unfold fetchAndProcessArticles.
    destruct (cycle_idle (cycle (mret ()) remote currentLanguage_id (loading h)
                 targetCategories true) remote currentLanguage_id targetCategories
                 false h Hidle) as [Hidle' Hsame].
    split; [done|]. intros Hnil. rewrite (Hsame Hnil). by apply Hbuf.
  - unfold fetchArticles, getMoreArticles, fetchAndProcessArticles.
    destruct (0 <? length (buffer h)) eqn:Hlen.
    + run_M.
      set (h1 := Build_Hook _ _ _ _ _ _ _ _ _).
      destruct (cycle_idle (cycle (mret ()) remote currentLanguage_id (loading h1)
                   targetCategories true) remote currentLanguage_id targetCategories
                   true h1 Hidle) as [Hidle' Hsame].
      change (loading h) with (loading h1). split; [done|].
      intros Hnil. pose proof (Hsame Hnil) as Heq. unfold mret, M_ret in Heq.
      by rewrite Heq.
    + destruct (cycle_idle (cycle (mret ()) remote currentLanguage_id (loading h)
                   targetCategories true) remote currentLanguage_id targetCategories
                   false h Hidle) as [Hidle' Hsame].
      split; [done|]. intros Hnil. rewrite (Hsame Hnil). by apply Hbuf.
Qed.
End idle.

(** ** Worked examples *)

Section examples.

(** Three iterations on four elements, every draw being [0]. *)
Example shuffleArray_zeros : shuffleArray [0; 0; 0] [1; 2; 3; 4] = [2; 3; 4; 1].
Proof. reflexivity. Qed.

(** Each of the six rearrangements of three different names comes out on
    one of the six draw sequences. *)
Example outcomes_three_names :
  outcomes ["a"; "b"; "c"] <$> permutations ["a"; "b"; "c"] = [1; 1; 1; 1; 1; 1].
Proof. by vm_compute. Qed.

(** With a name that occurs twice, each of the three different
    rearrangements comes out on two of the six draw sequences. *)
Example outcomes_repeated_name :
  outcomes ["a"; "b"; "b"] <$> [["a"; "b"; "b"]; ["b"; "a"; "b"]; ["b"; "b"; "a"]]
  = [2; 2; 2].
Proof. by vm_compute. Qed.

(** The keys of the two kinds of one category. *)
Example cacheKey_physics :
  cacheKey "Category:Physics" page = "Category:Physics-page"
  ∧ cacheKey "Category:Physics" subcat = "Category:Physics-subcat".
Proof. done. Qed.

(** [[...new Set([3, 1, 3, 2, 1])]] *)
Example spread_set_first_insertion : spread_set ∅ [3; 1; 3; 2; 1]%Z = [3; 1; 2]%Z.
Proof. by vm_compute. Qed.

(** The first cycle on the scenario of the specification: the listings are
    fetched page by page, the pool is 1, 2, 3, 4 without repetition, the
    one detail request carries the four identifiers, and the one record
    that passes the validation is displayed; the buffered cycle that
    follows finds every identifier shown, resets, and buffers the record. *)
Example physics_first_cycle :
  let h := (fetchAndProcessArticles physics "en" false ["Category:Physics"] false
              (mount (λ _, 0))).2 in
  take 5 (requests h) =
    [CategoryMembersRequest page "Category:Physics" None;
     CategoryMembersRequest subcat "Category:Physics" None;
     CategoryMembersRequest page "Category:Physics" (Some "page|3");
     CategoryMembersRequest page "Category:Quantum mechanics" None;
     PageDetailsRequest [3; 1; 4; 2]%Z]
  ∧ categoryPageIds h !! "Category:Physics" = Some (Some [1; 2; 3]%Z)
  ∧ categoryPageIds h !! "Category:Quantum mechanics" = Some (Some [3; 4]%Z)
  ∧ categorySubcats h !! "Category:Physics" = Some (Some ["Category:Quantum mechanics"])
  ∧ articles h = [article_10]
  ∧ buffer h = [article_10]
  ∧ loading h = false.
Proof. by vm_compute. Qed.
End examples.

(** * Part III: the properties of the specification *)

(** ** The shuffle and the sampler *)

(** C10.  For every input array and every sequence of random index draws,
    [shuffleArray] returns an array of the same length that holds the same
    elements with the same multiplicities: its output is a permutation of
    its input. *)
Theorem shuffleArray_permutation {A} (rnd : list nat) (array : list A) :
  length (shuffleArray rnd array) = length array ∧ shuffleArray rnd array ≡ₚ array.
Proof. split; [apply shuffleArray_length|apply shuffle_from_Permutation]. Qed.

(** The sampler of [frontend/src/hooks/useWikiArticles.ts] shuffles the
    whole list of subcategory names with [shuffleArray] and keeps a prefix
    of at most [SUBCAT_SAMPLE_SIZE] = 5 names.  The shuffle is unbiased: the
    draw sequences that can occur (draw [j] of iteration [i] with
    [0 <= j <= i]) are those of [all_draws], each listed once, [n!] of them
    for [n] names, and any two rearrangements [p] and [q] of the list come
    out on the same, positive number of them; uniform independent draws
    make the sequences, hence the rearrangements, equally likely. *)
Theorem subcatSample_unbiased (allSubcatNames p q : list string) :
  p ≡ₚ allSubcatNames → q ≡ₚ allSubcatNames →
  (∀ rnd, rnd ∈ all_draws (length allSubcatNames - 1)
          ↔ index_draws (length allSubcatNames - 1) rnd)
  ∧ NoDup (all_draws (length allSubcatNames - 1))
  ∧ length (all_draws (length allSubcatNames - 1)) = fact (length allSubcatNames)
  ∧ 0 < outcomes allSubcatNames p
  ∧ outcomes allSubcatNames p = outcomes allSubcatNames q
  ∧ ∀ h,
      (subcatSample allSubcatNames h).1 =
        take 5 (shuffleArray (random h <$> seq 0 (length allSubcatNames - 1)) allSubcatNames)
      ∧ length (subcatSample allSubcatNames h).1 ≤ 5.
Proof.
  intros Hp Hq.
  split; [intros rnd; apply all_draws_spec|].
  split; [apply all_draws_NoDup|].
  split.
  { rewrite all_draws_length. destruct allSubcatNames as [|name names]; [done|].
    by replace (length (name :: names) - 1) with (length names) by (simpl; lia). }
  rewrite !outcomes_Permutation by done.
  split; [apply stabilizers_pos|]. split; [done|].
  intros h. unfold subcatSample. run_M. split; [done|].
  rewrite length_take. unfold SUBCAT_SAMPLE_SIZE. lia.
Qed.

Lemma subcatSample_unbiased_witness :
  (["b"; "a"; "c"] ≡ₚ ["a"; "b"; "c"] ∧ ["a"; "c"; "b"] ≡ₚ ["a"; "b"; "c"])
  ∧ outcomes ["a"; "b"; "c"] ["b"; "a"; "c"] = outcomes ["a"; "b"; "c"] ["a"; "c"; "b"].
Proof.
  assert (["b"; "a"; "c"] ≡ₚ ["a"; "b"; "c"]) as Hp by apply perm_swap.
  assert (["a"; "c"; "b"] ≡ₚ ["a"; "b"; "c"]) as Hq by (apply perm_skip, perm_swap).
  split; [done|].
  apply (subcatSample_unbiased ["a"; "b"; "c"] ["b"; "a"; "c"] ["a"; "c"; "b"] Hp Hq).
Defined.

(** C2.  The sampler of the earlier variant ([unnamed/part_001]) is biased
    whatever the engine's sort does.  Take three different subcategory
    names and a sort that asks for at most [m] comparisons and ends with a
    rearrangement of its input: each sequence of [m] answers of
    [() => 0.5 - Math.random()] has the same probability, the sample is the
    sorted array, and the six rearrangements do not all come out on the
    same number of sequences, [2 ^ m] not being a multiple of 6.  The
    sampler of the hook in use is unbiased ([subcatSample_unbiased]). *)
Theorem sampledSubcats_biased (sort : list string → Sorting string) (a b c : string) m :
  NoDup [a; b; c] →
  sort_depth (sort [a; b; c]) ≤ m →
  Forall (λ result, result ≡ₚ [a; b; c]) (sort_results (sort [a; b; c])) →
  ¬ ∀ p q, p ≡ₚ [a; b; c] → q ≡ₚ [a; b; c] →
      sample_outcomes sort m [a; b; c] p = sample_outcomes sort m [a; b; c] q.
Proof.
  intros Hnd Hdepth Hperm Hsame.
  set (names := [a; b; c]) in *.
  assert (∀ signs, signs ∈ all_signs m →
            sampledSubcats sort signs names ∈ Some <$> permutations names) as Hclass.
  { intros signs Hlen%all_signs_elem_length.
    unfold sampledSubcats, names. rewrite (spread_set_three a b c Hnd). fold names.
    destruct (sort_result_total (sort names) signs) as (result & -> & Hin); [lia|].
    rewrite Forall_forall in Hperm. specialize (Hperm result Hin).
    apply list_elem_of_fmap. exists result. split.
    - simpl. f_equal. apply take_ge. rewrite (Permutation_length Hperm).
      unfold SUBCAT_SAMPLE_SIZE. simpl. lia.
    - apply permutations_Permutation. by symmetry. }
  pose proof (length_by_class (λ signs, sampledSubcats sort signs names) (all_signs m)
                (Some <$> permutations names)) as Hcount.
  rewrite all_signs_length in Hcount.
  rewrite (sum_list_with_same _ _ (sample_outcomes sort m names names)) in Hcount.
  - rewrite length_fmap in Hcount.
    replace (length (permutations names)) with 6 in Hcount by done.
    apply (pow2_not_multiple_of_3 m (2 * sample_outcomes sort m names names)).
    rewrite Hcount; [lia| |done].
    apply NoDup_fmap_2; [by intros ?? [=]|by apply permutations_three].
  - intros y (p & -> & Hp%permutations_Permutation)%list_elem_of_fmap.
    by apply (Hsame p names).
Qed.

Lemma sampledSubcats_biased_witness :
  (NoDup ["A"; "B"; "C"]
   ∧ sort_depth (insertion_sort_3 ["A"; "B"; "C"]) ≤ 3
   ∧ Forall (λ result, result ≡ₚ ["A"; "B"; "C"])
       (sort_results (insertion_sort_3 ["A"; "B"; "C"])))
  ∧ sample_outcomes insertion_sort_3 3 ["A"; "B"; "C"] ["A"; "B"; "C"] = 2
  ∧ sample_outcomes insertion_sort_3 3 ["A"; "B"; "C"] ["C"; "B"; "A"] = 1
  ∧ ¬ ∀ p q, p ≡ₚ ["A"; "B"; "C"] → q ≡ₚ ["A"; "B"; "C"] →
        sample_outcomes insertion_sort_3 3 ["A"; "B"; "C"] p
        = sample_outcomes insertion_sort_3 3 ["A"; "B"; "C"] q.
Proof.
  assert (NoDup ["A"; "B"; "C"]) as Hnd by (by apply (bool_decide_unpack _)).
  assert (sort_depth (insertion_sort_3 ["A"; "B"; "C"]) ≤ 3) as Hdepth by (simpl; lia).
  assert (Forall (λ result, result ≡ₚ ["A"; "B"; "C"])
            (sort_results (insertion_sort_3 ["A"; "B"; "C"]))) as Hperm
    by (by apply (bool_decide_unpack _)).
  split; [done|]. split; [by vm_compute|]. split; [by vm_compute|].
  exact (sampledSubcats_biased insertion_sort_3 "A" "B" "C" 3 Hnd Hdepth Hperm).
Defined.

(** ** The resolver *)

(** C3.  When the cache holds a result for (category, kind) and the status
    of the key is not [error], a call of [fetchCategoryMembers] for that key
    returns the cached value and leaves the hook as it is; the log of
    requests in particular gains nothing. *)
Theorem fetchCategoryMembers_cached categoryName memberType h v :
  cacheRef memberType h !! categoryName = Some v →
  fetchingStatus h !! cacheKey categoryName memberType ≠ Some error →
  fetchCategoryMembers categoryName memberType h = (Returned v, h)
  ∧ requests (fetchCategoryMembers categoryName memberType h).2 = requests h.
Proof.
  intros Hv Hst.
  assert (fetchCategoryMembers categoryName memberType h = (Returned v, h)) as ->; [|done].
  unfold fetchCategoryMembers. run_M. rewrite Hv. by rewrite decide_True.
Qed.

(** After a resolution that ended well, the next call is such a cache hit. *)
Lemma fetchCategoryMembers_twice categoryName memberType allMembers reply h l h1 :
  fetchCategoryMembers_resume categoryName memberType allMembers reply h
    = (Returned (Some l), h1) →
  fetchCategoryMembers categoryName memberType h1 = (Returned (Some l), h1).
Proof.
  intros Hres.
  pose proof (fetchCategoryMembers_resume_spec categoryName memberType allMembers reply h)
    as Hspec.
  simpl in Hspec. rewrite Hres in Hspec. destruct Hspec as (_ & Hst & Hhit & _).
  unfold fetchCategoryMembers. run_M. rewrite Hhit, Hst, lookup_insert_eq.
  by rewrite decide_True.
Qed.

Lemma fetchCategoryMembers_cached_witness :
  let h := (fetchCategoryMembers_settle "Category:Physics" page
              [listing_page [member 1 "One"; member 2 "Two"] None] []
              (fetchCategoryMembers "Category:Physics" page (mount (λ _, 0))).2).2 in
  (cacheRef page h !! "Category:Physics" = Some (Some [1; 2]%Z)
   ∧ fetchingStatus h !! cacheKey "Category:Physics" page ≠ Some error)
  ∧ fetchCategoryMembers "Category:Physics" page h = (@Returned page (Some [1; 2]%Z), h)
  ∧ requests (fetchCategoryMembers "Category:Physics" page h).2 = requests h.
Proof.
  intros h.
  assert (cacheRef page h !! "Category:Physics" = Some (Some [1; 2]%Z)) as Hv
    by (by vm_compute).
  assert (fetchingStatus h !! cacheKey "Category:Physics" page ≠ Some error) as Hst
    by (by vm_compute).
  split; [done|].
  apply (fetchCategoryMembers_cached "Category:Physics" page h
           (Some [1; 2]%Z : option (list (Member page))) Hv Hst).
Defined.

(** C4.  At every moment (after any sequence of calls and replies), the
    suspended calls have different keys, so at most one resolution is
    pending per (category, kind).  While a call [f] is suspended its key is
    [pending], and a second call for the same key returns [null] and leaves
    the hook and the calls in flight as they are: it logs no request, and
    the resolution in flight remains the only one.  In general a call made
    twice in a row leaves what the call made once leaves. *)
Theorem pending_key_single_resolution rnd events f :
  f ∈ flights (run rnd events) →
  let r := run rnd events in
  NoDup (flight_key <$> flights r)
  ∧ fetchingStatus (hook r) !! flight_key f = Some pending
  ∧ fetchCategoryMembers (flight_name f) (flight_type f) (hook r) = (Returned None, hook r)
  ∧ step r (Call (flight_name f) (flight_type f)) = r
  ∧ ∀ categoryName memberType,
      step (step r (Call categoryName memberType)) (Call categoryName memberType)
      = step r (Call categoryName memberType).
Proof.
  intros Hf r. pose proof (resolver_inv_run rnd events) as Hinv. fold r in Hinv, Hf.
  assert (∀ r' g, resolver_inv r' → g ∈ flights r' →
            step r' (Call (flight_name g) (flight_type g)) = r') as Hnoop.
  { intros r' g Hinv' Hg. simpl. rewrite (pending_call_returns r' g) by done.
    by destruct r'. }
  split; [apply Hinv|]. split; [by apply Hinv|].
  split; [by apply pending_call_returns|]. split; [by apply Hnoop|].
  intros categoryName memberType.
  pose proof (resolver_inv_call r categoryName memberType Hinv) as Hinv1.
  pose proof (fetchCategoryMembers_spec categoryName memberType (hook r)) as Hspec.
  revert Hinv1. simpl in *.
  destruct (fetchCategoryMembers categoryName memberType (hook r))
    as [[v|allMembers] h'] eqn:Hcall; intros Hinv1.
  - destruct Hspec as [-> _]. simpl. by rewrite Hcall.
  - apply (Hnoop _ (Build_Flight categoryName memberType allMembers) Hinv1).
    simpl. apply elem_of_app. right. by apply list_elem_of_singleton.
Qed.

Lemma pending_key_single_resolution_witness :
  let f := Build_Flight "Category:Physics" page [] in
  let r := run (λ _, 0) [Call "Category:Physics" page] in
  f ∈ flights r
  ∧ fetchCategoryMembers "Category:Physics" page (hook r) = (Returned None, hook r)
  ∧ step r (Call "Category:Physics" page) = r.
Proof.
  intros f r.
  assert (f ∈ flights r) as Hf by (vm_compute; left).
  split; [done|].
  pose proof (pending_key_single_resolution (λ _, 0) [Call "Category:Physics" page] f Hf)
    as (_ & _ & Hcall & Hstep & _).
  split; [exact Hcall|exact Hstep].
Defined.

(** C6.  When the reply to a request of a resolution is an error (the
    request was rejected, or the body carries an [error] object), the call
    returns [null], the cache of the key holds [null] and its status is
    [error]; the next call for the key does not take the cached [null] but
    sends the first request again.  Whenever a call returns after a reply
    its status is [done] or [error], and the [finally] block turns a status
    that is still [pending] into [error]. *)
Theorem fetchCategoryMembers_error categoryName memberType allMembers reply h :
  resolution_error reply →
  let key := cacheKey categoryName memberType in
  (∃ h1 h2,
     fetchCategoryMembers_resume categoryName memberType allMembers reply h
       = (Returned None, h1)
     ∧ cacheRef memberType h1 !! categoryName = Some None
     ∧ fetchingStatus h1 !! key = Some error
     ∧ fetchCategoryMembers categoryName memberType h1 = (Awaiting [], h2)
     ∧ requests h2 = requests h1 ++ [CategoryMembersRequest memberType categoryName None]
     ∧ fetchingStatus h2 !! key = Some pending)
  ∧ (∀ allMembers' reply' h0 v h',
       fetchCategoryMembers_resume categoryName memberType allMembers' reply' h0
         = (Returned v, h') →
       fetchingStatus h' !! key = Some done ∨ fetchingStatus h' !! key = Some error)
  ∧ (∀ h0, fetchingStatus h0 !! key = Some pending →
       fetchingStatus (fetchCategoryMembers_finally categoryName memberType h0).2 !! key
       = Some error).
Proof.
  intros Herr key. split; [|split].
  - pose proof (fetchCategoryMembers_resume_spec categoryName memberType allMembers reply h)
      as Hspec.
    simpl in Hspec. fold key in Hspec.
    destruct (fetchCategoryMembers_resume _ _ _ reply h) as [[[l|]|?] h1];
      [by destruct Hspec| |by destruct Hspec].
    destruct Hspec as (_ & Hst & Hhit & _ & _).
    pose proof (fetchCategoryMembers_spec categoryName memberType h1) as Hspec.
    simpl in Hspec. fold key in Hspec.
    assert (fetchingStatus h1 !! key = Some error) as Hkey.
    { rewrite Hst. apply lookup_insert_eq. }
    destruct (fetchCategoryMembers categoryName memberType h1) as [[v|l] h2] eqn:Hcall.
    + exfalso. destruct Hspec as [_ [[_ ?]|[_ ?]]]; congruence.
    + destruct Hspec as (-> & _ & _ & Hst2 & _ & Hreq).
      exists h1, h2.
      split; [done|]. split; [done|]. split; [done|]. split; [done|]. split; [done|].
      rewrite Hst2. apply lookup_insert_eq.
  - intros allMembers' reply' h0 v h' Hres.
    pose proof (fetchCategoryMembers_resume_spec categoryName memberType allMembers' reply' h0)
      as Hspec.
    simpl in Hspec. fold key in Hspec. rewrite Hres in Hspec.
    destruct Hspec as (_ & Hst & _). rewrite Hst, lookup_insert_eq.
    destruct v; [by left|by right].
  - intros h0 Hp. subst key. rewrite fetchCategoryMembers_finally_status. by rewrite Hp.
Qed.

Lemma fetchCategoryMembers_error_witness :
  resolution_error listing_error
  ∧ ∃ h1 h2,
      fetchCategoryMembers_resume "Category:Physics" subcat [] listing_error
        (fetchCategoryMembers "Category:Physics" subcat (mount (λ _, 0))).2
        = (Returned None, h1)
      ∧ cacheRef subcat h1 !! "Category:Physics" = Some None
      ∧ fetchingStatus h1 !! cacheKey "Category:Physics" subcat = Some error
      ∧ fetchCategoryMembers "Category:Physics" subcat h1 = (Awaiting [], h2)
      ∧ requests h2 = requests h1 ++ [CategoryMembersRequest subcat "Category:Physics" None]
      ∧ fetchingStatus h2 !! cacheKey "Category:Physics" subcat = Some pending.
Proof.
  assert (resolution_error listing_error) as Herr by (simpl; eauto).
  split; [done|].
  exact (proj1 (fetchCategoryMembers_error "Category:Physics" subcat [] listing_error
                  (fetchCategoryMembers "Category:Physics" subcat (mount (λ _, 0))).2 Herr)).
Defined.

(** ** The detail fetcher *)

(** C8.  For every detail response without an [error] object,
    [fetchArticleDetails] returns exactly one ArticleRecord per response
    page that has a page identifier, a title, an extract, a canonical URL
    and a thumbnail source ([wellFormed]: each of these values is truthy),
    in the order of the pages, and drops every other page, among them
    every page that lacks one of these fields.  A response with one
    well-formed page and one page without a thumbnail yields the one record
    of the former. *)
Theorem fetchArticleDetails_validation currentLanguage_id data :
  PageDetailsApiResponse.error data = None →
  let values :=
    match PageDetailsApiResponse.query data with
    | Some q => (PagesQuery.pages q).*2
    | None => []
    end in
  let result := fetchArticleDetails_resume currentLanguage_id (Json data) in
  (∀ remote pageIds h, pageIds ≠ [] → details remote pageIds = Json data →
     (fetchArticleDetails remote currentLanguage_id pageIds h).1 = result)
  ∧ result = articleRecord currentLanguage_id <$> filter wellFormed values
  ∧ length result = length (filter wellFormed values)
  ∧ (∀ article, article ∈ result →
       ∃ page, page ∈ values ∧ wellFormed page
               ∧ article = articleRecord currentLanguage_id page)
  ∧ (∀ page,
       PageInfo.pageid page = None ∨ PageInfo.title page = None
       ∨ PageInfo.extract page = None ∨ PageInfo.canonicalurl page = None
       ∨ PageInfo.thumbnail page ≫= PageThumbnail.source = None →
       ¬ wellFormed page)
  ∧ (∀ good bad, wellFormed good → PageInfo.thumbnail bad = None →
       values = [good; bad] ∨ values = [bad; good] →
       result = [articleRecord currentLanguage_id good]).
Proof.
  intros Herr values result.
  assert (result = articleRecord currentLanguage_id <$> filter wellFormed values) as Hres.
  { unfold result, fetchArticleDetails_resume, fetchedArticles. rewrite Herr.
    apply fetchedArticles_filter. }
  split.
  { intros remote pageIds h' Hne Hreply. unfold fetchArticleDetails.
    destruct pageIds; [done|]. simpl. by rewrite Hreply. }
  split; [done|]. split; [by rewrite Hres, length_fmap|]. split; [|split].
  - intros article Hin. rewrite Hres in Hin.
    apply list_elem_of_fmap in Hin as (page & -> & [Hwf Hin]%list_elem_of_filter).
    by exists page.
  - intros page Hmissing (Hid & Ht & He & Hu & Hs).
    destruct Hmissing as [H|[H|[H|[H|H]]]]; rewrite H in *; done.
  - intros good bad Hgood Hbad Hvalues. rewrite Hres.
    assert (¬ wellFormed bad) as Hnot.
    { intros (_ & _ & _ & _ & Hs). by rewrite Hbad in Hs. }
    destruct Hvalues as [-> | ->]; rewrite !filter_cons, filter_nil;
      destruct (decide (wellFormed good)), (decide (wellFormed bad)); done.
Qed.

Lemma fetchArticleDetails_validation_witness :
  PageDetailsApiResponse.error details_10_11 = None
  ∧ fetchArticleDetails_resume "en" (Json details_10_11) = [article_10].
Proof.
  split; [done|].
  destruct (fetchArticleDetails_validation "en" details_10_11 eq_refl)
    as (_ & _ & _ & _ & _ & Hscenario).
  rewrite (Hscenario page_10 page_11); [done| |done|by left].
  repeat split.
Defined.

(** ** The production cycle *)

(** C7.  For every pool and shown set, the selected batch has at most
    [BATCH_SIZE] = 40 identifiers, and exactly as many as the smaller of
    [BATCH_SIZE] and the number of candidates: the unseen identifiers of the
    pool or, after the reset, the whole pool. *)
Theorem selectBatch_length allAvailableIds h :
  length (selectBatch allAvailableIds h).1 ≤ 40
  ∧ length (selectBatch allAvailableIds h).1
    = min BATCH_SIZE (length (candidates allAvailableIds (shownPageIds h))).
Proof.
  destruct (selectBatch_eq allAvailableIds h) as (h' & -> & _). cbn [fst].
  rewrite !length_take, !shuffleArray_length. unfold BATCH_SIZE. lia.
Qed.

(** C5.  An identifier of the selected batch is in the shown set only when
    the pool had no unseen identifier at the call; otherwise the shown set
    is left as it is.  When every identifier of a non-empty pool is shown,
    the shown set is emptied and the batch is a prefix of [BATCH_SIZE]
    identifiers, or all of them, of a rearrangement of the whole pool. *)
Theorem selectBatch_unseen allAvailableIds h :
  let shown := shownPageIds h in
  let idsToFetch := (selectBatch allAvailableIds h).1 in
  let h' := (selectBatch allAvailableIds h).2 in
  (∀ id, id ∈ idsToFetch → id ∈ shown → potentialIds allAvailableIds shown = [])
  ∧ (potentialIds allAvailableIds shown ≠ [] →
       shownPageIds h' = shown
       ∧ ∀ id, id ∈ idsToFetch → id ∈ allAvailableIds ∧ id ∉ shown)
  ∧ (allAvailableIds ≠ [] → (∀ id, id ∈ allAvailableIds → id ∈ shown) →
       shownPageIds h' = ∅
       ∧ length idsToFetch = min BATCH_SIZE (length allAvailableIds)
       ∧ ∃ shuffledIds, shuffledIds ≡ₚ allAvailableIds
                        ∧ idsToFetch = take BATCH_SIZE shuffledIds).
Proof.
  intros shown idsToFetch h'. subst idsToFetch h'.
  destruct (selectBatch_eq allAvailableIds h) as (h' & -> & Hshown & _). cbn [fst snd].
  fold shown in Hshown |- *. unfold candidates.
  assert (potentialIds allAvailableIds shown ≠ [] →
          exhausted allAvailableIds shown = false) as Hunseen.
  { intros Hne. unfold exhausted.
    destruct (potentialIds allAvailableIds shown); [done|]. done. }
  split; [|split].
  - intros id Hin Hid.
    destruct (decide (potentialIds allAvailableIds shown = [])) as [|Hne]; [done|].
    rewrite (Hunseen Hne) in Hin.
    apply batch_elem_of, potentialIds_spec in Hin as [_ Hnot]. done.
  - intros Hne. rewrite (Hunseen Hne) in Hshown |- *. split; [done|].
    intros id Hin. by apply batch_elem_of, potentialIds_spec in Hin.
  - intros Hne Hall.
    assert (exhausted allAvailableIds shown = true) as Hex by (by apply exhausted_true).
    rewrite Hex in Hshown |- *. split; [done|]. split.
    + by rewrite length_take, shuffleArray_length.
    + eexists. split; [|done]. apply shuffle_from_Permutation.
Qed.

(** C1, as the claim states it, fails.  One category of 41 pages; every
    detail request is rejected.  The first cycle attempts 40 identifiers
    and gets no record, yet all 40 are in the shown set afterwards; the next
    cycle can only select the one identifier that was not attempted. *)
Lemma failed_fetch_ids_not_selectable :
  let cycle1 := fetchAndProcessArticles big_category_no_details "en" false
                  ["Category:Physics"] false in
  let h0 := mount (λ _, 0) in
  let h1 := (cycle1 h0).2 in
  let h2 := (cycle1 h1).2 in
  ∃ idsToFetch id,
    last (requests h1) = Some (PageDetailsRequest idsToFetch)
    ∧ length idsToFetch = 40
    ∧ (fetchArticleDetails big_category_no_details "en" idsToFetch h0).1 = []
    ∧ articles h1 = [] ∧ buffer h1 = []
    ∧ Forall (λ id, id ∉ shownPageIds h0) idsToFetch
    ∧ Forall (λ id, id ∈ shownPageIds h1) idsToFetch
    ∧ last (requests h2) = Some (PageDetailsRequest [id])
    ∧ id ∉ idsToFetch.
Proof.
  intros cycle1 h0 h1 h2.
  exists (Z.of_nat <$> [3; 4; 5; 6; 7; 8; 9; 10; 11; 12; 13; 14; 15; 16; 17; 18; 19; 20; 21;
                        22; 23; 24; 25; 26; 27; 28; 29; 30; 31; 32; 33; 34; 35; 36; 37; 38;
                        39; 40; 41; 1]), 2%Z.
  split; [by vm_compute|]. split; [done|]. split; [done|].
  split; [by vm_compute|]. split; [by vm_compute|].
  split; [by apply (bool_decide_unpack _); vm_compute|].
  split; [by apply (bool_decide_unpack _); vm_compute|].
  split; [by vm_compute|].
  by apply (bool_decide_unpack _); vm_compute.
Qed.

(** C1, as the code has it.  Once [fetchArticleDetails] has returned for
    the selected batch, every identifier of the batch is added to the shown
    set, whether or not records came back: after a fetch that yields an
    empty list, and equally after a buffered cycle whose fetch yields
    records, the shown set is its former value plus the batch.  After a
    fetch that yields an empty list the displayed list and the buffer are
    as before, and none of the attempted identifiers is selected again as
    long as the pool has an identifier that is not shown. *)
Theorem failed_fetch_marks_batch again remote currentLanguage_id forBuffer idsToFetch h :
  let newArticles := (fetchArticleDetails remote currentLanguage_id idsToFetch h).1 in
  newArticles = [] ∨ forBuffer = true →
  let h' := (deliver again remote currentLanguage_id forBuffer idsToFetch h).2 in
  shownPageIds h' = list_to_set idsToFetch ∪ shownPageIds h
  ∧ articles h' = articles h
  ∧ (newArticles = [] → buffer h' = buffer h)
  ∧ ∀ allAvailableIds id,
      potentialIds allAvailableIds (shownPageIds h') ≠ [] →
      id ∈ (selectBatch allAvailableIds h').1 → id ∉ idsToFetch.
Proof.
  intros newArticles Hcase h'.
  assert (shownPageIds h' = list_to_set idsToFetch ∪ shownPageIds h
          ∧ articles h' = articles h
          ∧ (newArticles = [] → buffer h' = buffer h)) as (Hshown & Harticles & Hbuffer).
  { destruct (decide (newArticles = [])) as [Hnone|Hsome].
    - destruct (deliver_nothing again remote currentLanguage_id forBuffer idsToFetch h Hnone)
        as (? & ? & ? & _). done.
    - destruct Hcase as [?| ->]; [done|].
      destruct (deliver_buffer again remote currentLanguage_id idsToFetch h) as (? & ? & _).
      done. }
  split; [done|]. split; [done|]. split; [done|].
  intros allAvailableIds id Hne Hin Hid.
  destruct (selectBatch_eq allAvailableIds h') as (h'' & Heq & _).
  rewrite Heq in Hin. cbn [fst] in Hin. unfold candidates, exhausted in Hin.
  destruct (potentialIds allAvailableIds (shownPageIds h')) eqn:Hpot; [done|].
  simpl in Hin. apply batch_elem_of in Hin. rewrite <-Hpot in Hin.
  apply potentialIds_spec in Hin as [_ Hnot]. apply Hnot.
  rewrite Hshown. apply elem_of_union. left. by apply elem_of_list_to_set.
Qed.

Lemma failed_fetch_marks_batch_witness :
  let h := mount (λ _, 0) in
  ((fetchArticleDetails big_category_no_details "en" [1; 2; 3]%Z h).1 = [] ∨ false = true)
  ∧ shownPageIds (deliver (mret ()) big_category_no_details "en" false [1; 2; 3]%Z h).2
    = list_to_set [1; 2; 3]%Z ∪ shownPageIds h.
Proof.
  intros h.
  assert ((fetchArticleDetails big_category_no_details "en" [1; 2; 3]%Z h).1 = []
          ∨ false = true) as Hnone by (left; reflexivity).
  split; [done|].
  exact (proj1 (failed_fetch_marks_batch (mret ()) big_category_no_details "en" false
                  [1; 2; 3]%Z h Hnone)).
Defined.

(** ** The consumer call *)

(** C9.  When the buffer is not empty, the call of [fetchArticles] puts the
    buffered records, in their order, at the end of the displayed list,
    empties the buffer and calls [fetchAndProcessArticles(true)] from
    there.  Past the guard of that call (no cycle in flight, a category
    configured) this is a buffered production cycle, and the guard is
    passed in every state that a session of the hook reaches.  A buffered
    cycle leaves the displayed list alone, so the list ends as its former
    self followed by the buffered records. *)
Theorem getMoreArticles_swaps_buffer remote currentLanguage_id targetCategories h :
  buffer h ≠ [] →
  let swapped := (setBuffer [] (setArticles (λ prev, prev ++ buffer h) h).2).2 in
  let again :=
    cycle (mret ()) remote currentLanguage_id (loading h) targetCategories true in
  articles swapped = articles h ++ buffer h
  ∧ buffer swapped = []
  ∧ fetchArticles remote currentLanguage_id targetCategories h
    = fetchAndProcessArticles remote currentLanguage_id (loading h) targetCategories true
        swapped
  ∧ (loading h = false → targetCategories ≠ [] →
       fetchArticles remote currentLanguage_id targetCategories h
       = production again remote currentLanguage_id targetCategories true swapped)
  ∧ (∀ rnd history, h = session rnd currentLanguage_id targetCategories history →
       fetchArticles remote currentLanguage_id targetCategories h
       = production again remote currentLanguage_id targetCategories true swapped)
  ∧ articles (fetchArticles remote currentLanguage_id targetCategories h).2
    = articles h ++ buffer h.
Proof.
  intros Hbuf swapped again.
  assert (fetchArticles remote currentLanguage_id targetCategories h
          = fetchAndProcessArticles remote currentLanguage_id (loading h) targetCategories
              true swapped) as Hcall.
  { unfold fetchArticles, getMoreArticles.
    destruct (0 <? length (buffer h)) eqn:Hlen; [done|].
    apply Nat.ltb_ge in Hlen. destruct (buffer h); [done|simpl in Hlen; lia]. }
  assert (loading h = false → targetCategories ≠ [] →
          fetchArticles remote currentLanguage_id targetCategories h
          = production again remote currentLanguage_id targetCategories true swapped)
    as Hstart.
  { intros Hloading Hcats. rewrite Hcall. unfold fetchAndProcessArticles, cycle at 1.
    rewrite Hloading. by destruct targetCategories. }
  split; [done|]. split; [done|]. split; [done|]. split; [done|]. split.
  - intros rnd history ->.
    destruct (session_idle rnd currentLanguage_id targetCategories history)
      as [Hidle Hnone].
    apply Hstart; [done|]. intros Hnil. by apply Hbuf, Hnone.
  - rewrite Hcall. unfold fetchAndProcessArticles. by rewrite keeps_cycle_buffer.
Qed.

Lemma getMoreArticles_swaps_buffer_witness :
  let h := session (λ _, 0) "en" ["Category:Physics"] [Effect physics] in
  buffer h ≠ []
  ∧ articles h = [article_10]
  ∧ articles (fetchArticles physics "en" ["Category:Physics"] h).2
    = [article_10] ++ buffer h.
Proof.
  intros h.
  assert (buffer h ≠ []) as Hbuf by (by vm_compute).
  assert (articles h = [article_10]) as Harticles by (by vm_compute).
  split; [done|]. split; [done|]. rewrite <-Harticles.
  exact (proj2 (proj2 (proj2 (proj2 (proj2
    (getMoreArticles_swaps_buffer physics "en" ["Category:Physics"] h Hbuf)))))).
Defined.

(** * Part IV: further properties of the code *)

(** ** What a computation leaves alone *)

Section stays_facts.
Context {Y : Type} (f : Hook → Y).

Lemma stays_ret {X} (x : X) : stays f (mret x).
Proof. by intros h. Qed.

Lemma stays_bind {X Z} (m : M X) (k : X → M Z) :
  stays f m → (∀ x, stays f (k x)) → stays f (m ≫= k).
Proof.
  intros Hm Hk h. unfold mbind, M_bind.
  specialize (Hm h). destruct (m h) as [x h1]. simpl in Hm.
  by rewrite Hk.
Qed.

Lemma stays_gets {X} (g : Hook → X) : stays f (gets g).
Proof. by intros h. Qed.

Lemma stays_mapM {X Z} (g : X → M Z) (xs : list X) :
  (∀ x, stays f (g x)) → stays f (mapM g xs).
Proof.
  intros Hg. induction xs as [|x xs IH]; simpl.
  - apply stays_ret.
  - apply stays_bind; [done|]. intros y.
    apply stays_bind; [done|]. intros ys. apply stays_ret.
Qed.

End stays_facts.

Lemma preserves_bind {X Z} (I : Hook → Prop) (m : M X) (k : X → M Z) :
  preserves I m → (∀ x, preserves I (k x)) → preserves I (m ≫= k).
Proof.
  intros Hm Hk h Hh. unfold mbind, M_bind.
  specialize (Hm h Hh). destruct (m h) as [x h1]. by apply Hk.
Qed.

(** Goes through a computation along its binds and case distinctions; the
    writes are looked at one by one. *)
Ltac stays :=
  repeat first
    [ assumption
    | match goal with
      | H : ∀ x, stays _ _ |- _ => apply H
      | H : ∀ x y, stays _ _ |- _ => apply H
      | H : ∀ x y z, stays _ _ |- _ => apply H
      | H : ∀ x y z w, stays _ _ |- _ => apply H
      end
    | apply stays_ret
    | apply stays_gets
    | apply stays_bind; [|intros ?]
    | apply stays_mapM; intros ?
    | match goal with
      | |- stays _ (match ?x with _ => _ end) => destruct x
      | |- stays _ (let 'pair _ _ := ?x in _) => destruct x
      end
    | by intros ? ].

(** ** The shuffle *)

Section shuffle_more.
Context {A : Type} `{EqDecision A}.
Implicit Types (array p : list A) (rnd : list nat).

(** X1.  [shuffleArray] is an unbiased shuffle of any array, whatever its
    elements: of the [n!] sequences of index draws that can occur for an
    array of [n] elements, each rearrangement [p] of the array comes out on
    the same number, the product of the factorials of the multiplicities
    (one sequence each when the elements are different), and an array that
    is no rearrangement comes out on none. *)
Theorem shuffleArray_uniform array p :
  length (all_draws (length array - 1)) = fact (length array)
  ∧ ((p ≡ₚ array ∧ outcomes array p = stabilizers array ∧ 0 < stabilizers array)
     ∨ (¬ p ≡ₚ array ∧ outcomes array p = 0)).
Proof.
  split.
  { rewrite all_draws_length. destruct array as [|x array]; simpl; [done|].
    by rewrite Nat.sub_0_r. }
  destruct (decide (outcomes array p = 0)) as [Hzero|Hpos].
  - right. split; [|done]. intros Hp.
    pose proof (outcomes_Permutation array p Hp) as Heq.
    pose proof (stabilizers_pos array). lia.
  - left.
    assert (p ≡ₚ array) as Hp.
    { unfold outcomes in Hpos.
      destruct (filter _ _) as [|rnd rnds] eqn:Hf; [done|].
      assert (rnd ∈ rnd :: rnds) as Hin by left.
      rewrite <-Hf in Hin. apply list_elem_of_filter in Hin as [<- _].
      unfold shuffleArray. apply shuffle_from_Permutation. }
    split; [done|]. split; [by apply outcomes_Permutation|apply stabilizers_pos].
Qed.
End shuffle_more.

(** ** The resolver: keys, pagination, and what holds at every moment *)

Section keys_more.

(** X2.  The status key [`${categoryName}-${memberType}`] tells the
    category and the kind apart, whatever characters the category name
    holds: two calls have the same status key only when they are for the
    same category and the same kind. *)
Theorem cacheKey_distinct categoryName1 memberType1 categoryName2 memberType2 :
  cacheKey categoryName1 memberType1 = cacheKey categoryName2 memberType2
  ↔ categoryName1 = categoryName2 ∧ memberType1 = memberType2.
Proof. split; [apply cacheKey_inj|by intros [-> ->]]. Qed.
End keys_more.

Section resolver_more.
Implicit Types (categoryName : string) (memberType : MemberType) (h : Hook).
Implicit Types (data : CategoryMembersApiResponse.t).

(** What a page without [error] does to a suspended call. *)
Lemma fetchCategoryMembers_resume_continue categoryName memberType allMembers data c h :
  CategoryMembersApiResponse.error data = None → page_continue data = Some c →
  fetchCategoryMembers_resume categoryName memberType allMembers (Json data) h
  = (Awaiting (allMembers ++ page_members memberType data),
     (fetch (CategoryMembersRequest memberType categoryName (Some c)) h).2).
Proof.
  intros Herr Hc. unfold fetchCategoryMembers_resume, page_continue in *.
  rewrite Herr. destruct (CategoryMembersApiResponse.continue data) as [c'|]; [|done].
  destruct (truthy_string _); [|done]. injection Hc as <-. done.
Qed.

Lemma fetchCategoryMembers_resume_final categoryName memberType allMembers data h :
  CategoryMembersApiResponse.error data = None → page_continue data = None →
  (fetchCategoryMembers_resume categoryName memberType allMembers (Json data) h).1
  = Returned (Some (allMembers ++ page_members memberType data)).
Proof.
  intros Herr Hc. unfold fetchCategoryMembers_resume, page_continue in *.
  rewrite Herr.
  destruct (CategoryMembersApiResponse.continue data) as [c'|];
    [destruct (truthy_string _); [done|]|];
    unfold fetchCategoryMembers_finally; destruct memberType; run_M;
    by rewrite lookup_insert_eq.
Qed.

(** Where a suspended call that meets its last reply ends. *)
Lemma fetchCategoryMembers_resume_returned categoryName memberType allMembers reply h v :
  (fetchCategoryMembers_resume categoryName memberType allMembers reply h).1 = Returned v →
  let h' := (fetchCategoryMembers_resume categoryName memberType allMembers reply h).2 in
  cacheRef memberType h' !! categoryName = Some v
  ∧ fetchingStatus h' !! cacheKey categoryName memberType
    = Some (match v with Some _ => done | None => error end)
  ∧ requests h' = requests h.
Proof.
  pose proof (fetchCategoryMembers_resume_spec categoryName memberType allMembers reply h)
    as Hspec. simpl in Hspec.
  destruct (fetchCategoryMembers_resume _ _ _ _ _) as [[v'|?] h']; [|done].
  simpl. intros [= ->]. destruct Hspec as (_ & Hst & Hc & _ & Hreq).
  rewrite Hst, lookup_insert_eq. done.
Qed.

Lemma fetchCategoryMembers_settle_returned categoryName memberType reply script allMembers h v :
  (fetchCategoryMembers_resume categoryName memberType allMembers reply h).1 = Returned v →
  fetchCategoryMembers_settle categoryName memberType (reply :: script) allMembers h
  = (v, (fetchCategoryMembers_resume categoryName memberType allMembers reply h).2).
Proof.
  simpl. unfold mbind, M_bind.
  destruct (fetchCategoryMembers_resume _ _ _ _ _) as [o h1]. simpl. by intros ->.
Qed.

Lemma fetchCategoryMembers_settle_awaiting categoryName memberType reply script allMembers h
    allMembers' h1 :
  fetchCategoryMembers_resume categoryName memberType allMembers reply h
    = (Awaiting allMembers', h1) →
  fetchCategoryMembers_settle categoryName memberType (reply :: script) allMembers h
  = fetchCategoryMembers_settle categoryName memberType script allMembers' h1.
Proof. simpl. unfold mbind, M_bind. by intros ->. Qed.

(** X3.  A resolution whose listing comes in several pages collects them
    all: when the replies are pages without [error] that each announce a
    further page, followed by a page without [error] that announces none,
    the call returns the members it held followed by the members of the
    pages in their order, caches that list, sets the status of its key to
    [done], and has sent one continuation request per announced page, with
    the token of the page before it.  Replies after the last page are not
    read. *)
Theorem fetchCategoryMembers_pagination categoryName memberType pages final rest allMembers h :
  Forall continuing pages →
  CategoryMembersApiResponse.error final = None → page_continue final = None →
  let result := allMembers ++ ((pages ++ [final]) ≫= page_members memberType) in
  let settled :=
    fetchCategoryMembers_settle categoryName memberType
      ((Json <$> pages ++ [final]) ++ rest) allMembers h in
  settled.1 = Some result
  ∧ cacheRef memberType settled.2 !! categoryName = Some (Some result)
  ∧ fetchingStatus settled.2 !! cacheKey categoryName memberType = Some done
  ∧ requests settled.2
    = requests h ++ (CategoryMembersRequest memberType categoryName ∘ page_continue <$> pages).
Proof.
  intros Hpages Herr Hlast. revert allMembers h.
  induction Hpages as [|page pages [Hok [c Hc]] _ IH]; intros allMembers h.
  - pose proof (fetchCategoryMembers_resume_final categoryName memberType allMembers
                  final h Herr Hlast) as Hret.
    cbn [fmap list_fmap app]. rewrite (fetchCategoryMembers_settle_returned _ _ _ _ _ _ _ Hret).
    destruct (fetchCategoryMembers_resume_returned _ _ _ _ _ _ Hret) as (Hc & Hst & Hreq).
    simpl. rewrite app_nil_r. by rewrite (right_id_L [] (++)).
  - pose proof (fetchCategoryMembers_resume_continue categoryName memberType allMembers
                  page c h Hok Hc) as Hnext.
    cbn [fmap list_fmap app]. rewrite (fetchCategoryMembers_settle_awaiting _ _ _ _ _ _ _ _ Hnext).
    destruct (IH (allMembers ++ page_members memberType page)
                (fetch (CategoryMembersRequest memberType categoryName (Some c)) h).2)
      as (Hv & Hcache & Hst & Hreq).
    rewrite <-!(assoc_L (++)) in Hv, Hcache.
    split; [done|]. split; [done|]. split; [done|].
    rewrite Hreq. simpl. rewrite Hc. by rewrite <-(assoc_L (++)).
Qed.

Lemma fetchCategoryMembers_pagination_witness :
  let pages := [listing_data [member 1 "One"; member 2 "Two"] (Some "page|3")] in
  let final := listing_data [member 3 "Three"] None in
  (Forall continuing pages
   ∧ CategoryMembersApiResponse.error final = None ∧ page_continue final = None)
  ∧ (fetchCategoryMembers_settle "Category:Physics" page
       ((Json <$> pages ++ [final]) ++ []) [] (mount (λ _, 0))).1
    = Some [1; 2; 3]%Z.
Proof.
  assert (Forall continuing
            [listing_data [member 1 "One"; member 2 "Two"] (Some "page|3")]) as Hpages.
  { constructor; [|constructor]. split; [done|]. by eexists. }
  split; [done|].
  exact (proj1 (fetchCategoryMembers_pagination "Category:Physics" page _
                  (listing_data [member 3 "Three"] None) [] [] (mount (λ _, 0))
                  Hpages eq_refl eq_refl)).
Defined.

(** X4.  A resolution that meets an error on a later page gives up all it
    has collected: when pages without [error] that each announce a further
    page are followed by a reply that is an error (a rejected request or an
    [error] object), the call returns [null], the cache of the key holds
    [null], not the members of the pages read so far, the status is
    [error], and the continuation requests of the pages read have been
    sent. *)
Theorem fetchCategoryMembers_pagination_error categoryName memberType pages bad rest
    allMembers h :
  Forall continuing pages → resolution_error bad →
  let settled :=
    fetchCategoryMembers_settle categoryName memberType
      ((Json <$> pages) ++ bad :: rest) allMembers h in
  settled.1 = None
  ∧ cacheRef memberType settled.2 !! categoryName = Some None
  ∧ fetchingStatus settled.2 !! cacheKey categoryName memberType = Some error
  ∧ requests settled.2
    = requests h ++ (CategoryMembersRequest memberType categoryName ∘ page_continue <$> pages).
Proof.
  intros Hpages Hbad. revert allMembers h.
  induction Hpages as [|page pages [Hok [c Hc]] _ IH]; intros allMembers h.
  - assert ((fetchCategoryMembers_resume categoryName memberType allMembers bad h).1
            = Returned None) as Hret.
    { pose proof (fetchCategoryMembers_resume_spec categoryName memberType allMembers bad h)
        as Hspec. simpl in Hspec.
      destruct (fetchCategoryMembers_resume _ _ _ _ _) as [[[l|]|?] h']; simpl;
        [|done|]; by destruct Hspec as [Hno _]. }
    cbn [fmap list_fmap app]. rewrite (fetchCategoryMembers_settle_returned _ _ _ _ _ _ _ Hret).
    destruct (fetchCategoryMembers_resume_returned _ _ _ _ _ _ Hret) as (Hc & Hst & Hreq).
    simpl. by rewrite app_nil_r.
  - pose proof (fetchCategoryMembers_resume_continue categoryName memberType allMembers
                  page c h Hok Hc) as Hnext.
    cbn [fmap list_fmap app]. rewrite (fetchCategoryMembers_settle_awaiting _ _ _ _ _ _ _ _ Hnext).
    destruct (IH (allMembers ++ page_members memberType page)
                (fetch (CategoryMembersRequest memberType categoryName (Some c)) h).2)
      as (Hv & Hcache & Hst & Hreq).
    split; [done|]. split; [done|]. split; [done|].
    rewrite Hreq. simpl. rewrite Hc. by rewrite <-(assoc_L (++)).
Qed.

Lemma fetchCategoryMembers_pagination_error_witness :
  let pages := [listing_data [member 1 "One"; member 2 "Two"] (Some "page|3")] in
  (Forall continuing pages ∧ resolution_error listing_error)
  ∧ (fetchCategoryMembers_settle "Category:Physics" page
       ((Json <$> pages) ++ [listing_error]) [] (mount (λ _, 0))).1 = None.
Proof.
  assert (Forall continuing
            [listing_data [member 1 "One"; member 2 "Two"] (Some "page|3")]) as Hpages.
  { constructor; [|constructor]. split; [done|]. by eexists. }
  assert (resolution_error listing_error) as Hbad by (by eexists).
  split; [done|].
  exact (proj1 (fetchCategoryMembers_pagination_error "Category:Physics" page _
                  listing_error [] [] (mount (λ _, 0)) Hpages Hbad)).
Defined.
End resolver_more.

Section resolver_states.
Implicit Types (r : Resolver) (f g : Flight) (categoryName : string) (memberType : MemberType).

Lemma run_snoc rnd events e : run rnd (events ++ [e]) = step (run rnd events) e.
Proof. unfold run. by rewrite foldl_app. Qed.

Lemma status_agrees_mount rnd : status_agrees {| hook := mount rnd; flights := [] |}.
Proof. intros categoryName memberType. simpl. by destruct memberType. Qed.

Lemma status_agrees_call r categoryName memberType :
  resolver_inv r → status_agrees r → status_agrees (step r (Call categoryName memberType)).
Proof.
  intros (Hnd & Hpend & Hdone) Hag. simpl.
  pose proof (fetchCategoryMembers_spec categoryName memberType (hook r)) as Hspec.
  simpl in Hspec.
  destruct (fetchCategoryMembers categoryName memberType (hook r)) as [[v|allMembers] h'].
  { destruct Hspec as [-> _]. done. }
  destruct Hspec as (-> & Hnp & Hmiss & Hst & Hcache & _).
  intros n t. simpl. rewrite Hst, Hcache.
  destruct (decide ((categoryName, memberType) = (n, t))) as [[= <- <-]|Hne].
  - rewrite lookup_insert_eq. split.
    + destruct Hmiss as [Hmiss|Herr]; [by left|]. right.
      specialize (Hag categoryName memberType). simpl in Hag. by rewrite Herr in Hag.
    + exists (Build_Flight categoryName memberType []). split; [|done].
      apply elem_of_app. right. by apply list_elem_of_singleton.
  - rewrite lookup_insert_ne by (by apply cacheKey_ne).
    specialize (Hag n t). simpl in Hag.
    destruct (fetchingStatus (hook r) !! cacheKey n t) as [[]|]; try done.
    destruct Hag as [Hc (g & Hg & Hn & Ht)]. split; [done|].
    exists g. split; [|done]. apply elem_of_app. by left.
Qed.

Lemma status_agrees_deliver r n reply :
  resolver_inv r → status_agrees r → status_agrees (step r (Deliver n reply)).
Proof.
  intros (Hnd & Hpend & Hdone) Hag. simpl.
  destruct (flights r !! n) as [f|] eqn:Hf; [|done].
  pose proof (fetchCategoryMembers_resume_spec (flight_name f) (flight_type f)
                (flight_members f) reply (hook r)) as Hspec.
  simpl in Hspec.
  destruct (fetchCategoryMembers_resume _ _ _ reply (hook r)) as [[v|allMembers] h'].
  - destruct Hspec as (_ & Hst & Hhit & Hframe & _).
    intros name t. simpl. rewrite Hst.
    destruct (decide ((flight_name f, flight_type f) = (name, t))) as [[= <- <-]|Hne].
    + rewrite lookup_insert_eq, Hhit. destruct v; [by eexists|done].
    + rewrite lookup_insert_ne by (by apply cacheKey_ne). rewrite Hframe by done.
      specialize (Hag name t). simpl in Hag.
      destruct (fetchingStatus (hook r) !! cacheKey name t) as [[]|]; try done.
      destruct Hag as [Hc (g & Hg & Hn & Ht)]. split; [done|].
      exists g. split; [|done].
      apply list_elem_of_lookup_1 in Hg as [m Hg].
      assert (m ≠ n) as Hmn.
      { intros ->. rewrite Hf in Hg. injection Hg as ->. apply Hne. by rewrite Hn, Ht. }
      destruct (decide (m < n)).
      * apply (list_elem_of_lookup_2 _ m). by rewrite list_lookup_delete_lt.
      * apply (list_elem_of_lookup_2 _ (pred m)).
        rewrite list_lookup_delete_ge by lia.
        by replace (S (pred m)) with m by lia.
  - destruct Hspec as (_ & Hst & Hcache & _).
    intros name t. simpl. rewrite Hst, Hcache.
    specialize (Hag name t). simpl in Hag.
    destruct (fetchingStatus (hook r) !! cacheKey name t) as [[]|]; try done.
    destruct Hag as [Hc (g & Hg & Hn & Ht)]. split; [done|].
    apply list_elem_of_lookup_1 in Hg as [m Hg].
    destruct (decide (m = n)) as [->|Hmn].
    + rewrite Hf in Hg. injection Hg as <-.
      exists (Build_Flight (flight_name f) (flight_type f) allMembers). split; [|done].
      apply (list_elem_of_lookup_2 _ n).
      apply list_lookup_insert_eq. by eapply lookup_lt_Some.
    + exists g. split; [|done].
      apply (list_elem_of_lookup_2 _ m). by rewrite list_lookup_insert_ne.
Qed.

(** X5.  At every moment (after any sequence of calls and replies) the
    status of a key tells what its cache entry is.  A key that is [done]
    has a cached list; a key in [error] has [null] cached; a [pending] key
    has nothing or [null] cached and a call in flight that will settle it;
    a key without status has no cache entry. *)
Theorem resolver_status_cache rnd events : status_agrees (run rnd events).
Proof.
  unfold run. induction events as [|e events IH] using rev_ind.
  - apply status_agrees_mount.
  - rewrite foldl_app. simpl.
    pose proof (resolver_inv_run rnd events) as Hinv. unfold run in Hinv.
    destruct e; [by apply status_agrees_call|by apply status_agrees_deliver].
Qed.

(** A cached list survives every event, and no event sends a request for
    its key. *)
Lemma resolved_step r e categoryName memberType l :
  resolver_inv r →
  cacheRef memberType (hook r) !! categoryName = Some (Some l) →
  cacheRef memberType (hook (step r e)) !! categoryName = Some (Some l)
  ∧ filter (request_of categoryName memberType) (requests (hook (step r e)))
    = filter (request_of categoryName memberType) (requests (hook r)).
Proof.
  intros (Hnd & Hpend & Hdone) Hl. pose proof (Hdone _ _ _ Hl) as Hst.
  destruct e as [n t|n reply]; simpl.
  - pose proof (fetchCategoryMembers_spec n t (hook r)) as Hspec. simpl in Hspec.
    destruct (fetchCategoryMembers n t (hook r)) as [[v|allMembers] h'].
    { destruct Hspec as [-> _]. done. }
    destruct Hspec as (-> & Hnp & Hmiss & _ & Hcache & Hreq). simpl.
    rewrite Hcache, Hreq. split; [done|].
    rewrite filter_app, filter_cons_False, filter_nil, app_nil_r; [done|].
    simpl. rewrite bool_decide_spec. intros [-> ->].
    destruct Hmiss; congruence.
  - destruct (flights r !! n) as [f|] eqn:Hf; [|done].
    assert ((flight_name f, flight_type f) ≠ (categoryName, memberType)) as Hne.
    { intros [= Hn Ht]. pose proof (Hpend f (list_elem_of_lookup_2 _ _ _ Hf)) as Hp.
      unfold flight_key in Hp. rewrite Hn, Ht in Hp. congruence. }
    pose proof (fetchCategoryMembers_resume_spec (flight_name f) (flight_type f)
                  (flight_members f) reply (hook r)) as Hspec.
    simpl in Hspec.
    destruct (fetchCategoryMembers_resume _ _ _ reply (hook r)) as [[v|allMembers] h'].
    + destruct Hspec as (_ & _ & _ & Hframe & Hreq). simpl.
      rewrite Hframe by done. by rewrite Hreq.
    + destruct Hspec as (_ & _ & Hcache & c & Hreq). simpl.
      rewrite Hcache, Hreq. split; [done|].
      rewrite filter_app, filter_cons_False, filter_nil, app_nil_r; [done|].
      simpl. rewrite bool_decide_spec. intros [Ht Hn]. apply Hne. by rewrite Hn, Ht.
Qed.

(** X6.  A list once cached is there for good: whatever calls and replies
    follow, the cache of the key holds the same list and its status is
    [done], no further request for the key is sent, and a call for the key
    returns the list and changes nothing.  The hook has no way to refresh
    or drop a listing. *)
Theorem resolved_forever rnd events more categoryName memberType l :
  cacheRef memberType (hook (run rnd events)) !! categoryName = Some (Some l) →
  let r := run rnd events in
  let r' := run rnd (events ++ more) in
  cacheRef memberType (hook r') !! categoryName = Some (Some l)
  ∧ fetchingStatus (hook r') !! cacheKey categoryName memberType = Some done
  ∧ filter (request_of categoryName memberType) (requests (hook r'))
    = filter (request_of categoryName memberType) (requests (hook r))
  ∧ fetchCategoryMembers categoryName memberType (hook r') = (Returned (Some l), hook r').
Proof.
  intros Hl r r'.
  assert (cacheRef memberType (hook r') !! categoryName = Some (Some l)
          ∧ filter (request_of categoryName memberType) (requests (hook r'))
            = filter (request_of categoryName memberType) (requests (hook r))) as [Hl' Hreq].
  { subst r r'. induction more as [|e more IH] using rev_ind.
    - by rewrite app_nil_r.
    - destruct IH as [IHl IHreq].
      rewrite (assoc_L (++)), !run_snoc.
      destruct (resolved_step (run rnd (events ++ more)) e categoryName memberType l
                  (resolver_inv_run _ _) IHl) as [Hc Hr].
      split; [done|]. by rewrite Hr. }
  destruct (resolver_inv_run rnd (events ++ more)) as (_ & _ & Hdone).
  pose proof (Hdone _ _ _ Hl') as Hst. fold r' in Hst.
  split; [done|]. split; [done|]. split; [done|].
  pose proof (fetchCategoryMembers_spec categoryName memberType (hook r')) as Hspec.
  simpl in Hspec.
  destruct (fetchCategoryMembers categoryName memberType (hook r')) as [[v|allMembers] h'].
  - destruct Hspec as [-> [[Hv _]|[_ Hp]]]; [|congruence].
    rewrite Hl' in Hv. by injection Hv as <-.
  - destruct Hspec as (_ & _ & [Hmiss|Herr] & _); congruence.
Qed.

Lemma resolved_forever_witness :
  let events := [Call "Category:Physics" page;
                 Deliver 0 (listing_page [member 1 "One"] None)] in
  let more := [Call "Category:Physics" page; Call "Category:Physics" subcat;
               Deliver 0 listing_error; Call "Category:Physics" page] in
  cacheRef page (hook (run (λ _, 0) events)) !! "Category:Physics" = Some (Some [1]%Z)
  ∧ cacheRef page (hook (run (λ _, 0) (events ++ more))) !! "Category:Physics"
    = Some (Some [1]%Z).
Proof.
  assert (cacheRef page
            (hook (run (λ _, 0)
                     [Call "Category:Physics" page;
                      Deliver 0 (listing_page [member 1 "One"] None)]))
            !! "Category:Physics" = Some (Some [1]%Z)) as Hl by (by vm_compute).
  split; [done|].
  exact (proj1 (resolved_forever (λ _, 0) _
                  [Call "Category:Physics" page; Call "Category:Physics" subcat;
                   Deliver 0 listing_error; Call "Category:Physics" page]
                  "Category:Physics" page [1]%Z Hl)).
Defined.

(** The resolver writes its caches, its status map and sends requests;
    nothing else. *)
Lemma stays_fetchCategoryMembers categoryName memberType :
  stays outside_resolver (fetchCategoryMembers categoryName memberType).
Proof. unfold fetchCategoryMembers. stays. Qed.

Lemma stays_cacheRef_store memberType categoryName v :
  stays outside_resolver (cacheRef_store memberType categoryName v).
Proof. by destruct memberType. Qed.

Lemma stays_fetchCategoryMembers_resume categoryName memberType allMembers reply :
  stays outside_resolver (fetchCategoryMembers_resume categoryName memberType allMembers reply).
Proof.
  pose proof stays_cacheRef_store.
  unfold fetchCategoryMembers_resume, fetchCategoryMembers_catch,
    fetchCategoryMembers_finally.
  stays.
Qed.

(** X7.  Whatever calls and replies occur, the resolver leaves the
    displayed list, the loading flag, the buffer, the shown set and the
    random source as they were at mount: it writes nothing but its two
    caches, its status map, and the requests it sends. *)
Theorem resolver_footprint rnd events :
  outside_resolver (hook (run rnd events)) = outside_resolver (mount rnd).
Proof.
  unfold run. induction events as [|e events IH] using rev_ind; [done|].
  rewrite foldl_app. simpl. rewrite <-IH.
  set (r := foldl step _ events). destruct e as [n t|n reply]; simpl.
  - pose proof (stays_fetchCategoryMembers n t (hook r)) as Hs.
    by destruct (fetchCategoryMembers n t (hook r)) as [[v|allMembers] h'].
  - destruct (flights r !! n) as [f|]; [|done].
    pose proof (stays_fetchCategoryMembers_resume (flight_name f) (flight_type f)
                  (flight_members f) reply (hook r)) as Hs.
    by destruct (fetchCategoryMembers_resume _ _ _ reply (hook r)) as [[v|allMembers] h'].
Qed.
End resolver_states.

(** ** The detail fetcher: what it sends and what it returns *)

Section details_more.
Implicit Types (page : PageInfo.t) (currentLanguage_id : string) (h : Hook).

Lemma truthy_string_spec (s : option string) :
  truthy_string s = true ↔ ∃ s', s = Some s' ∧ s' ≠ EmptyString.
Proof.
  destruct s as [[|a s]|]; simpl; split; try done.
  - by intros (s' & [= <-] & Hne).
  - intros _. by eexists.
  - by intros (s' & ? & _).
Qed.

Lemma wellFormed_complete currentLanguage_id page :
  wellFormed page → complete (articleRecord currentLanguage_id page).
Proof.
  intros (Hid & Ht & He & Hu & Hs). unfold complete, articleRecord. simpl.
  apply truthy_string_spec in Ht as (t & -> & Ht).
  apply truthy_string_spec in He as (e & -> & He).
  apply truthy_string_spec in Hu as (u & -> & Hu).
  apply truthy_string_spec in Hs as (s & Hs & Hne).
  destruct (PageInfo.pageid page) as [pageid|]; [|done]. simpl in *.
  apply negb_true_iff, Z.eqb_neq in Hid.
  repeat split; try done.
  destruct (PageInfo.thumbnail page) as [thumbnail|]; [|done]. simpl in Hs.
  by exists thumbnail, s.
Qed.

Lemma fetchedRecords_complete remote currentLanguage_id pageIds h :
  Forall complete (fetchArticleDetails remote currentLanguage_id pageIds h).1.
Proof.
  unfold fetchArticleDetails. destruct (length pageIds =? 0); [by constructor|].
  run_M. unfold fetchArticleDetails_resume.
  destruct (details remote pageIds) as [|data]; [by constructor|].
  destruct (PageDetailsApiResponse.error data); [by constructor|].
  unfold fetchedArticles. rewrite fetchedArticles_filter.
  apply Forall_fmap, Forall_forall. intros page [Hwf _]%list_elem_of_filter.
  by apply wellFormed_complete.
Qed.

(** X8.  Whatever the reply to the detail request is, every record that
    [fetchArticleDetails] returns is complete: its identifier is not [0],
    its title, extract and URL are not empty, and it has a thumbnail whose
    source is not empty.  No record without an image reaches the caller. *)
Theorem fetchArticleDetails_complete remote currentLanguage_id pageIds h :
  Forall complete (fetchArticleDetails remote currentLanguage_id pageIds h).1.
Proof. apply fetchedRecords_complete. Qed.

(** X9.  When the detail request fails (it is rejected, or the body carries
    an [error] object) [fetchArticleDetails] returns the empty list and
    raises nothing, even when the body carries pages beside the error. *)
Theorem fetchArticleDetails_error remote currentLanguage_id pageIds h :
  details_error (details remote pageIds) →
  (fetchArticleDetails remote currentLanguage_id pageIds h).1 = [].
Proof.
  intros Herr. unfold fetchArticleDetails. destruct (length pageIds =? 0); [done|].
  run_M. unfold fetchArticleDetails_resume.
  destruct (details remote pageIds) as [|data]; [done|].
  simpl in Herr. by destruct Herr as [e ->].
Qed.

Lemma fetchArticleDetails_error_witness :
  let remote := {| listing := physics_listing; details := λ _, Json details_error_10 |} in
  details_error (details remote [10]%Z)
  ∧ (fetchArticleDetails remote "en" [10]%Z (mount (λ _, 0))).1 = [].
Proof.
  assert (details_error (Json details_error_10)) as Herr by (by eexists).
  split; [done|].
  exact (fetchArticleDetails_error
           {| listing := physics_listing; details := λ _, Json details_error_10 |}
           "en" [10]%Z (mount (λ _, 0)) Herr).
Defined.

(** X10.  [fetchArticleDetails] sends one request per call, for exactly the
    identifiers it is given, and none at all for an empty list, for which
    it returns the empty list; it changes nothing else in the hook, and
    returns at most one record per page of the reply. *)
Theorem fetchArticleDetails_request remote currentLanguage_id pageIds h :
  let result := fetchArticleDetails remote currentLanguage_id pageIds h in
  requests result.2
  = requests h ++ (if decide (pageIds = []) then [] else [PageDetailsRequest pageIds])
  ∧ apart_from_requests result.2 = apart_from_requests h
  ∧ (if decide (pageIds = []) then result.1 = []
     else ∀ data, details remote pageIds = Json data →
          length result.1
          ≤ length (match PageDetailsApiResponse.query data with
                    | Some q => PagesQuery.pages q
                    | None => []
                    end)).
Proof.
  unfold fetchArticleDetails. destruct pageIds as [|id pageIds]; simpl.
  { by rewrite app_nil_r. }
  run_M. split; [done|]. split; [done|].
  intros data ->. unfold fetchArticleDetails_resume.
  destruct (PageDetailsApiResponse.error data); simpl; [lia|].
  unfold fetchedArticles. rewrite fetchedArticles_filter, length_fmap.
  destruct (PageDetailsApiResponse.query data) as [q|]; simpl; [|done].
  etrans; [apply length_filter|]. by rewrite length_fmap.
Qed.
End details_more.

(** ** The production cycle: the pool, the aggregation, the batch *)

Section spread_set_facts.
Context `{Countable K}.
Implicit Types (seen : gset K) (ids : list K).

Lemma elem_of_spread_set seen ids id :
  id ∈ spread_set seen ids ↔ id ∈ ids ∧ id ∉ seen.
Proof.
  revert seen. induction ids as [|x ids IH]; intros seen; simpl.
  - split; [by intros ?%elem_of_nil|by intros [?%elem_of_nil _]].
  - destruct (decide (x ∈ seen)) as [Hx|Hx].
    + rewrite IH, elem_of_cons. split; [tauto|]. intros [[->|?] ?]; [done|tauto].
    + rewrite !elem_of_cons, IH, elem_of_union, elem_of_singleton. split.
      * intros [->|[? ?]]; tauto.
      * intros [[->|?] ?]; [tauto|]. destruct (decide (id = x)); tauto.
Qed.

Lemma NoDup_spread_set seen ids : NoDup (spread_set seen ids).
Proof.
  revert seen. induction ids as [|x ids IH]; intros seen; simpl; [constructor|].
  destruct (decide (x ∈ seen)); [done|]. constructor; [|done].
  rewrite elem_of_spread_set, elem_of_union, elem_of_singleton. tauto.
Qed.

Lemma spread_set_sublist seen ids : spread_set seen ids `sublist_of` ids.
Proof.
  revert seen. induction ids as [|x ids IH]; intros seen; simpl; [done|].
  destruct (decide (x ∈ seen)); [by apply sublist_cons|by apply sublist_skip].
Qed.

Lemma spread_set_NoDup seen ids :
  NoDup ids → (∀ id, id ∈ ids → id ∉ seen) → spread_set seen ids = ids.
Proof.
  revert seen. induction ids as [|x ids IH]; intros seen Hnd Hfresh; simpl; [done|].
  apply NoDup_cons in Hnd as [Hx Hnd].
  rewrite decide_False by (apply Hfresh; left). f_equal. apply IH; [done|].
  intros id Hid. rewrite elem_of_union, elem_of_singleton.
  intros [->|Hseen]; [done|]. by apply (Hfresh id); [right|].
Qed.

Lemma spread_set_more seen seen' ids :
  seen ⊆ seen' →
  spread_set seen' ids = filter (λ id, id ∉ seen') (spread_set seen ids).
Proof.
  revert seen seen'. induction ids as [|x ids IH]; intros seen seen' Hsub; simpl; [done|].
  destruct (decide (x ∈ seen')) as [Hx'|Hx']; destruct (decide (x ∈ seen)) as [Hx|Hx].
  - by apply IH.
  - rewrite filter_cons_False by tauto. apply IH.
    intros y. rewrite elem_of_union, elem_of_singleton. intros [->|?]; [done|by apply Hsub].
  - by apply Hsub in Hx.
  - rewrite filter_cons_True by done. f_equal.
    rewrite (IH ({[x]} ∪ seen) ({[x]} ∪ seen')).
    + apply filter_ext_elem. intros id [_ Hid]%elem_of_spread_set.
      rewrite elem_of_union, elem_of_singleton in *. tauto.
    + intros y. rewrite !elem_of_union, !elem_of_singleton.
      intros [->|?]; [by left|right; by apply Hsub].
Qed.

Lemma spread_set_app seen ids1 ids2 :
  spread_set seen (ids1 ++ ids2)
  = spread_set seen ids1 ++ spread_set (list_to_set ids1 ∪ seen) ids2.
Proof.
  revert seen. induction ids1 as [|x ids1 IH]; intros seen; simpl.
  - by rewrite (left_id_L ∅ (∪)).
  - destruct (decide (x ∈ seen)) as [Hx|Hx].
    + rewrite IH. do 2 f_equal. apply set_eq. intros y.
      rewrite !elem_of_union, elem_of_singleton. split; [tauto|].
      intros [[->|?]|?]; tauto.
    + simpl. rewrite IH. do 3 f_equal. apply set_eq. intros y.
      rewrite !elem_of_union, elem_of_singleton. tauto.
Qed.

(** X11.  The pool of a cycle is made by [[...new Set([...directPageIds,
    ...subcatPageIds])]]: it holds no identifier twice, it holds exactly the
    identifiers of the two lists, in the order of their first occurrence —
    the direct ones first, then those sampled subcategory pages that are
    not direct ones — and it is the two lists themselves when they hold
    nothing twice. *)
Theorem spread_set_pool (directPageIds subcatPageIds : list K) :
  let allAvailableIds := spread_set ∅ (directPageIds ++ subcatPageIds) in
  NoDup allAvailableIds
  ∧ (∀ id, id ∈ allAvailableIds ↔ id ∈ directPageIds ∨ id ∈ subcatPageIds)
  ∧ allAvailableIds `sublist_of` directPageIds ++ subcatPageIds
  ∧ allAvailableIds
    = spread_set ∅ directPageIds
      ++ filter (λ id, id ∉ directPageIds) (spread_set ∅ subcatPageIds)
  ∧ (NoDup (directPageIds ++ subcatPageIds) →
     allAvailableIds = directPageIds ++ subcatPageIds).
Proof.
  simpl. split; [apply NoDup_spread_set|]. split.
  { intros id. rewrite elem_of_spread_set, elem_of_app, elem_of_empty. tauto. }
  split; [apply spread_set_sublist|]. split.
  - rewrite spread_set_app. f_equal.
    rewrite (spread_set_more ∅) by (intros y Hy; by apply elem_of_empty in Hy).
    apply filter_ext_elem. intros id _.
    rewrite elem_of_union, elem_of_list_to_set, elem_of_empty. tauto.
  - intros Hnd. apply spread_set_NoDup; [done|]. intros id _. apply not_elem_of_empty.
Qed.
End spread_set_facts.

Section cycle_more.
Implicit Types (h : Hook) (targetCategories : list string).

Lemma stays_shuffled {A} (array : list A) : stays apart_from_random (shuffled array).
Proof. by intros h. Qed.

Lemma shuffled_Permutation {A} (array : list A) h : (shuffled array h).1 ≡ₚ array.
Proof. unfold shuffled. run_M. unfold shuffleArray. apply shuffle_from_Permutation. Qed.

Lemma aggregate_spec targetCategories directPageIds allSubcatNames h :
  ∃ segments h',
    Forall2 (≡ₚ) segments (cachedList (categoryPageIds h) <$> targetCategories)
    ∧ aggregate targetCategories directPageIds allSubcatNames h
      = ((directPageIds ++ concat segments,
          allSubcatNames ++ concat (cachedList (categorySubcats h) <$> targetCategories)),
         h')
    ∧ apart_from_random h' = apart_from_random h.
Proof.
  revert directPageIds allSubcatNames h.
  induction targetCategories as [|catName rest IH]; intros directPageIds allSubcatNames h.
  { exists [], h. simpl. by rewrite !app_nil_r. }
  assert (∃ segment h1,
    segment ≡ₚ cachedList (categoryPageIds h) catName
    ∧ apart_from_random h1 = apart_from_random h
    ∧ match categoryPageIds h !! catName with
      | Some (Some pages) => s ← shuffled pages; mret (directPageIds ++ s)
      | _ => mret directPageIds
      end h = (directPageIds ++ segment, h1)) as (segment & h1 & Hseg & Hh1 & Hstep).
  { unfold cachedList. destruct (categoryPageIds h !! catName) as [[pages|]|].
    - exists (shuffled pages h).1, (shuffled pages h).2.
      split; [apply shuffled_Permutation|]. split; [apply stays_shuffled|].
      unfold mbind, M_bind. by destruct (shuffled pages h).
    - exists [], h. by rewrite app_nil_r.
    - exists [], h. by rewrite app_nil_r. }
  assert (categoryPageIds h1 = categoryPageIds h ∧ categorySubcats h1 = categorySubcats h)
    as [Hpages Hsubcats].
  { unfold apart_from_random in Hh1. by injection Hh1. }
  assert (match categorySubcats h !! catName with
          | Some (Some subcats) => allSubcatNames ++ subcats
          | _ => allSubcatNames
          end = allSubcatNames ++ cachedList (categorySubcats h) catName) as Hnames.
  { unfold cachedList.
    destruct (categorySubcats h !! catName) as [[subcats|]|]; by rewrite ?app_nil_r. }
  destruct (IH (directPageIds ++ segment)
              (allSubcatNames ++ cachedList (categorySubcats h) catName) h1)
    as (segments & h' & Hsegs & Hrest & Hframe).
  exists (segment :: segments), h'. split; [|split].
  - rewrite fmap_cons. constructor; [done|]. by rewrite <-Hpages.
  - cbn [aggregate]. unfold gets. unfold mbind at 1 2 3. unfold M_bind at 1 2 3.
    rewrite Hstep, Hnames, Hrest, Hsubcats, fmap_cons. simpl.
    by rewrite <-!(assoc_L (++)).
  - by rewrite Hframe.
Qed.

(** X12.  The aggregation of step 2 reads the caches only.  The direct
    identifiers are, category after category in the order of
    [targetCategories], a rearrangement of the list cached for that
    category, so the pages of one category stay together; the subcategory
    names are the cached lists one after the other, unshuffled.  A category
    whose cache entry is missing or [null] adds nothing.  Nothing but the
    random source changes. *)
Theorem aggregate_gathers targetCategories directPageIds allSubcatNames h :
  let result := aggregate targetCategories directPageIds allSubcatNames h in
  (∃ segments,
     Forall2 (≡ₚ) segments (cachedList (categoryPageIds h) <$> targetCategories)
     ∧ result.1.1 = directPageIds ++ concat segments)
  ∧ result.1.2
    = allSubcatNames ++ concat (cachedList (categorySubcats h) <$> targetCategories)
  ∧ apart_from_random result.2 = apart_from_random h.
Proof.
  destruct (aggregate_spec targetCategories directPageIds allSubcatNames h)
    as (segments & h' & Hsegs & Heq & Hframe).
  simpl. rewrite Heq. split; [by exists segments|done].
Qed.

(** X13.  The batch of a cycle never asks for an identifier twice: the
    pool is made with [new Set], and the filter, the shuffle and the slice
    of the selection keep its identifiers distinct; every identifier of the
    batch comes from the lists the pool was made of. *)
Theorem selectBatch_distinct (ids : list Z) h :
  let allAvailableIds := spread_set ∅ ids in
  let idsToFetch := (selectBatch allAvailableIds h).1 in
  NoDup idsToFetch ∧ ∀ id, id ∈ idsToFetch → id ∈ ids.
Proof.
  simpl. destruct (selectBatch_eq (spread_set ∅ ids) h) as (h' & -> & _). simpl.
  assert (∀ id, id ∈ candidates (spread_set ∅ ids) (shownPageIds h) → id ∈ ids) as Hsub.
  { intros id. unfold candidates.
    destruct (exhausted _ _); [|intros [Hid _]%potentialIds_spec; revert Hid];
      rewrite elem_of_spread_set; tauto. }
  assert (NoDup (candidates (spread_set ∅ ids) (shownPageIds h))) as Hnd.
  { unfold candidates, potentialIds.
    destruct (exhausted _ _); [|apply NoDup_filter]; apply NoDup_spread_set. }
  split.
  - eapply sublist_NoDup; [|apply sublist_take].
    unfold shuffleArray. by rewrite shuffle_from_Permutation.
  - intros id Hid%batch_elem_of. by apply Hsub.
Qed.

(** X14.  A cycle that fetches for display appends to the displayed list
    exactly the records that the detail fetch returned for its batch, in
    their order, and nothing else: the buffered cycle that it starts
    afterwards does not touch the displayed list.  It ends with [loading]
    false. *)
Theorem display_cycle_appends remote currentLanguage_id loading0 targetCategories
    (idsToFetch : list Z) h :
  let again := cycle (mret ()) remote currentLanguage_id loading0 targetCategories true in
  let newArticles := (fetchArticleDetails remote currentLanguage_id idsToFetch h).1 in
  let h' := (deliver again remote currentLanguage_id false idsToFetch h).2 in
  articles h' = articles h ++ newArticles ∧ loading h' = false.
Proof.
  simpl. split; [|apply ends_idle_deliver].
  unfold deliver, fetchArticleDetails.
  destruct (length idsToFetch =? 0); run_M; [by rewrite app_nil_r|].
  destruct (fetchArticleDetails_resume _ _) as [|article newArticles]; simpl.
  { by rewrite app_nil_r. }
  match goal with
  | |- context [cycle ?a ?r ?l ?b ?c true ?h0] =>
    pose proof (keeps_cycle_buffer a r l b c h0) as Hkeep;
    destruct (cycle a r l b c true h0) as [u h2]
  end.
  simpl in *. done.
Qed.
End cycle_more.

(** ** The records the hook holds, over a session *)

Section held_facts.
Implicit Types (h : Hook) (targetCategories : list string).

Lemma stays_fetchCategoryMembers_settle categoryName memberType script allMembers :
  stays outside_resolver
    (fetchCategoryMembers_settle categoryName memberType script allMembers).
Proof.
  revert allMembers. pose proof stays_fetchCategoryMembers_resume.
  induction script as [|reply script IH]; intros allMembers;
    cbn [fetchCategoryMembers_settle]; stays.
Qed.

Lemma stays_awaitAll remote calls : stays outside_resolver (awaitAll remote calls).
Proof.
  unfold awaitAll.
  pose proof stays_fetchCategoryMembers. pose proof stays_fetchCategoryMembers_settle.
  stays.
Qed.

Lemma stays_held_awaitAll remote calls : stays held (awaitAll remote calls).
Proof.
  intros h. pose proof (stays_awaitAll remote calls h) as Heq.
  unfold outside_resolver in Heq. unfold held. by injection Heq as -> _ -> _ _.
Qed.

Lemma stays_held_aggregate targetCategories directPageIds allSubcatNames :
  stays held (aggregate targetCategories directPageIds allSubcatNames).
Proof.
  intros h.
  destruct (aggregate_spec targetCategories directPageIds allSubcatNames h)
    as (segments & h' & _ & -> & Heq).
  unfold apart_from_random in Heq. unfold held. simpl. by injection Heq as -> _ -> _ _ _ _ _.
Qed.

Lemma stays_held_selectBatch allAvailableIds : stays held (selectBatch allAvailableIds).
Proof.
  intros h. destruct (selectBatch_eq allAvailableIds h) as (h' & -> & _ & Ha & Hb).
  unfold held. simpl. by rewrite Ha, Hb.
Qed.

Lemma stays_held_fetchArticleDetails remote currentLanguage_id pageIds :
  stays held (fetchArticleDetails remote currentLanguage_id pageIds).
Proof. unfold fetchArticleDetails. stays. Qed.

End held_facts.

(** An invariant that the steps of a cycle keep is kept by everything that
    happens to the hook. *)
Section cycle_invariant.
Variable I : Hook → Prop.
Hypothesis I_setLoading : ∀ b, preserves I (setLoading b).
Hypothesis I_awaitAll : ∀ remote calls, preserves I (awaitAll remote calls).
Hypothesis I_aggregate : ∀ targetCategories directPageIds allSubcatNames,
  preserves I (aggregate targetCategories directPageIds allSubcatNames).
Hypothesis I_subcatSample : ∀ allSubcatNames, preserves I (subcatSample allSubcatNames).
Hypothesis I_selectBatch : ∀ allAvailableIds, preserves I (selectBatch allAvailableIds).
Hypothesis I_deliver : ∀ again remote currentLanguage_id forBuffer idsToFetch,
  preserves I again →
  preserves I (deliver again remote currentLanguage_id forBuffer idsToFetch).
Hypothesis I_swap : ∀ h,
  I h → I (setBuffer [] (setArticles (λ prev, prev ++ buffer h) h).2).2.

Lemma preserves_ret {X} (x : X) : preserves I (mret x).
Proof. by intros h. Qed.

Lemma preserves_production again remote currentLanguage_id targetCategories forBuffer :
  preserves I again →
  preserves I (production again remote currentLanguage_id targetCategories forBuffer).
Proof using All.
  intros Hagain. unfold production, subcatPageIds.
  repeat first
    [ by apply I_deliver
    | apply I_setLoading | apply I_awaitAll | apply I_aggregate
    | apply I_subcatSample | apply I_selectBatch
    | by intros ?
    | apply preserves_bind; [|intros ?]
    | match goal with
      | |- preserves _ (match ?x with _ => _ end) => destruct x
      | |- preserves _ (let 'pair _ _ := ?x in _) => destruct x
      end ].
Qed.

Lemma preserves_cycle again remote currentLanguage_id loading0 targetCategories forBuffer :
  preserves I again →
  preserves I (cycle again remote currentLanguage_id loading0 targetCategories forBuffer).
Proof using All.
  intros Hagain. unfold cycle.
  destruct (_ || _); [apply preserves_ret|by apply preserves_production].
Qed.

Lemma preserves_fetchAndProcessArticles remote currentLanguage_id loading0 targetCategories
    forBuffer :
  preserves I (fetchAndProcessArticles remote currentLanguage_id loading0 targetCategories
                 forBuffer).
Proof using All.
  unfold fetchAndProcessArticles. apply preserves_cycle, preserves_cycle, preserves_ret.
Qed.

Lemma preserves_fetchArticles remote currentLanguage_id targetCategories :
  preserves I (fetchArticles remote currentLanguage_id targetCategories).
Proof using All.
  intros h Hh. unfold fetchArticles, getMoreArticles.
  destruct (0 <? length (buffer h)).
  - unfold mbind, M_bind. simpl.
    by apply preserves_fetchAndProcessArticles, (I_swap h).
  - by apply preserves_fetchAndProcessArticles.
Qed.

Lemma preserves_initialFetch remote currentLanguage_id targetCategories :
  preserves I (initialFetch remote currentLanguage_id targetCategories).
Proof using All.
  intros h Hh. unfold initialFetch.
  destruct (_ && _); [by apply preserves_fetchAndProcessArticles|done].
Qed.

Lemma preserves_handleObserver remote currentLanguage_id selectedCategories isIntersecting :
  preserves I (handleObserver remote currentLanguage_id selectedCategories isIntersecting).
Proof using All.
  intros h Hh. unfold handleObserver.
  destruct (_ && _); [by apply preserves_fetchArticles|done].
Qed.

Lemma preserves_act currentLanguage_id targetCategories h history :
  I h → I (foldl (act currentLanguage_id targetCategories) h history).
Proof using All.
  intros Hh. induction history as [|a history IH] using rev_ind; [done|].
  rewrite foldl_app. simpl.
  destruct a; simpl; [by apply preserves_initialFetch|by apply preserves_fetchArticles].
Qed.

Lemma preserves_app_step currentLanguage_id a events :
  I (wiki a) → I (wiki (foldl (app_step currentLanguage_id) a events)).
Proof using All.
  intros Ha. induction events as [|e events IH] using rev_ind; [done|].
  rewrite foldl_app. simpl. set (a' := foldl _ a events) in *.
  destruct e as [chosenCategories|remote|isIntersecting remote]; simpl.
  - destruct (_ =? _); [|done]. by destruct (handleConfirm chosenCategories).
  - by apply preserves_initialFetch.
  - by apply preserves_handleObserver.
Qed.
End cycle_invariant.

(** An invariant of the held records: one that reads the held records
    only, and that outlives the display and the buffering of complete
    records and the move of the buffer to the displayed list. *)
Section held_invariant.
Variable I : Hook → Prop.
Hypothesis I_held : ∀ h h', held h' = held h → I h → I h'.
Hypothesis I_display : ∀ newArticles h,
  Forall complete newArticles → I h → I (setArticles (λ prev, prev ++ newArticles) h).2.
Hypothesis I_buffer : ∀ newArticles h,
  Forall complete newArticles → I h → I (setBuffer newArticles h).2.
Hypothesis I_swap : ∀ h,
  I h → I (setBuffer [] (setArticles (λ prev, prev ++ buffer h) h).2).2.

Lemma preserves_held {X} (m : M X) : stays held m → preserves I m.
Proof using I_held. intros Hm h Hh. by apply (I_held h), Hh. Qed.

Lemma preserves_bind_post {X Z} (Q : X → Prop) (m : M X) (k : X → M Z) :
  preserves I m → (∀ h, Q (m h).1) → (∀ x, Q x → preserves I (k x)) →
  preserves I (m ≫= k).
Proof.
  intros Hm HQ Hk h Hh. unfold mbind, M_bind.
  specialize (Hm h Hh). specialize (HQ h). destruct (m h) as [x h1]. by apply Hk.
Qed.

Lemma preserves_held_deliver again remote currentLanguage_id forBuffer idsToFetch :
  preserves I again →
  preserves I (deliver again remote currentLanguage_id forBuffer idsToFetch).
Proof using All.
  intros Hagain. unfold deliver.
  apply (preserves_bind_post (Forall complete)).
  - apply preserves_held, stays_held_fetchArticleDetails.
  - apply fetchedRecords_complete.
  - intros newArticles Hnew.
    apply preserves_bind; [by apply preserves_held|]. intros _.
    apply preserves_bind; [|intros _; by apply preserves_held].
    destruct (0 <? length newArticles); [|by intros h].
    destruct forBuffer.
    + intros h Hh. by apply I_buffer.
    + apply preserves_bind; [|done]. intros h Hh. by apply I_display.
Qed.

Lemma preserves_held_act currentLanguage_id targetCategories h history :
  I h → I (foldl (act currentLanguage_id targetCategories) h history).
Proof using All.
  apply preserves_act; try done; intros; try apply preserves_held_deliver; try done;
    apply preserves_held;
    first [ by intros ? | apply stays_held_awaitAll | apply stays_held_aggregate
          | apply stays_held_selectBatch ].
Qed.

Lemma preserves_held_app_step currentLanguage_id a events :
  I (wiki a) → I (wiki (foldl (app_step currentLanguage_id) a events)).
Proof using All.
  apply preserves_app_step; try done; intros; try apply preserves_held_deliver; try done;
    apply preserves_held;
    first [ by intros ? | apply stays_held_awaitAll | apply stays_held_aggregate
          | apply stays_held_selectBatch ].
Qed.
End held_invariant.

Section session_more.
Implicit Types (h : Hook) (targetCategories : list string) (history : list Action).

(** X15.  The displayed list only grows, and only at its end: after
    whatever happens next to the hook (effects, calls of [fetchArticles],
    with any replies of the remote side), the list displayed before is a
    prefix of the list displayed after.  No record is removed, replaced or
    moved once it is displayed. *)
Theorem articles_append_only rnd currentLanguage_id targetCategories history more :
  articles (session rnd currentLanguage_id targetCategories history)
  `prefix_of` articles (session rnd currentLanguage_id targetCategories (history ++ more)).
Proof.
  unfold session. rewrite foldl_app.
  set (h0 := foldl _ (mount rnd) history).
  apply (preserves_held_act (λ h, articles h0 `prefix_of` articles h)); [| | | |done].
  - intros h h' Heq. unfold held in Heq. by injection Heq as -> _.
  - intros newArticles h _ Hh. simpl. by apply prefix_app_r.
  - by intros newArticles h _ Hh.
  - intros h Hh. simpl. by apply prefix_app_r.
Qed.

(** X16.  Every record the hook ever displays or buffers is complete: it
    has an identifier that is not [0], a title, an extract, a URL, and a
    thumbnail with a source.  The validation of the detail fetcher is the
    only way into the two lists. *)
Theorem session_records_complete rnd currentLanguage_id targetCategories history :
  let h := session rnd currentLanguage_id targetCategories history in
  Forall complete (articles h) ∧ Forall complete (buffer h).
Proof.
  cbv zeta. unfold session.
  apply (preserves_held_act
           (λ h, Forall complete (articles h) ∧ Forall complete (buffer h))).
  - intros h1 h2 Heq. unfold held in Heq. by injection Heq as -> ->.
  - intros newArticles h1 Hnew [Ha Hb]. simpl. split; [by apply Forall_app|done].
  - by intros newArticles h1 Hnew [Ha Hb].
  - intros h1 [Ha Hb]. simpl. split; [by apply Forall_app|constructor].
  - split; constructor.
Qed.

(** X17.  Without a target category the hook is inert: whatever effects run
    and however often [fetchArticles] is called, it sends no request, draws
    no random number and stays exactly as it was mounted. *)
Theorem no_categories_inert rnd currentLanguage_id history :
  session rnd currentLanguage_id [] history = mount rnd
  ∧ requests (session rnd currentLanguage_id [] history) = [].
Proof.
  assert (session rnd currentLanguage_id [] history = mount rnd) as ->; [|done].
  unfold session. induction history as [|a history IH] using rev_ind; [done|].
  rewrite foldl_app, IH. by destruct a.
Qed.
End session_more.

(** ** The requests of a cycle *)

Section sends_facts.

Lemma sends_ret {X} (x : X) : sends 0 (mret x).
Proof. intros h. exists []. simpl. by rewrite app_nil_r. Qed.

Lemma sends_stays {X} (m : M X) : stays requests m → sends 0 m.
Proof. intros Hm h. exists []. rewrite Hm, app_nil_r. done. Qed.

Lemma sends_le {X} n n' (m : M X) : n ≤ n' → sends n m → sends n' m.
Proof.
  intros Hle Hm h. destruct (Hm h) as (added & Heq & Hok & Hn).
  exists added. split; [done|]. split; [done|lia].
Qed.

Lemma sends_bind_post {X Z} (Q : X → Prop) n1 n2 (m : M X) (k : X → M Z) :
  sends n1 m → (∀ h, Q (m h).1) → (∀ x, Q x → sends n2 (k x)) → sends (n1 + n2) (m ≫= k).
Proof.
  intros Hm HQ Hk h. unfold mbind, M_bind.
  destruct (Hm h) as (added1 & Heq1 & Hok1 & Hn1). specialize (HQ h).
  destruct (m h) as [x h1]. simpl in *.
  destruct (Hk x HQ h1) as (added2 & Heq2 & Hok2 & Hn2).
  exists (added1 ++ added2). rewrite Heq2, Heq1, (assoc_L (++)).
  split; [done|]. split; [by apply Forall_app|].
  rewrite filter_app, length_app. lia.
Qed.

Lemma sends_bind {X Z} n1 n2 (m : M X) (k : X → M Z) :
  sends n1 m → (∀ x, sends n2 (k x)) → sends (n1 + n2) (m ≫= k).
Proof.
  intros Hm Hk. apply (sends_bind_post (λ _, True)); [done|done|]. intros x _. apply Hk.
Qed.

Lemma sends_mapM {X Z} (g : X → M Z) (xs : list X) :
  (∀ x, sends 0 (g x)) → sends 0 (mapM g xs).
Proof.
  intros Hg. induction xs as [|x xs IH]; simpl.
  - apply sends_ret.
  - apply (sends_bind 0 0); [done|]. intros y.
    apply (sends_bind 0 0); [done|]. intros ys. apply sends_ret.
Qed.

Lemma sends_listing memberType categoryName cmcontinue :
  sends 0 (fetch (CategoryMembersRequest memberType categoryName cmcontinue)).
Proof.
  intros h. exists [CategoryMembersRequest memberType categoryName cmcontinue].
  split; [done|]. split; [by repeat constructor|]. simpl. lia.
Qed.
End sends_facts.

(** Goes through a computation that sends listing requests only. *)
Ltac sends :=
  repeat first
    [ assumption
    | match goal with
      | H : ∀ x, sends 0 _ |- _ => apply H
      | H : ∀ x y, sends 0 _ |- _ => apply H
      | H : ∀ x y z, sends 0 _ |- _ => apply H
      | H : ∀ x y z w, sends 0 _ |- _ => apply H
      end
    | apply sends_ret
    | apply sends_listing
    | apply sends_stays; by intros ?
    | apply (sends_bind 0 0); [|intros ?]
    | apply sends_mapM; intros ?
    | match goal with
      | |- sends 0 (match ?x with _ => _ end) => destruct x
      | |- sends 0 (let 'pair _ _ := ?x in _) => destruct x
      end ].

Section cycle_sends.
Implicit Types (h : Hook) (idsToFetch : list Z).

Lemma sends_cacheRef_store memberType categoryName v :
  sends 0 (cacheRef_store memberType categoryName v).
Proof. apply sends_stays. by destruct memberType. Qed.

Lemma sends_fetchCategoryMembers categoryName memberType :
  sends 0 (fetchCategoryMembers categoryName memberType).
Proof. unfold fetchCategoryMembers. sends. Qed.

Lemma sends_fetchCategoryMembers_resume categoryName memberType allMembers reply :
  sends 0 (fetchCategoryMembers_resume categoryName memberType allMembers reply).
Proof.
  pose proof sends_cacheRef_store.
  unfold fetchCategoryMembers_resume, fetchCategoryMembers_catch,
    fetchCategoryMembers_finally.
  sends.
Qed.

Lemma sends_fetchCategoryMembers_settle categoryName memberType script allMembers :
  sends 0 (fetchCategoryMembers_settle categoryName memberType script allMembers).
Proof.
  revert allMembers. pose proof sends_fetchCategoryMembers_resume.
  induction script as [|reply script IH]; intros allMembers;
    cbn [fetchCategoryMembers_settle]; sends.
Qed.

Lemma sends_awaitAll remote calls : sends 0 (awaitAll remote calls).
Proof.
  unfold awaitAll.
  pose proof sends_fetchCategoryMembers. pose proof sends_fetchCategoryMembers_settle.
  sends.
Qed.

Lemma sends_aggregate targetCategories directPageIds allSubcatNames :
  sends 0 (aggregate targetCategories directPageIds allSubcatNames).
Proof.
  apply sends_stays. intros h.
  destruct (aggregate_spec targetCategories directPageIds allSubcatNames h)
    as (segments & h' & _ & -> & Heq).
  unfold apart_from_random in Heq. simpl. by injection Heq.
Qed.

Lemma stays_requests_selectBatch allAvailableIds :
  stays requests (selectBatch allAvailableIds).
Proof. unfold selectBatch. stays. Qed.

(** The batch of a pool without repetition. *)
Lemma selectBatch_batch allAvailableIds h :
  NoDup allAvailableIds →
  NoDup (selectBatch allAvailableIds h).1
  ∧ length (selectBatch allAvailableIds h).1 ≤ BATCH_SIZE.
Proof.
  intros Hpool. destruct (selectBatch_eq allAvailableIds h) as (h' & -> & _). simpl.
  split.
  - eapply sublist_NoDup; [|apply sublist_take].
    unfold shuffleArray. rewrite shuffle_from_Permutation.
    unfold candidates, potentialIds. destruct (exhausted _ _); [done|by apply NoDup_filter].
  - rewrite length_take. lia.
Qed.

(** What the detail fetcher does to the log and to the rest of the hook. *)
Lemma fetchArticleDetails_log remote currentLanguage_id pageIds h :
  let h' := (fetchArticleDetails remote currentLanguage_id pageIds h).2 in
  requests h'
  = requests h ++ (if decide (pageIds = []) then [] else [PageDetailsRequest pageIds])
  ∧ apart_from_requests h' = apart_from_requests h.
Proof.
  unfold fetchArticleDetails. destruct pageIds as [|id pageIds]; simpl; [|done].
  by rewrite app_nil_r.
Qed.

Lemma sends_fetchArticleDetails remote currentLanguage_id pageIds :
  NoDup pageIds → length pageIds ≤ BATCH_SIZE →
  sends 1 (fetchArticleDetails remote currentLanguage_id pageIds).
Proof.
  intros Hnd Hlen h.
  destruct (fetchArticleDetails_log remote currentLanguage_id pageIds h) as [-> _].
  destruct (decide (pageIds = [])).
  - exists []. split; [done|]. split; [constructor|simpl; lia].
  - exists [PageDetailsRequest pageIds]. split; [done|].
    split; [|simpl; lia]. constructor; [done|constructor].
Qed.

Lemma sends_deliver n (again : M ()) remote currentLanguage_id (forBuffer : bool)
    idsToFetch :
  NoDup idsToFetch → length idsToFetch ≤ BATCH_SIZE → sends n again →
  sends (if forBuffer then 1 else S n)
    (deliver again remote currentLanguage_id forBuffer idsToFetch).
Proof.
  intros Hnd Hlen Hagain. unfold deliver.
  apply (sends_le (1 + (if forBuffer then 0 else n))); [by destruct forBuffer; lia|].
  apply sends_bind; [by apply sends_fetchArticleDetails|]. intros newArticles.
  replace (if forBuffer then 0 else n) with (0 + ((if forBuffer then 0 else n) + 0)) by lia.
  apply sends_bind; [apply sends_stays; by intros ?|]. intros _.
  apply sends_bind; [|intros _; apply sends_stays; by intros ?].
  destruct (0 <? length newArticles).
  - destruct forBuffer; [apply sends_stays; by intros ?|].
    apply (sends_bind 0 n); [apply sends_stays; by intros ?|done].
  - apply (sends_le 0); [lia|apply sends_ret].
Qed.

Lemma sends_production n (again : M ()) remote currentLanguage_id targetCategories
    (forBuffer : bool) :
  sends n again →
  sends (if forBuffer then 1 else S n)
    (production again remote currentLanguage_id targetCategories forBuffer).
Proof.
  intros Hagain. unfold production, subcatSample, subcatPageIds.
  pose proof sends_awaitAll as Hawait. pose proof sends_aggregate as Haggregate.
  apply (sends_bind 0); [sends|]. intros _.
  apply (sends_bind 0); [sends|]. intros _.
  apply (sends_bind 0); [sends|]. intros [directPageIds allSubcatNames].
  apply (sends_bind 0); [sends|]. intros subcatSample.
  apply (sends_bind 0); [sends|]. intros _.
  apply (sends_bind 0); [sends|]. intros subcatPageIds.
  set (allAvailableIds := spread_set ∅ (directPageIds ++ subcatPageIds)).
  assert (∀ X (m : M X), sends 0 m → sends (if forBuffer then 1 else S n) m) as Hnone.
  { intros X m. apply sends_le. destruct forBuffer; lia. }
  destruct (length allAvailableIds =? 0); [apply Hnone; sends|].
  apply (sends_bind_post (λ ids, NoDup ids ∧ length ids ≤ BATCH_SIZE) 0).
  - apply sends_stays, stays_requests_selectBatch.
  - intros h. apply selectBatch_batch, NoDup_spread_set.
  - intros idsToFetch [Hnd Hlen].
    destruct (length idsToFetch =? 0); [apply Hnone; sends|].
    by apply sends_deliver.
Qed.

Lemma sends_cycle n (again : M ()) remote currentLanguage_id loading0 targetCategories
    (forBuffer : bool) :
  sends n again →
  sends (if forBuffer then 1 else S n)
    (cycle again remote currentLanguage_id loading0 targetCategories forBuffer).
Proof.
  intros Hagain. unfold cycle. destruct (_ || _); [|by apply sends_production].
  apply (sends_le 0); [destruct forBuffer; lia|apply sends_ret].
Qed.

Lemma sends_fetchAndProcessArticles remote currentLanguage_id loading0 targetCategories
    (forBuffer : bool) :
  sends (if forBuffer then 1 else 2)
    (fetchAndProcessArticles remote currentLanguage_id loading0 targetCategories forBuffer).
Proof.
  unfold fetchAndProcessArticles. apply (sends_cycle 1), (sends_cycle 0 _ _ _ _ _ true).
  apply sends_ret.
Qed.

(** X18.  A call of [fetchAndProcessArticles], with the buffered cycle it
    may start, only adds to the requests sent; besides the listing
    requests it sends at most two detail requests, at most one when it
    works for the buffer, and every detail request asks for at least one
    and at most [BATCH_SIZE] = 40 identifiers, none of them twice.  A call
    of [fetchArticles] sends at most two detail requests likewise. *)
Theorem cycle_requests remote currentLanguage_id loading0 targetCategories
    (forBuffer : bool) :
  sends (if forBuffer then 1 else 2)
    (fetchAndProcessArticles remote currentLanguage_id loading0 targetCategories forBuffer)
  ∧ sends 2 (fetchArticles remote currentLanguage_id targetCategories).
Proof.
  split; [apply sends_fetchAndProcessArticles|].
  intros h. unfold fetchArticles, getMoreArticles.
  destruct (0 <? length (buffer h)).
  - unfold mbind, M_bind. simpl.
    match goal with
    | |- context [fetchAndProcessArticles _ _ _ _ true ?h0] =>
      destruct (sends_fetchAndProcessArticles remote currentLanguage_id (loading h)
                  targetCategories true h0) as (added & Heq & Hok & Hn)
    end.
    exists added. simpl in *. split; [done|]. split; [done|lia].
  - apply (sends_fetchAndProcessArticles _ _ _ _ false).
Qed.
End cycle_sends.

Section attempted_facts.
Implicit Types (h : Hook) (idsToFetch : list Z).

Lemma attempted_grow h h' added :
  shownPageIds h' ⊆ shownPageIds h → requests h' = requests h ++ added →
  attempted h → attempted h'.
Proof.
  intros Hsub Hreq Hh id Hid. destruct (Hh id (Hsub _ Hid)) as (pageids & Hin & Hid').
  exists pageids. rewrite Hreq, elem_of_app. split; [by left|done].
Qed.

Lemma attempted_sends {X} (m : M X) :
  sends 0 m → stays shownPageIds m → preserves attempted m.
Proof.
  intros Hsends Hshown h Hh. destruct (Hsends h) as (added & Hreq & _).
  apply (attempted_grow h _ added); [by rewrite Hshown|done|done].
Qed.

Lemma attempted_awaitAll remote calls : preserves attempted (awaitAll remote calls).
Proof.
  apply attempted_sends; [apply sends_awaitAll|]. intros h.
  pose proof (stays_awaitAll remote calls h) as Heq.
  unfold outside_resolver in Heq. by injection Heq.
Qed.

Lemma attempted_aggregate targetCategories directPageIds allSubcatNames :
  preserves attempted (aggregate targetCategories directPageIds allSubcatNames).
Proof.
  apply attempted_sends; [apply sends_aggregate|]. intros h.
  destruct (aggregate_spec targetCategories directPageIds allSubcatNames h)
    as (segments & h' & _ & -> & Heq).
  unfold apart_from_random in Heq. simpl. by injection Heq.
Qed.

Lemma attempted_selectBatch allAvailableIds :
  preserves attempted (selectBatch allAvailableIds).
Proof.
  intros h Hh. apply (attempted_grow h _ []); [| |done].
  - destruct (selectBatch_eq allAvailableIds h) as (h' & -> & Hshown & _). simpl.
    rewrite Hshown. destruct (exhausted _ _); [|done]. intros id Hid. by apply elem_of_empty in Hid.
  - by rewrite stays_requests_selectBatch, app_nil_r.
Qed.

(** The batch is marked as shown right after the request for it has left. *)
Lemma attempted_deliver again remote currentLanguage_id forBuffer idsToFetch :
  preserves attempted again →
  preserves attempted (deliver again remote currentLanguage_id forBuffer idsToFetch).
Proof.
  intros Hagain h Hh. unfold deliver.
  unfold mbind at 1 2. unfold M_bind at 1 2.
  destruct (fetchArticleDetails_log remote currentLanguage_id idsToFetch h) as [Hreq Hrest].
  destruct (fetchArticleDetails remote currentLanguage_id idsToFetch h)
    as [newArticles h1].
  cbn [fst snd] in *.
  assert (shownPageIds h1 = shownPageIds h) as Hshown.
  { unfold apart_from_requests in Hrest. by injection Hrest. }
  destruct (set_shownPageIds (λ shown, list_to_set idsToFetch ∪ shown) h1)
    as [u h2] eqn:Hset.
  assert (attempted h2) as Hh2.
  { injection Hset as _ <-. intros id. simpl.
    rewrite elem_of_union, elem_of_list_to_set, Hshown, Hreq.
    intros [Hid|Hid].
    - exists idsToFetch. split; [|done]. apply elem_of_app. right.
      destruct (decide (idsToFetch = [])) as [->|_]; [by apply elem_of_nil in Hid|].
      by apply list_elem_of_singleton.
    - destruct (Hh id Hid) as (pageids & Hin & Hid'). exists pageids.
      split; [|done]. apply elem_of_app. by left. }
  revert Hh2. generalize h2.
  change (preserves attempted
            ((if 0 <? length newArticles
              then if forBuffer then setBuffer newArticles
                   else setArticles (λ prev, prev ++ newArticles);; again
              else mret ());; setLoading false)).
  apply preserves_bind; [|intros _ h' Hh'; exact Hh'].
  destruct (0 <? length newArticles); [|intros h' Hh'; exact Hh'].
  destruct forBuffer; [intros h' Hh'; exact Hh'|].
  apply preserves_bind; [intros h' Hh'; exact Hh'|done].
Qed.

(** X19.  An identifier gets into the shown set only by way of a detail
    request: in every state that a session of the hook reaches, each
    identifier of the shown set is among the identifiers of a detail
    request that the hook has sent. *)
Theorem shown_only_attempted rnd currentLanguage_id targetCategories history :
  attempted (session rnd currentLanguage_id targetCategories history).
Proof.
  unfold session. apply (preserves_act attempted).
  - intros b h Hh. exact Hh.
  - apply attempted_awaitAll.
  - apply attempted_aggregate.
  - intros allSubcatNames h Hh. exact Hh.
  - apply attempted_selectBatch.
  - apply attempted_deliver.
  - intros h Hh. exact Hh.
  - intros id Hid. by apply elem_of_empty in Hid.
Qed.
End attempted_facts.

(** ** [Promise.all] over resolver calls, as a run of the calls in flight *)

Section awaitAll_steps.
Implicit Types (r : Resolver) (f : Flight) (h : Hook) (calls : list (string * MemberType)).

Lemma foldl_step_inv r events :
  resolver_inv r → status_agrees r →
  resolver_inv (foldl step r events) ∧ status_agrees (foldl step r events).
Proof.
  intros Hinv Hag. induction events as [|e events [IHinv IHag]] using rev_ind; [done|].
  rewrite foldl_app. simpl. split; [by apply resolver_inv_step|].
  destruct e; [by apply status_agrees_call|by apply status_agrees_deliver].
Qed.

Lemma settled_inv h : settled h → resolver_inv {| hook := h; flights := [] |}.
Proof.
  intros Hag. split; [constructor|]. split; [by intros f ?%elem_of_nil|].
  intros categoryName memberType l Hl. simpl in *.
  specialize (Hag categoryName memberType). simpl in Hag. rewrite Hl in Hag.
  destruct (fetchingStatus h !! cacheKey categoryName memberType) as [[]|];
    try done; by destruct Hag as [[?|?] _].
Qed.

Lemma awaitAll_eq remote calls :
  awaitAll remote calls
  = (started ← mapM awaitAll_start calls; mapM (awaitAll_finish remote) started;; mret ()).
Proof. done. Qed.

(** The first half of [awaitAll]: every call runs up to its first request. *)
Lemma start_steps calls r started h1 :
  mapM awaitAll_start calls (hook r) = (started, h1) →
  foldl step r ((λ c, Call c.1 c.2) <$> calls)
  = {| hook := h1; flights := flights r ++ omap id started |}.
Proof.
  revert r started h1. induction calls as [|c calls IH]; intros r started h1.
  { simpl. intros [= <- <-]. rewrite app_nil_r. by destruct r. }
  cbn [mapM fmap list_fmap foldl]. unfold mbind at 1 2. unfold M_bind at 1 2.
  unfold awaitAll_start at 1. unfold mbind at 1. unfold M_bind at 1. cbn [step].
  destruct (fetchCategoryMembers c.1 c.2 (hook r)) as [[v|allMembers] h'];
    cbn [mret M_ret fst snd];
    destruct (mapM awaitAll_start calls h') as [k h''] eqn:Hrest;
    intros [= <- <-]; (erewrite IH by exact Hrest); simpl; [done|].
  by rewrite <-(assoc_L (++)).
Qed.

(** A suspended call that is run to its end is a sequence of replies
    delivered to it. *)
Lemma settle_steps script f flights0 h :
  ∃ events,
    foldl step {| hook := h; flights := f :: flights0 |} events
    = {| hook := (fetchCategoryMembers_settle (flight_name f) (flight_type f) script
                    (flight_members f) h).2;
         flights := flights0 |}.
Proof.
  revert f h. induction script as [|reply script IH]; intros f h.
  - exists [Deliver 0 Rejected]. simpl. unfold mbind, M_bind.
    by rewrite fetchCategoryMembers_catch_eq.
  - cbn [fetchCategoryMembers_settle]. unfold mbind, M_bind.
    destruct (fetchCategoryMembers_resume (flight_name f) (flight_type f)
                (flight_members f) reply h) as [[v|allMembers] h1] eqn:Hresume.
    + exists [Deliver 0 reply]. simpl. by rewrite Hresume.
    + destruct (IH (Build_Flight (flight_name f) (flight_type f) allMembers) h1)
        as [events Hevents].
      exists (Deliver 0 reply :: events). simpl. rewrite Hresume. simpl. apply Hevents.
Qed.

(** The second half of [awaitAll]: the suspended calls are run to their
    ends. *)
Lemma settle_all_steps remote (started : list (option Flight)) h :
  ∃ events,
    foldl step {| hook := h; flights := omap id started |} events
    = {| hook := (mapM (awaitAll_finish remote) started h).2; flights := [] |}.
Proof.
  revert h. induction started as [|[f|] started IH]; intros h.
  - by exists [].
  - destruct (settle_steps (listing remote (flight_name f) (flight_type f)) f
                (omap id started) h) as [events1 Hevents1].
    cbn [mapM]. unfold mbind at 1 2. unfold M_bind at 1 2.
    unfold awaitAll_finish at 1. unfold mbind at 1. unfold M_bind at 1.
    destruct (fetchCategoryMembers_settle _ _ _ _ h) as [v h1]. simpl in Hevents1.
    destruct (IH h1) as [events2 Hevents2].
    exists (events1 ++ events2). rewrite foldl_app.
    change (omap id (Some f :: started)) with (f :: omap id started).
    rewrite Hevents1, Hevents2.
    cbn [mret M_ret fst snd]. by destruct (mapM (awaitAll_finish remote) started h1).
  - destruct (IH h) as [events Hevents]. exists events.
    change (omap id (None :: started)) with (omap id started). rewrite Hevents.
    cbn [mapM awaitAll_finish]. unfold mbind, M_bind. cbn [mret M_ret fst snd].
    by destruct (mapM (awaitAll_finish remote) started h).
Qed.

Lemma awaitAll_steps remote calls h :
  ∃ events,
    foldl step {| hook := h; flights := [] |} (((λ c, Call c.1 c.2) <$> calls) ++ events)
    = {| hook := (awaitAll remote calls h).2; flights := [] |}.
Proof.
  rewrite awaitAll_eq. unfold mbind at 1 2. unfold M_bind at 1 2.
  destruct (mapM awaitAll_start calls h) as [started h1] eqn:Hstarted.
  pose proof (start_steps calls {| hook := h; flights := [] |} started h1 Hstarted)
    as Hstart.
  cbn [hook flights app] in Hstart.
  destruct (settle_all_steps remote started h1) as [events Hevents].
  exists events. rewrite foldl_app, Hstart, Hevents.
  by destruct (mapM (awaitAll_finish remote) started h1).
Qed.

(** A key that has a status keeps having one, and a call gives its key a
    status. *)
Lemma status_stays r e key :
  is_Some (fetchingStatus (hook r) !! key) →
  is_Some (fetchingStatus (hook (step r e)) !! key).
Proof.
  intros Hkey. destruct e as [n t|n reply]; simpl.
  - pose proof (fetchCategoryMembers_spec n t (hook r)) as Hspec. simpl in Hspec.
    destruct (fetchCategoryMembers n t (hook r)) as [[v|allMembers] h'].
    { by destruct Hspec as [-> _]. }
    destruct Hspec as (_ & _ & _ & Hst & _). simpl. rewrite Hst.
    destruct (decide (cacheKey n t = key)) as [->|Hne];
      [by rewrite lookup_insert_eq|by rewrite lookup_insert_ne].
  - destruct (flights r !! n) as [f|]; [|done].
    pose proof (fetchCategoryMembers_resume_spec (flight_name f) (flight_type f)
                  (flight_members f) reply (hook r)) as Hspec. simpl in Hspec.
    destruct (fetchCategoryMembers_resume _ _ _ reply (hook r)) as [[v|allMembers] h'].
    + destruct Hspec as (_ & Hst & _). simpl. rewrite Hst.
      destruct (decide (cacheKey (flight_name f) (flight_type f) = key)) as [->|Hne];
        [by rewrite lookup_insert_eq|by rewrite lookup_insert_ne].
    + destruct Hspec as (_ & Hst & _). simpl. by rewrite Hst.
Qed.

Lemma status_stays_foldl r events key :
  is_Some (fetchingStatus (hook r) !! key) →
  is_Some (fetchingStatus (hook (foldl step r events)) !! key).
Proof.
  intros Hkey. induction events as [|e events IH] using rev_ind; [done|].
  rewrite foldl_app. simpl. by apply status_stays.
Qed.

Lemma call_status r categoryName memberType :
  status_agrees r →
  is_Some (fetchingStatus (hook (step r (Call categoryName memberType)))
             !! cacheKey categoryName memberType).
Proof.
  intros Hag. simpl.
  pose proof (fetchCategoryMembers_spec categoryName memberType (hook r)) as Hspec.
  simpl in Hspec. specialize (Hag categoryName memberType). simpl in Hag.
  destruct (fetchCategoryMembers categoryName memberType (hook r)) as [[v|allMembers] h'].
  - destruct Hspec as [-> [[Hv _]|[_ Hp]]]; simpl; [|by rewrite Hp].
    destruct (fetchingStatus (hook r) !! cacheKey categoryName memberType); [done|].
    congruence.
  - destruct Hspec as (_ & _ & _ & Hst & _). simpl. by rewrite Hst, lookup_insert_eq.
Qed.

Lemma calls_status calls r c :
  resolver_inv r → status_agrees r → c ∈ calls →
  is_Some (fetchingStatus (hook (foldl step r ((λ c, Call c.1 c.2) <$> calls)))
             !! cacheKey c.1 c.2).
Proof.
  intros Hinv Hag. induction calls as [|c' calls IH] using rev_ind.
  { by intros ?%elem_of_nil. }
  rewrite fmap_app, foldl_app. cbn [fmap list_fmap foldl].
  destruct (foldl_step_inv r ((λ c, Call c.1 c.2) <$> calls) Hinv Hag) as [Hinv' Hag'].
  intros [Hc| ->%list_elem_of_singleton]%elem_of_app.
  - by apply status_stays, IH.
  - by apply call_status.
Qed.

Lemma awaitAll_run remote calls h :
  settled h →
  let h' := (awaitAll remote calls h).2 in
  (∃ events,
     foldl step {| hook := h; flights := [] |} events = {| hook := h'; flights := [] |})
  ∧ settled h'
  ∧ ∀ categoryName memberType, (categoryName, memberType) ∈ calls →
      fetchingStatus h' !! cacheKey categoryName memberType = Some done
      ∨ fetchingStatus h' !! cacheKey categoryName memberType = Some error.
Proof.
  intros Hh. simpl. destruct (awaitAll_steps remote calls h) as [events Hevents].
  pose proof (settled_inv h Hh) as Hinv.
  destruct (foldl_step_inv _ (((λ c, Call c.1 c.2) <$> calls) ++ events) Hinv Hh)
    as [_ Hag'].
  rewrite Hevents in Hag'.
  split; [by eexists|]. split; [done|].
  intros categoryName memberType Hc.
  pose proof (calls_status calls _ _ Hinv Hh Hc) as Hsome.
  apply (status_stays_foldl _ events) in Hsome.
  rewrite <-foldl_app, Hevents in Hsome. simpl in Hsome.
  specialize (Hag' categoryName memberType). simpl in Hag'.
  destruct (fetchingStatus (awaitAll remote calls h).2 !! cacheKey categoryName memberType)
    as [[]|]; [|by left|by right|by destruct Hsome].
  by destruct Hag' as [_ (f & ?%elem_of_nil & _)].
Qed.



Lemma settled_part h h' : resolver_part h' = resolver_part h → settled h → settled h'.
Proof.
  unfold resolver_part. intros [= Hp Hs Hst] Hh categoryName memberType.
  specialize (Hh categoryName memberType). simpl in *.
  assert (cacheRef memberType h' = cacheRef memberType h) as ->
    by (by destruct memberType).
  by rewrite Hst.
Qed.



End awaitAll_steps.

(** ** A cycle without a network *)

Section offline_facts.
Implicit Types (h : Hook).

Lemma preserves_mapM {X Z} (I : Hook → Prop) (g : X → M Z) (xs : list X) :
  (∀ x, preserves I (g x)) → preserves I (mapM g xs).
Proof.
  intros Hg. induction xs as [|x xs IH]; simpl; [by intros h|].
  apply preserves_bind; [done|]. intros y.
  apply preserves_bind; [done|]. intros ys. by intros h.
Qed.

Lemma no_listing_store memberType categoryName :
  preserves no_listing (cacheRef_store memberType categoryName None).
Proof.
  intros h Hh name. destruct (Hh name) as [Hp Hs].
  destruct memberType; simpl; (split; [|try done]); try done; unfold cachedList;
    (destruct (decide (categoryName = name)) as [->|Hne];
      [by rewrite lookup_insert_eq|by rewrite lookup_insert_ne]).
Qed.

Lemma no_listing_stays {X} (m : M X) :
  stays (λ h, (categoryPageIds h, categorySubcats h)) m → preserves no_listing m.
Proof.
  intros Hm h Hh name. specialize (Hm h). simpl in Hm. injection Hm as -> ->. apply Hh.
Qed.

Lemma no_listing_awaitAll remote calls :
  (∀ name memberType, listing remote name memberType = []) →
  preserves no_listing (awaitAll remote calls).
Proof.
  intros Hoff. rewrite awaitAll_eq.
  apply preserves_bind; [|intros started; apply preserves_bind; [|by intros _ h]].
  - apply preserves_mapM. intros c. apply no_listing_stays.
    unfold awaitAll_start, fetchCategoryMembers. stays.
  - apply preserves_mapM. intros [f|]; [|by intros h]. unfold awaitAll_finish.
    rewrite Hoff. cbn [fetchCategoryMembers_settle fetchCategoryMembers_resume].
    apply preserves_bind; [|by intros _ h].
    apply preserves_bind; [|by intros o h].
    unfold fetchCategoryMembers_catch, fetchCategoryMembers_finally.
    apply preserves_bind; [apply no_listing_stays; by intros ?|]. intros _.
    apply preserves_bind; [apply no_listing_store|]. intros _.
    apply preserves_bind; [|by intros _ h].
    apply no_listing_stays. stays.
Qed.

Lemma aggregate_no_listing targetCategories h :
  no_listing h → (aggregate targetCategories [] [] h).1 = ([], []).
Proof.
  intros Hh. destruct (aggregate_spec targetCategories [] [] h)
    as (segments & h' & Hsegs & -> & _).
  simpl. f_equal.
  - clear -Hsegs Hh. revert segments Hsegs.
    induction targetCategories as [|catName rest IH]; intros segments Hsegs.
    + by apply Forall2_nil_inv_r in Hsegs as ->.
    + rewrite fmap_cons in Hsegs.
      apply Forall2_cons_inv_r in Hsegs as (segment & segments' & Hseg & Hsegs' & ->).
      destruct (Hh catName) as [Hp _]. rewrite Hp in Hseg.
      apply Permutation_nil_r in Hseg as ->. simpl. by apply IH.
  - clear -Hh. induction targetCategories as [|catName rest IH]; [done|].
    rewrite fmap_cons. simpl. destruct (Hh catName) as [_ ->]. done.
Qed.

(** Without a network the cycle stops at its empty pool. *)
Lemma offline_production again remote currentLanguage_id targetCategories forBuffer h :
  (∀ name memberType, listing remote name memberType = []) →
  no_listing h →
  let h1 := (awaitAll remote (catName ← targetCategories; [(catName, page); (catName, subcat)])
               (setLoading true h).2).2 in
  let h2 := (aggregate targetCategories [] [] h1).2 in
  let h3 := (subcatSample [] h2).2 in
  production again remote currentLanguage_id targetCategories forBuffer h
  = ((), (setLoading false h3).2).
Proof.
  intros Hoff Hh. cbn zeta. unfold production. unfold mbind, M_bind.
  cbn [setLoading modify fst snd].
  match goal with
  | |- context [awaitAll remote ?c ?h0] =>
    pose proof (no_listing_awaitAll remote c Hoff h0 Hh) as Hno1;
    destruct (awaitAll remote c h0) as [[] h1]
  end.
  cbn [fst snd] in *.
  pose proof (aggregate_no_listing targetCategories h1 Hno1) as Hagg.
  destruct (aggregate targetCategories [] [] h1) as [[directPageIds allSubcatNames] h2].
  cbn [fst snd] in *. injection Hagg as -> ->.
  destruct (subcatSample [] h2) as [sample h3] eqn:Hsample.
  assert (sample = []) as ->.
  { unfold subcatSample in Hsample. by injection Hsample as <- _. }
  cbn [fst snd fmap list_fmap]. done.
Qed.

(** X22.  Without a network a cycle does no harm.  When every listing
    request is rejected and the caches hold no list, a production cycle
    sends no detail request, leaves the displayed list, the buffer and the
    shown set as they are, and ends with [loading] false; the caches hold
    no list afterwards either, and when no key was pending before none is
    afterwards, so that the next cycle asks again. *)
Theorem offline_cycle again remote currentLanguage_id targetCategories forBuffer h :
  (∀ name memberType, listing remote name memberType = []) →
  no_listing h →
  let h' := (production again remote currentLanguage_id targetCategories forBuffer h).2 in
  held h' = held h
  ∧ shownPageIds h' = shownPageIds h
  ∧ loading h' = false
  ∧ filter is_details (requests h') = filter is_details (requests h)
  ∧ no_listing h'
  ∧ (settled h → settled h').
Proof.
  intros Hoff Hh h'. subst h'.
  rewrite (offline_production again remote currentLanguage_id targetCategories forBuffer h
             Hoff Hh).
  set (calls := targetCategories ≫= _). set (h0 := (setLoading true h).2).
  pose proof (no_listing_awaitAll remote calls Hoff h0 Hh) as Hno1.
  pose proof (stays_awaitAll remote calls h0) as Hout1.
  pose proof (sends_awaitAll remote calls h0) as (added & Hreq1 & _ & Hdet1).
  pose proof (awaitAll_run remote calls h0) as Hset1.
  set (h1 := (awaitAll remote calls h0).2) in *.
  destruct (aggregate_spec targetCategories [] [] h1) as (segments & h2 & _ & Heq2 & Hframe2).
  rewrite Heq2. cbn [fst snd].
  unfold outside_resolver in Hout1. injection Hout1 as Ha _ Hb Hs _.
  unfold apart_from_random in Hframe2.
  injection Hframe2 as Ha2 _ Hb2 Hp2 Hc2 Hs2 Hst2 Hr2.
  simpl. unfold held. rewrite Ha2, Hb2, Hs2, Hr2, Ha, Hb, Hs, Hreq1.
  split; [done|]. split; [done|]. split; [done|]. split; [|split].
  - rewrite filter_app.
    destruct (filter is_details added); [by rewrite app_nil_r|simpl in Hdet1; lia].
  - intros name. unfold no_listing in Hno1. simpl. rewrite Hp2, Hc2. apply Hno1.
  - intros Hsettled. apply (settled_part h1).
    + unfold resolver_part. simpl. by rewrite Hp2, Hc2, Hst2.
    + by apply Hset1.
Qed.

Lemma offline_cycle_witness :
  let h' := (production (mret ()) offline "en" ["Category:Physics"] false
               (mount (λ _, 0))).2 in
  ((∀ name memberType, listing offline name memberType = []) ∧ no_listing (mount (λ _, 0)))
  ∧ held h' = held (mount (λ _, 0)).
Proof.
  assert (∀ name memberType, listing offline name memberType = []) as Hoff by done.
  assert (no_listing (mount (λ _, 0))) as Hh by done.
  split; [done|].
  exact (proj1 (offline_cycle (mret ()) offline "en" ["Category:Physics"] false
                  (mount (λ _, 0)) Hoff Hh)).
Defined.
End offline_facts.

(** ** The sampler of the earlier variant *)

Section sampler_more.
Implicit Types (sort : list string → Sorting string) (signs : list bool).

Lemma sort_result_elem {A} (s : Sorting A) signs result :
  sort_result s signs = Some result → result ∈ sort_results s.
Proof.
  revert signs. induction s as [r|a b negative IHn zero _ positive IHp]; intros signs; simpl.
  - intros [= ->]. by apply list_elem_of_singleton.
  - destruct signs as [|[] signs]; [done| |]; intros Hr; apply elem_of_app.
    + right. by eapply IHp.
    + left. by eapply IHn.
Qed.

(** X23.  The sampler of the earlier variant ([unnamed/part_001]) removes
    repeated names before it samples: whenever the engine's sort ends with
    a rearrangement of its input, the sample holds no subcategory twice,
    holds at most [SUBCAT_SAMPLE_SIZE] = 5 names, and holds only names that
    were aggregated. *)
Theorem sampledSubcats_distinct sort signs allSubcatNames sample :
  Forall (λ result, result ≡ₚ spread_set ∅ allSubcatNames)
    (sort_results (sort (spread_set ∅ allSubcatNames))) →
  sampledSubcats sort signs allSubcatNames = Some sample →
  NoDup sample ∧ length sample ≤ 5 ∧ ∀ name, name ∈ sample → name ∈ allSubcatNames.
Proof.
  intros Hsort. unfold sampledSubcats.
  destruct (sort_result _ signs) as [result|] eqn:Hresult; [|done].
  simpl. intros [= <-].
  apply sort_result_elem in Hresult.
  rewrite Forall_forall in Hsort. pose proof (Hsort _ Hresult) as Hperm.
  split; [|split].
  - eapply sublist_NoDup; [|apply sublist_take]. rewrite Hperm. apply NoDup_spread_set.
  - rewrite length_take. unfold SUBCAT_SAMPLE_SIZE. lia.
  - intros name Hname%(subseteq_take SUBCAT_SAMPLE_SIZE).
    rewrite Hperm, elem_of_spread_set in Hname. tauto.
Qed.

Lemma sampledSubcats_distinct_witness :
  let allSubcatNames := ["A"; "B"; "A"; "C"] in
  (Forall (λ result, result ≡ₚ spread_set ∅ allSubcatNames)
     (sort_results (insertion_sort_3 (spread_set ∅ allSubcatNames)))
   ∧ sampledSubcats insertion_sort_3 [false; false] allSubcatNames = Some ["A"; "B"; "C"])
  ∧ NoDup ["A"; "B"; "C"].
Proof.
  assert (Forall (λ result, result ≡ₚ spread_set ∅ ["A"; "B"; "A"; "C"])
            (sort_results (insertion_sort_3 (spread_set ∅ ["A"; "B"; "A"; "C"])))) as Hsort
    by (by apply (bool_decide_unpack _)).
  assert (sampledSubcats insertion_sort_3 [false; false] ["A"; "B"; "A"; "C"]
          = Some ["A"; "B"; "C"]) as Hsample by (by vm_compute).
  split; [done|].
  exact (proj1 (sampledSubcats_distinct insertion_sort_3 [false; false]
                  ["A"; "B"; "A"; "C"] ["A"; "B"; "C"] Hsort Hsample)).
Defined.
End sampler_more.

(** ** The feed component *)

Section app_more.
Implicit Types (a : App) (events : list AppEvent).

Lemma app_run_snoc rnd currentLanguage_id events e :
  app_run rnd currentLanguage_id (events ++ [e])
  = app_step currentLanguage_id (app_run rnd currentLanguage_id events) e.
Proof. unfold app_run. by rewrite foldl_app. Qed.




Lemma app_run_selected rnd currentLanguage_id events more :
  let a := app_run rnd currentLanguage_id events in
  let a' := app_run rnd currentLanguage_id (events ++ more) in
  selectedCategories a = [] ∨ selectedCategories a' = selectedCategories a.
Proof.
  simpl. destruct (selectedCategories (app_run rnd currentLanguage_id events)) eqn:Hsel;
    [by left|right].
  induction more as [|e more IH] using rev_ind; [by rewrite app_nil_r|].
  rewrite (assoc_L (++)), app_run_snoc.
  destruct e as [chosenCategories|remote|isIntersecting remote]; simpl; try done.
  by rewrite IH.
Qed.

(** X25.  In the component, whatever the selector, the renders and the
    observer do: the categories, once selected, never change; the displayed
    list only grows at its end; and every displayed record is complete. *)
Theorem app_feed_grows rnd currentLanguage_id events more :
  let a := app_run rnd currentLanguage_id events in
  let a' := app_run rnd currentLanguage_id (events ++ more) in
  (selectedCategories a = [] ∨ selectedCategories a' = selectedCategories a)
  ∧ articles (wiki a) `prefix_of` articles (wiki a')
  ∧ Forall complete (articles (wiki a')).
Proof.
  simpl. split; [apply app_run_selected|]. split.
  - unfold app_run. rewrite foldl_app.
    set (a := foldl _ _ events).
    apply (preserves_held_app_step (λ h, articles (wiki a) `prefix_of` articles h));
      [| | | |done].
    + intros h h' Heq. unfold held in Heq. by injection Heq as -> _.
    + intros newArticles h _ Hh. simpl. by apply prefix_app_r.
    + by intros newArticles h _ Hh.
    + intros h Hh. simpl. by apply prefix_app_r.
  - unfold app_run.
    apply (preserves_held_app_step
             (λ h, Forall complete (articles h) ∧ Forall complete (buffer h))).
    + intros h1 h2 Heq. unfold held in Heq. by injection Heq as -> ->.
    + intros newArticles h1 Hnew [Ha Hb]. simpl. split; [by apply Forall_app|done].
    + by intros newArticles h1 Hnew [Ha Hb].
    + intros h1 [Ha Hb]. simpl. split; [by apply Forall_app|constructor].
    + split; constructor.
Qed.

End app_more.

(** ** The category search and the selector *)

Section trim_facts.
Implicit Types (s l : list N) (c : N).

Lemma trimStart_nil s : trimStart s = [] ↔ blank s.
Proof.
  unfold blank. induction s as [|c s IH]; simpl.
  - split; [constructor|done].
  - destruct (isWhiteSpace c) eqn:Hc.
    + rewrite IH. split; [by constructor|]. by intros [_ ?]%Forall_cons.
    + split; [done|]. intros [Hc' _]%Forall_cons. congruence.
Qed.

Lemma trimStart_head s c l : trimStart s = c :: l → isWhiteSpace c = false.
Proof.
  induction s as [|c' s IH]; simpl; [done|].
  destruct (isWhiteSpace c') eqn:Hc; [done|]. by intros [= <- _].
Qed.

Lemma trimStart_snoc l c :
  isWhiteSpace c = false → trimStart (l ++ [c]) = trimStart l ++ [c].
Proof.
  intros Hc. induction l as [|c' l IH]; simpl; [by rewrite Hc|].
  by destruct (isWhiteSpace c').
Qed.

Lemma trimStart_idem s : trimStart (trimStart s) = trimStart s.
Proof.
  induction s as [|c s IH]; simpl; [done|].
  destruct (isWhiteSpace c) eqn:Hc; [done|]. simpl. by rewrite Hc.
Qed.

Lemma trimEnd_cons c s : isWhiteSpace c = false → trimEnd (c :: s) = c :: trimEnd s.
Proof.
  intros Hc. unfold trimEnd.
  by rewrite reverse_cons, trimStart_snoc, reverse_app.
Qed.

Lemma trimEnd_idem s : trimEnd (trimEnd s) = trimEnd s.
Proof. unfold trimEnd. by rewrite reverse_involutive, trimStart_idem. Qed.

(** [trim] strips the front for good. *)
Lemma trimStart_trim s : trimStart (trim s) = trim s.
Proof.
  unfold trim. destruct (trimStart s) as [|c l] eqn:Hs; [done|].
  pose proof (trimStart_head _ _ _ Hs) as Hc.
  rewrite trimEnd_cons by done. simpl. by rewrite Hc.
Qed.

Lemma trim_idem s : trim (trim s) = trim s.
Proof.
  rewrite <-(trimStart_trim s) at 2. unfold trim at 1.
  rewrite !trimStart_trim. unfold trim. apply trimEnd_idem.
Qed.

Lemma trim_nil s : trim s = [] ↔ blank s.
Proof.
  rewrite <-trimStart_nil. unfold trim.
  destruct (trimStart s) as [|c l] eqn:Hs; [done|].
  pose proof (trimStart_head _ _ _ Hs) as Hc. by rewrite trimEnd_cons.
Qed.
End trim_facts.

Section search_more.
Implicit Types (query : list N) (s : CategorySearch.t) (reply : SearchReply).

(** X27.  A query of white space only (spaces, tabs, line ends, any of the
    characters that [trim] strips), or an empty one, sends no request: the
    call clears the results and the error, sets [loading] to false and
    returns. *)
Theorem searchCategories_blank query reply s :
  blank query →
  searchCategories_settle query reply s
  = {| CategorySearch.searchResults := []; CategorySearch.loading := false;
       CategorySearch.error := None;
       CategorySearch.searches := CategorySearch.searches s |}.
Proof.
  intros Hblank%trim_nil. unfold searchCategories_settle, searchCategories.
  by rewrite Hblank.
Qed.

Lemma searchCategories_blank_witness :
  blank [32; 9; 0x3000; 10]%N
  ∧ searchCategories_settle [32; 9; 0x3000; 10]%N search_physics useCategorySearch
    = useCategorySearch.
Proof.
  assert (blank [32; 9; 0x3000; 10]%N) as Hblank by (by repeat constructor).
  split; [done|].
  exact (searchCategories_blank [32; 9; 0x3000; 10]%N search_physics useCategorySearch
           Hblank).
Defined.

(** X28.  A query that is not blank sends one request, with the query as
    typed, and when the call has ended [loading] is false and the error and
    the results exclude each other: after a failure (a rejected request, a
    body that cannot be parsed, an [error] object) the error message is
    set and the results are empty; after a success the error is [null] and
    the results are the titles of the reply in their order, none when the
    reply holds no result list.  The message of an [error] object is
    ["API Error: <info> [<code>]"]. *)
Theorem searchCategories_outcome query reply s :
  ¬ blank query →
  let s' := searchCategories_settle query reply s in
  CategorySearch.loading s' = false
  ∧ CategorySearch.searches s' = CategorySearch.searches s ++ [query]
  ∧ (CategorySearch.error s' = None ∨ CategorySearch.searchResults s' = [])
  ∧ (is_Some (CategorySearch.error s') ↔ search_failed reply)
  ∧ match reply with
    | SearchRejected message =>
      CategorySearch.error s' = Some (default "Failed to fetch categories." message)
    | SearchJson data =>
      match WikiCategorySearchResponse.error data with
      | Some e =>
        CategorySearch.error s'
        = Some ("API Error: " +:+ ApiError.info e +:+ " [" +:+ ApiError.code e +:+ "]")
      | None =>
        CategorySearch.searchResults s'
        = WikiCategorySearchResult.title
            <$> default [] (WikiCategorySearchResponse.query data
                              ≫= WikiCategorySearchQuery.search)
      end
    end.
Proof.
  intros Hquery. unfold searchCategories_settle, searchCategories.
  destruct (length (trim query) =? 0) eqn:Hlen.
  { exfalso. apply Hquery, trim_nil, length_zero_iff_nil. by apply Nat.eqb_eq. }
  unfold searchCategories_resume.
  destruct reply as [message|data]; simpl.
  { repeat split; try done; try (by right); by intros _; eexists. }
  destruct (WikiCategorySearchResponse.error data) as [e|]; simpl.
  { repeat split; try done; try (by right); by intros _; eexists. }
  repeat split; try done; try (by left); try (by intros [? ?]).
  by destruct (WikiCategorySearchResponse.query data ≫= WikiCategorySearchQuery.search).
Qed.

Lemma searchCategories_outcome_witness :
  ¬ blank term_Phys
  ∧ CategorySearch.searchResults
      (searchCategories_settle term_Phys search_physics useCategorySearch)
    = ["Category:Physics"; "Category:Physicists"].
Proof.
  assert (¬ blank term_Phys) as Hquery.
  { intros Hb%Forall_cons. by destruct Hb as [Hb _]. }
  split; [done|].
  exact (proj2 (proj2 (proj2 (proj2
           (searchCategories_outcome term_Phys search_physics useCategorySearch Hquery))))).
Defined.

(** X29.  The search that the selector asks for is never turned down by the
    hook: the effect passes the trimmed search term, and only when it is
    not empty; trimming it again changes nothing, so the call goes past the
    blank test of [searchCategories] and sends the request for the trimmed
    term. *)
Theorem searchEffect_searches searchTerm query s :
  searchEffect searchTerm = Some query →
  query = trim searchTerm ∧ trim query = query ∧ ¬ blank query
  ∧ searchCategories query s
    = (true,
       {| CategorySearch.searchResults := CategorySearch.searchResults s;
          CategorySearch.loading := true; CategorySearch.error := None;
          CategorySearch.searches := CategorySearch.searches s ++ [query] |}).
Proof.
  unfold searchEffect. destruct (0 <? length (trim searchTerm)) eqn:Hlen; [|done].
  intros [= <-]. apply Nat.ltb_lt in Hlen.
  split; [done|]. split; [apply trim_idem|]. split.
  - rewrite <-trim_nil, trim_idem. intros Hnil. rewrite Hnil in Hlen. simpl in Hlen. lia.
  - unfold searchCategories. rewrite trim_idem.
    destruct (length (trim searchTerm) =? 0) eqn:Hzero; [|done].
    apply Nat.eqb_eq in Hzero. lia.
Qed.

Lemma searchEffect_searches_witness :
  searchEffect term_Phys_spaced = Some term_Phys
  ∧ (searchCategories term_Phys useCategorySearch).1 = true.
Proof.
  assert (searchEffect term_Phys_spaced = Some term_Phys) as Heffect by (by vm_compute).
  split; [done|].
  destruct (searchEffect_searches term_Phys_spaced term_Phys useCategorySearch Heffect)
    as (_ & _ & _ & ->). done.
Defined.
End search_more.

Section selector_more.
Implicit Types (choices : list Choice) (category : string).

Lemma chosenAfter_snoc choices c :
  chosenAfter (choices ++ [c]) = choose (chosenAfter choices) c.
Proof. unfold chosenAfter. by rewrite foldl_app. Qed.

Lemma NoDup_chosenAfter choices : NoDup (chosenAfter choices).
Proof.
  induction choices as [|c choices IH] using rev_ind; [constructor|].
  rewrite chosenAfter_snoc. destruct c as [category|category]; simpl.
  - unfold handleAddCategory. destruct (decide (category ∈ _)); [done|].
    apply NoDup_app. split; [done|]. split; [|apply NoDup_singleton].
    by intros x Hx ->%list_elem_of_singleton.
  - by apply NoDup_filter.
Qed.

(** X30.  In the selector, whatever the user clicks: no category is chosen
    twice; a chosen category was added by a click; the category clicked
    last is chosen after an add and not chosen after a remove; a category
    shown among the filtered search results is a search result that is not
    chosen yet, and clicking it puts it at the end of the chosen ones; and
    the confirm button hands on the chosen categories only when there is
    one. *)
Theorem chosenAfter_distinct choices :
  let chosenCategories := chosenAfter choices in
  NoDup chosenCategories
  ∧ (∀ category, category ∈ chosenCategories → Add category ∈ choices)
  ∧ (∀ category, category ∈ chosenAfter (choices ++ [Add category])
                 ∧ category ∉ chosenAfter (choices ++ [Remove category]))
  ∧ (∀ apiSearchResults category,
       category ∈ filteredSearchResults apiSearchResults chosenCategories →
       category ∈ apiSearchResults ∧ (category ∉ chosenCategories)
       ∧ choose chosenCategories (Add category) = chosenCategories ++ [category])
  ∧ match handleConfirm chosenCategories with
    | Some categories => categories = chosenCategories ∧ categories ≠ []
    | None => chosenCategories = []
    end.
Proof.
  simpl. split; [apply NoDup_chosenAfter|]. split; [|split; [|split]].
  - induction choices as [|c choices IH] using rev_ind; intros category.
    { by intros ?%elem_of_nil. }
    rewrite chosenAfter_snoc, elem_of_app. destruct c as [added|removed]; simpl.
    + unfold handleAddCategory. destruct (decide (added ∈ _)); [left; by apply IH|].
      intros [?| ->%list_elem_of_singleton]%elem_of_app; [left; by apply IH|].
      right. by apply list_elem_of_singleton.
    + unfold handleRemoveCategory. intros [_ ?]%list_elem_of_filter. left; by apply IH.
  - intros category. rewrite !chosenAfter_snoc. simpl. split.
    + unfold handleAddCategory. destruct (decide (category ∈ _)); [done|].
      apply elem_of_app. right. by apply list_elem_of_singleton.
    + unfold handleRemoveCategory. by intros [? _]%list_elem_of_filter.
  - intros apiSearchResults category [Hnew Hin]%list_elem_of_filter.
    split; [done|]. split; [done|]. simpl. unfold handleAddCategory.
    by rewrite decide_False.
  - unfold handleConfirm. by destruct (chosenAfter choices).
Qed.
End selector_more.
